(** * QueryPanel node SDK: SQL safety layer, dialect adapters and the ask loop

    A shallow embedding of
      - [src/core/query-engine.ts]   (QueryEngine)
      - [src/adapters/postgres.ts]   (PostgresAdapter)
      - [src/adapters/clickhouse.ts] (ClickHouseAdapter)
      - [src/routes/query.ts]        (ask, anonymizeResults)
      - [src/utils/clickhouse.ts]    (type names and key expressions)
      - [src/index.ts]               (attaching databases)
    together with the properties the specification states about them.

    Conventions of the embedding.
      - A JavaScript string is a [string]; every [ascii] stands for one
        UTF-16 code unit in the range 0..255.
      - A number that counts (attempts, retries, positions in a list) is
        an integer.  A number read from a numeral by [Number.parseInt] is
        a double: the numeral's value rounded to 53 significant bits, and
        [String] prints it as JavaScript does ([JsNumber]).
      - A plain object used as a dictionary ([ParamRecord]) is the
        [gmap string _] of its own properties together with what it
        inherits from: reading a property and the [in] operator follow
        the prototype chain, and an assignment to [__proto__] is received
        by the setter of [Object.prototype] ([Obj]).
      - A [Map] (the registry of the engine) and a result row, whose key
        order is observable, are association lists in the order in which
        their keys are listed.
      - Regular expressions are run by a backtracking matcher written
        after the ECMAScript semantics; each pattern of the source is a
        term of its syntax.
      - Code that talks to the outside (the database client functions and
        the HTTP client) runs in a state-and-exception monad over an
        abstract world; every outgoing call is appended to a trace. *)

From Stdlib Require Import Ascii String ZArith NArith Bool Lia.
From stdpp Require Import base option list gmap strings sorting pretty.

Set Warnings "-register-all".
Local Open Scope N_scope.

(* ===================================================================== *)
(** ** JavaScript strings *)
(* ===================================================================== *)

Module Js.

Definition code (c : ascii) : N := N_of_ascii c.

Definition in_range (lo hi : N) (c : ascii) : bool :=
  (lo <=? code c) && (code c <=? hi).

Definition is_digit (c : ascii) : bool := in_range 48 57 c.
Definition is_upper (c : ascii) : bool := in_range 65 90 c.
Definition is_lower (c : ascii) : bool := in_range 97 122 c.
Definition is_letter (c : ascii) : bool := is_upper c || is_lower c.
Definition is_underscore (c : ascii) : bool := code c =? 95.

(** [a-zA-Z_] *)
Definition is_ident_start (c : ascii) : bool := is_letter c || is_underscore c.
(** [a-zA-Z0-9_], which is also the class of word characters of [\b]. *)
Definition is_word_char (c : ascii) : bool :=
  is_letter c || is_digit c || is_underscore c.

(** [\s] restricted to code units below 256: TAB, LF, VT, FF, CR, SPACE and
    NO-BREAK SPACE. *)
Definition is_white_space (c : ascii) : bool :=
  in_range 9 13 c || (code c =? 32) || (code c =? 160).

(** [String.prototype.toLowerCase] on one code unit below 256: the ASCII
    capitals and the Latin-1 capitals U+00C0..U+00DE except U+00D7. *)
Definition to_lower_char (c : ascii) : ascii :=
  if is_upper c || (in_range 192 222 c && negb (code c =? 215))
  then ascii_of_N (code c + 32) else c.

(** The [Canonicalize] operation of a case-insensitive regular expression.
    All literals of the patterns below are ASCII letters, and no code unit
    outside ASCII canonicalises to an ASCII one, so upper-casing the ASCII
    letters is exact for them. *)
Definition canonicalize (c : ascii) : ascii :=
  if is_lower c then ascii_of_N (code c - 32) else c.

Fixpoint map_chars (f : ascii -> ascii) (s : string) : string :=
  match s with
  | EmptyString => EmptyString
  | String c s' => String (f c) (map_chars f s')
  end.

Definition toLowerCase (s : string) : string := map_chars to_lower_char s.

Fixpoint startsWith (s p : string) : bool :=
  match p, s with
  | EmptyString, _ => true
  | String _ _, EmptyString => false
  | String a p', String b s' => if ascii_dec a b then startsWith s' p' else false
  end.

(** [s.includes(p)] *)
Fixpoint includes (s p : string) : bool :=
  startsWith s p ||
  match s with
  | EmptyString => false
  | String _ s' => includes s' p
  end.

(** [s.replace(/[...]/g, empty)] for a character class: drop its members. *)
Fixpoint remove_chars (p : ascii -> bool) (s : string) : string :=
  match s with
  | EmptyString => EmptyString
  | String c s' => if p c then remove_chars p s' else String c (remove_chars p s')
  end.

Fixpoint drop_while (p : ascii -> bool) (s : string) : string :=
  match s with
  | EmptyString => EmptyString
  | String c s' => if p c then drop_while p s' else s
  end.

(** [s.trim()] *)
Definition trim (s : string) : string :=
  String.rev (drop_while is_white_space (String.rev (drop_while is_white_space s))).

(** [s.split(".")]: never empty. *)
Fixpoint split_go (sep : ascii) (cur_rev : string) (s : string) : list string :=
  match s with
  | EmptyString => [String.rev cur_rev]
  | String c s' =>
      if ascii_dec c sep
      then String.rev cur_rev :: split_go sep EmptyString s'
      else split_go sep (String c cur_rev) s'
  end.
Definition split (sep : ascii) (s : string) : list string :=
  split_go sep EmptyString s.

(** A string is truthy when it is not empty. *)
Definition truthy (s : string) : bool :=
  match s with EmptyString => false | String _ _ => true end.

(** [`${a}${b}...`] *)
Definition concat (l : list string) : string :=
  foldr String.append EmptyString l.

Definition dquote : string := String "034"%char EmptyString.
Definition squote : string := String "039"%char EmptyString.
Definition newline : string := String "010"%char EmptyString.

End Js.

(* ===================================================================== *)
(** ** JavaScript numbers read from and written as numerals *)
(* ===================================================================== *)

Module JsNumber.

(** A number that is a non-negative integer, or [Infinity]: what
    [Number.parseInt] makes of a string of decimal digits. *)
Inductive number : Type :=
| Finite (n : N)
| Infinity.

(** The number value of a natural number: the double nearest to it, a tie
    going to the even significand; a double has 53 significant bits, and
    what rounds to 2^1024 or more is [Infinity]. *)
Definition of_N (n : N) : number :=
  let e := N.log2 n - 52 in
  let q := n / 2 ^ e in
  let r := n mod 2 ^ e in
  let up := (2 ^ e <? 2 * r) || ((2 ^ e =? 2 * r) && N.odd q) in
  let v := (if up then q + 1 else q) * 2 ^ e in
  if 2 ^ 1024 <=? v then Infinity else Finite v.

(** The order [(a, b) => a - b] sorts by. *)
Definition le (x y : number) : Prop :=
  match x, y with
  | Finite a, Finite b => a <= b
  | _, Infinity => True
  | Infinity, Finite _ => False
  end.

#[global] Instance le_dec : RelDecision le :=
  fun x y =>
    match x, y return Decision (le x y) with
    | Finite a, Finite b => decide (a <= b)
    | Finite _, Infinity | Infinity, Infinity => left I
    | Infinity, Finite _ => right (fun absurd : False => absurd)
    end.

(** The numeral [candidate] reads back as the double [x]. *)
Definition reads_back (x candidate : N) : bool :=
  match of_N candidate with
  | Finite v => v =? x
  | Infinity => false
  end.

(** The numerals of [k] significant digits next to [x]: [x] cut after
    [k] digits, and that plus one in the last place kept.  When one of
    them reads back as [x], the result is its digits (as a number) and the
    number of zeros that follow them; of two that do, the one nearer to
    [x], and the even one when they are equally near. *)
Definition shortest_at (x : N) (k : nat) : option (N * nat) :=
  let zeros := (String.length (pretty x) - k)%nat in
  let unit := 10 ^ N.of_nat zeros in
  let lo := x / unit in
  let hi := lo + 1 in
  match reads_back x (lo * unit), reads_back x (hi * unit) with
  | true, true =>
      let below := x - lo * unit in
      let above := hi * unit - x in
      if below <? above then Some (lo, zeros)
      else if above <? below then Some (hi, zeros)
      else Some (if N.even lo then lo else hi, zeros)
  | true, false => Some (lo, zeros)
  | false, true => Some (hi, zeros)
  | false, false => None
  end.

(** The least number of significant digits that reads back as [x]. *)
Fixpoint shortest_from (x : N) (k fuel : nat) : N * nat :=
  match fuel with
  | O => (x, 0%nat)
  | S fuel' =>
      match shortest_at x k with
      | Some found => found
      | None => shortest_from x (S k) fuel'
      end
  end.

Definition shortest (x : N) : N * nat :=
  shortest_from x 1 (String.length (pretty x)).

Definition is_zero (c : ascii) : bool := Js.code c =? 48.

Fixpoint zeros (n : nat) : string :=
  match n with
  | O => EmptyString
  | S n' => String "0" (zeros n')
  end.

(** [String(x)] / [Number.prototype.toString]: an integer below 2^53
    prints as its decimal numeral; from there on the shortest numeral
    that reads back as the same double is printed, padded with zeros
    below 10^21 and in exponent notation from 10^21 on. *)
Definition to_string (x : number) : string :=
  match x with
  | Infinity => "Infinity"
  | Finite n =>
      if n <? 2 ^ 53 then pretty n
      else
        let '(s, padding) := shortest n in
        let digits : string := pretty s in
        let point := (String.length digits + padding)%nat in
        if (point <=? 21)%nat then digits +:+ zeros padding
        else
          let exponent : string := "e+" +:+ pretty (point - 1)%nat in
          match String.rev (Js.drop_while is_zero (String.rev digits)) with
          | EmptyString => digits +:+ exponent
          | String c EmptyString => String c exponent
          | String c fraction => String c ("." +:+ fraction +:+ exponent)
          end
  end.

(** [String(n)] for the number an integer of a payload stands for. *)
Definition string_of_Z (n : Z) : string :=
  if (n <? 0)%Z then "-" +:+ to_string (of_N (Z.abs_N n))
  else to_string (of_N (Z.to_N n)).

End JsNumber.

(* ===================================================================== *)
(** ** Regular expressions: a backtracking matcher

    The fragment of ECMAScript regular expressions the source uses, with
    the language's backtracking order: alternatives left to right, greedy
    quantifiers, capture groups, [\b], [^] and [$].  A pattern is matched
    in continuation-passing style, as [RepeatMatcher] and friends are
    specified. *)
(* ===================================================================== *)

Module Regex.

Inductive regex : Type :=
| Empty
| Char (p : ascii -> bool)
| Seq (r1 r2 : regex)
| Alt (r1 r2 : regex)
| Star (r : regex)
| Group (i : nat) (r : regex)
| WordBoundary
| LineStart
| LineEnd.

Definition Plus (r : regex) : regex := Seq r (Star r).
Definition Opt (r : regex) : regex := Alt r Empty.

Definition char_ci (x : ascii) : regex :=
  Char (fun c => if ascii_dec (Js.canonicalize c) (Js.canonicalize x) then true else false).
Definition char_eq (x : ascii) : regex :=
  Char (fun c => if ascii_dec c x then true else false).

(** A literal word under the [i] flag. *)
Fixpoint lit_ci (s : string) : regex :=
  match s with
  | EmptyString => Empty
  | String c EmptyString => char_ci c
  | String c s' => Seq (char_ci c) (lit_ci s')
  end.

(** The matcher state: the input to the left of the current position
    (reversed), the input to its right, and the captures made so far. *)
Record mstate : Type := MState {
  consumed : string;
  remaining : string;
  captures : list (nat * string)
}.

Definition head_is_word (s : string) : bool :=
  match s with
  | EmptyString => false
  | String c _ => Js.is_word_char c
  end.

(** The text between two states of one match attempt. *)
Definition text_between (st0 st1 : mstate) : string :=
  String.rev
    (substring 0 (String.length (consumed st1) - String.length (consumed st0))
       (consumed st1)).

Fixpoint drop_capture (i : nat) (caps : list (nat * string)) : list (nat * string) :=
  match caps with
  | [] => []
  | (j, txt) :: caps' =>
      if Nat.eqb j i then drop_capture i caps' else (j, txt) :: drop_capture i caps'
  end.

Definition set_capture (i : nat) (txt : string) (st : mstate) : mstate :=
  MState (consumed st) (remaining st) ((i, txt) :: drop_capture i (captures st)).

Fixpoint matcher (r : regex) (st : mstate) (k : mstate -> option mstate)
  {struct r} : option mstate :=
  match r with
  | Empty => k st
  | Char p =>
      match remaining st with
      | String c rest =>
          if p c then k (MState (String c (consumed st)) rest (captures st))
          else None
      | EmptyString => None
      end
  | Seq r1 r2 => matcher r1 st (fun st1 => matcher r2 st1 k)
  | Alt r1 r2 =>
      match matcher r1 st k with
      | Some res => Some res
      | None => matcher r2 st k
      end
  | Star r1 =>
      (fix iterate (fuel : nat) (st : mstate) {struct fuel} : option mstate :=
         match fuel with
         | O => k st
         | S fuel' =>
             match
               matcher r1 st
                 (fun st1 =>
                    if (String.length (remaining st1) <? String.length (remaining st))%nat
                    then iterate fuel' st1 else None)
             with
             | Some res => Some res
             | None => k st
             end
         end) (String.length (remaining st)) st
  | Group i r1 =>
      matcher r1 st (fun st1 => k (set_capture i (text_between st st1) st1))
  | WordBoundary =>
      if xorb (head_is_word (consumed st)) (head_is_word (remaining st))
      then k st else None
  | LineStart =>
      match consumed st with EmptyString => k st | String _ _ => None end
  | LineEnd =>
      match remaining st with EmptyString => k st | String _ _ => None end
  end.

(** One successful match: the input before it, the matched text, the
    input after it and the captures. *)
Record match_result : Type := MatchResult {
  m_before : string;
  m_text : string;
  m_after : string;
  m_groups : list (nat * string)
}.

Fixpoint capture (i : nat) (caps : list (nat * string)) : option string :=
  match caps with
  | [] => None
  | (j, txt) :: caps' => if Nat.eqb j i then Some txt else capture i caps'
  end.

(** [match[i]]: [None] is [undefined], a group that did not take part. *)
Definition group (i : nat) (m : match_result) : option string :=
  capture i (m_groups m).

Definition match_here (r : regex) (before_rev s : string) : option mstate :=
  matcher r (MState before_rev s []) Some.

Definition result_of (before_rev : string) (st : mstate) : match_result :=
  MatchResult (String.rev before_rev)
              (text_between (MState before_rev EmptyString []) st)
              (remaining st) (captures st).

(** [RegExp.prototype.exec] from a given position: the leftmost position at
    which the pattern matches. *)
Fixpoint search (r : regex) (before_rev s : string) : option match_result :=
  match match_here r before_rev s with
  | Some st => Some (result_of before_rev st)
  | None =>
      match s with
      | EmptyString => None
      | String c s' => search r (String c before_rev) s'
      end
  end.

Definition exec (r : regex) (s : string) : option match_result :=
  search r EmptyString s.

(** [r.test(s)] *)
Definition test (r : regex) (s : string) : bool :=
  match exec r s with Some _ => true | None => false end.

(** [s.replace(r, f)] for a pattern without the [g] flag and a replacer
    function of the matched text. *)
Definition replace_first (r : regex) (s : string) (f : string -> string) : string :=
  match exec r s with
  | Some m => m_before m +:+ f (m_text m) +:+ m_after m
  | None => s
  end.

(** [s.matchAll(r)] for a pattern with the [g] flag: successive matches,
    each search resuming where the previous match ended (one code unit
    further after an empty match). *)
Fixpoint match_all_from (fuel : nat) (r : regex) (before_rev s : string)
  : list match_result :=
  match fuel with
  | O => []
  | S fuel' =>
      match search r before_rev s with
      | None => []
      | Some m =>
          let done_rev := String.rev (m_before m +:+ m_text m) in
          m :: match m_text m, m_after m with
               | EmptyString, EmptyString => []
               | EmptyString, String c s' =>
                   match_all_from fuel' r (String c done_rev) s'
               | String _ _, rest => match_all_from fuel' r done_rev rest
               end
      end
  end.

Definition matchAll (r : regex) (s : string) : list match_result :=
  match_all_from (S (String.length s)) r EmptyString s.

End Regex.

(* ===================================================================== *)
(** ** Values, insertion-ordered maps and thrown values *)
(* ===================================================================== *)

(** [ParamValue = string | number | boolean | string[] | number[]] *)
Inductive ParamValue : Type :=
| PString (s : string)
| PNumber (n : Z)
| PBoolean (b : bool)
| PStrings (l : list string)
| PNumbers (l : list Z).

(** A value of type [unknown], as far as result rows and service payloads
    need it.  [VNumber n] is the number value of the integer [n];
    [VObject] covers every object that is neither an array nor callable
    (a nested record, a [Date], ...). *)
Inductive JsValue : Type :=
| VNull
| VUndefined
| VBoolean (b : bool)
| VNumber (n : Z)
| VBigInt (n : Z)
| VString (s : string)
| VSymbol
| VFunction
| VArray (items : list JsValue)
| VObject (fields : list (string * JsValue)).

(** A [Map], or an object whose key order is observable: an association
    list in insertion order, without repeated keys when built by [set]. *)
Module JsMap.
Section JsMap.
Context {V : Type}.

Fixpoint get (k : string) (m : list (string * V)) : option V :=
  match m with
  | [] => None
  | (k', v) :: m' => if String.eqb k' k then Some v else get k m'
  end.

(** [map.set(k, v)] / [obj[k] = v]: an existing key keeps its place. *)
Fixpoint set (k : string) (v : V) (m : list (string * V)) : list (string * V) :=
  match m with
  | [] => [(k, v)]
  | (k', v') :: m' =>
      if String.eqb k' k then (k, v) :: m' else (k', v') :: set k v m'
  end.

Definition keys (m : list (string * V)) : list string := map fst m.

(** [obj[k] = v] for a primitive [v] on an object that inherits from
    [Object.prototype]: the key [__proto__] of an object without an own
    property of that name reaches the inherited setter, which ignores a
    primitive. *)
Definition assign (k : string) (v : V) (m : list (string * V)) : list (string * V) :=
  if String.eqb k "__proto__" && negb (bool_decide (is_Some (get k m))) then m
  else set k v m.

End JsMap.
End JsMap.

(* ===================================================================== *)
(** ** Parameter records

    [ParamRecord = Record<string, ParamValue>]: an ordinary object.  The
    code reads it with [params[key]] and [key in params], which follow
    the prototype chain, lists its own keys, and writes it with
    [params[key] = value]. *)
(* ===================================================================== *)

(** What a record inherits from: [Object.prototype], as every object
    literal does, or the array that an assignment to [__proto__] put in
    its place. *)
Inductive Prototype : Type :=
| ObjectPrototype
| StringArray (items : list string)
| NumberArray (items : list Z).

Record ParamRecord : Type := {
  own : gmap string ParamValue;
  proto : Prototype
}.

(** Something built in that a property can hold: [Object.prototype]
    itself, or the property [key] of [Object.prototype] or of
    [Array.prototype] (a method or the constructor). *)
Inductive Intrinsic : Type :=
| ObjectPrototypeItself
| OfObjectPrototype (key : string)
| OfArrayPrototype (key : string).

(** What reading a property gives, and so what the positional array of
    type [unknown[]] holds. *)
Inductive Property : Type :=
| Value (v : ParamValue)
| BuiltIn (i : Intrinsic)
| Undefined.

Module Obj.

(** The string keys of [Object.prototype] and of [Array.prototype]
    (ECMAScript 2023, as in Node.js 20 and later). *)
Definition object_prototype_keys : list string :=
  ["constructor"; "__defineGetter__"; "__defineSetter__"; "hasOwnProperty";
   "__lookupGetter__"; "__lookupSetter__"; "isPrototypeOf"; "propertyIsEnumerable";
   "toString"; "valueOf"; "__proto__"; "toLocaleString"].

Definition array_prototype_keys : list string :=
  ["length"; "constructor"; "at"; "concat"; "copyWithin"; "fill"; "find";
   "findIndex"; "findLast"; "findLastIndex"; "lastIndexOf"; "pop"; "push";
   "reverse"; "shift"; "unshift"; "slice"; "sort"; "splice"; "includes";
   "indexOf"; "join"; "keys"; "entries"; "values"; "forEach"; "filter"; "flat";
   "flatMap"; "map"; "every"; "some"; "reduce"; "reduceRight"; "toLocaleString";
   "toString"; "toReversed"; "toSorted"; "toSpliced"; "with"].

(** [{}] and an object literal with the given properties. *)
Definition literal (properties : gmap string ParamValue) : ParamRecord :=
  {| own := properties; proto := ObjectPrototype |}.
Definition empty : ParamRecord := literal ∅.

(** [Object.keys(o)].  The order in which a [gmap] lists its keys is not
    JavaScript's, but every use below sorts the keys. *)
Definition keys (o : ParamRecord) : list string := (map_to_list (own o)).*1.

(** The property [k] of an array and of what an array inherits from: an
    element, the length, a property of [Array.prototype] or one of
    [Object.prototype]. *)
Definition array_property (items : list ParamValue) (k : string) : Property :=
  match JsMap.get k (imap (fun i v => (pretty i : string, v)) items) with
  | Some v => Value v
  | None =>
      if String.eqb k "length" then Value (PNumber (Z.of_nat (length items)))
      else if bool_decide (k ∈ array_prototype_keys) then BuiltIn (OfArrayPrototype k)
      else if bool_decide (k ∈ object_prototype_keys) then BuiltIn (OfObjectPrototype k)
      else Undefined
  end.

(** The property [k] as a record with the prototype [p] inherits it.
    [__proto__] is an accessor of [Object.prototype]: read on the record,
    it gives the record's prototype. *)
Definition inherited (p : Prototype) (k : string) : Property :=
  if String.eqb k "__proto__" then
    match p with
    | ObjectPrototype => BuiltIn ObjectPrototypeItself
    | StringArray items => Value (PStrings items)
    | NumberArray items => Value (PNumbers items)
    end
  else
    match p with
    | ObjectPrototype =>
        if bool_decide (k ∈ object_prototype_keys) then BuiltIn (OfObjectPrototype k)
        else Undefined
    | StringArray items => array_property (map PString items) k
    | NumberArray items => array_property (map PNumber items) k
    end.

(** [o[k]] *)
Definition get (o : ParamRecord) (k : string) : Property :=
  match own o !! k with
  | Some v => Value v
  | None => inherited (proto o) k
  end.

(** [k in o].  No property of a record or of what it inherits from holds
    [undefined], so a property is there when reading it gives something. *)
Definition has (o : ParamRecord) (k : string) : bool :=
  match get o k with
  | Undefined => false
  | _ => true
  end.

(** [o[k] = v].  Every inherited property is writable data, so the
    assignment makes or updates an own property, except for
    [__proto__] on a record without an own property of that name: the
    setter of [Object.prototype] makes an object (here: an array) the
    record's prototype and ignores a primitive. *)
Definition set (k : string) (v : ParamValue) (o : ParamRecord) : ParamRecord :=
  if String.eqb k "__proto__" && negb (bool_decide (is_Some (own o !! k))) then
    match v with
    | PStrings items => {| own := own o; proto := StringArray items |}
    | PNumbers items => {| own := own o; proto := NumberArray items |}
    | PString _ | PNumber _ | PBoolean _ => o
    end
  else {| own := <[ k := v ]> (own o); proto := proto o |}.

End Obj.

(** [Record<string, unknown>]: one result row. *)
Abbreviation Row := (list (string * JsValue)).

(** What a [throw] carries: an [Error] object with its message, or any
    other value, kept as the text [String(value)] gives. *)
Inductive Thrown : Type :=
| ErrorObj (message : string)
| ThrownValue (repr : string).

(** [error instanceof Error ? error.message : String(error)] *)
Definition error_text (e : Thrown) : string :=
  match e with
  | ErrorObj message => message
  | ThrownValue repr => repr
  end.

(** [a ?? b] *)
Definition nullish {A : Type} (a b : option A) : option A :=
  match a with Some x => Some x | None => b end.

(** [s ? s : undefined] on an optional string: an absent or empty string
    is falsy. *)
Definition truthy_string (s : option string) : option string :=
  match s with
  | Some x => if Js.truthy x then Some x else None
  | None => None
  end.

(* ===================================================================== *)
(** ** State and exceptions

    [SE S A] is a computation that may read and change a state [S] and
    either returns an [A] or throws.  A throw keeps the state reached so
    far, as a JavaScript exception does. *)
(* ===================================================================== *)

Definition SE (S A : Type) : Type := S -> (Thrown + A) * S.

Definition ret {S A : Type} (a : A) : SE S A := fun s => (inr a, s).

Definition bind {S A B : Type} (m : SE S A) (f : A -> SE S B) : SE S B :=
  fun s =>
    match m s with
    | (inr a, s') => f a s'
    | (inl e, s') => (inl e, s')
    end.

Definition throw {S A : Type} (e : Thrown) : SE S A := fun s => (inl e, s).

(** [try { m } catch (e) { h e }] *)
Definition try_catch {S A : Type} (m : SE S A) (h : Thrown -> SE S A) : SE S A :=
  fun s =>
    match m s with
    | (inr a, s') => (inr a, s')
    | (inl e, s') => h e s'
    end.

(** A pure step that may throw. *)
Definition lift_result {S A : Type} (r : Thrown + A) : SE S A := fun s => (r, s).

Declare Scope se_scope.
Delimit Scope se_scope with se.
Notation "'let*' x ':=' m 'in' k" := (bind m (fun x => k))
  (at level 10, x name, m at level 100, k at level 200, only parsing) : se_scope.
Notation "'let*' ' pat ':=' m 'in' k" :=
  (bind m (fun x => match x with pat => k end))
  (at level 10, pat pattern, m at level 100, k at level 200, only parsing) : se_scope.
Local Open Scope se_scope.

(* ===================================================================== *)
(** ** The database side of the world *)
(* ===================================================================== *)

(** [DatabaseExecutionResult] *)
Record DatabaseExecutionResult : Type := {
  fields : list string;
  rows : list Row
}.

(** [PostgresQueryResult]: [fields] is a list of [{ name }]. *)
Record PostgresQueryResult : Type := {
  pg_rows : list Row;
  pg_fields : list string
}.

(** [QueryParams] of the ClickHouse client, as the adapter fills it. *)
Record ChQueryParams : Type := {
  query : string;
  format : option string;
  query_params : option ParamRecord
}.

(** What a ClickHouse client function may resolve to: a row array, an
    object with a [json()] method (and what that resolves to), or anything
    else. *)
Inductive ChPayload : Type :=
| PayloadArray (rs : list Row)
| PayloadObject (data : option (list Row))
| PayloadOther.

Inductive ChClientResult : Type :=
| ChRows (rs : list Row)
| ChJson (payload : Thrown + ChPayload)
| ChOther.

(** A call that left the SDK towards a database. *)
Inductive DbCall : Type :=
| PgCall (sql : string) (params : option (list Property))
| ChCall (q : ChQueryParams).

Inductive DatabaseDialect : Type := clickhouse | postgres | mysql.

(** The state database code runs in: the outside world and the calls made
    to client functions so far, oldest first. *)
Record DbState (W : Type) : Type := {
  db_world : W;
  db_calls : list DbCall
}.
Arguments db_world {W} _.
Arguments db_calls {W} _.

Abbreviation DbM W := (SE (DbState W)).

Definition PostgresClientFn (W : Type) : Type :=
  string -> option (list Property) -> W -> (Thrown + PostgresQueryResult) * W.

Definition ClickHouseClientFn (W : Type) : Type :=
  ChQueryParams -> W -> (Thrown + ChClientResult) * W.

(** Calling a client function: the call is recorded, then answered by the
    world. *)
Definition call_pg {W : Type} (clientFn : PostgresClientFn W) (sql : string)
    (params : option (list Property)) : DbM W PostgresQueryResult :=
  fun s =>
    let '(r, w) := clientFn sql params (db_world s) in
    (r, {| db_world := w; db_calls := db_calls s ++ [PgCall sql params] |}).

Definition call_ch {W : Type} (clientFn : ClickHouseClientFn W) (q : ChQueryParams)
  : DbM W ChClientResult :=
  fun s =>
    let '(r, w) := clientFn q (db_world s) in
    (r, {| db_world := w; db_calls := db_calls s ++ [ChCall q] |}).

(** The [DatabaseAdapter] interface, as far as the engine uses it. *)
Record DatabaseAdapter (W : Type) : Type := {
  execute : string -> option ParamRecord -> DbM W DatabaseExecutionResult;
  validate : string -> option ParamRecord -> DbM W unit;
  getDialect : DatabaseDialect
}.
Arguments execute {W} _ _ _.
Arguments validate {W} _ _ _.
Arguments getDialect {W} _.

(* ===================================================================== *)
(** ** [src/adapters/postgres.ts] *)
(* ===================================================================== *)

Module Postgres.
Import Regex.

(** [NormalizedTable] *)
Record NormalizedTable : Type := {
  schema : string;
  table : string
}.

Definition tableKey (schema table : string) : string :=
  schema +:+ "." +:+ table.

(** [[a-zA-Z_][a-zA-Z0-9_]*] *)
Definition identifier : regex :=
  Seq (Char Js.is_ident_start) (Star (Char Js.is_word_char)).

(** [/^[A-Za-z_][A-Za-z0-9_]*$/] *)
Definition safeIdentifierPattern : regex :=
  Seq LineStart (Seq identifier LineEnd).

Definition isSafeIdentifier (value : string) : bool :=
  test safeIdentifierPattern value.

(** [parts.pop()]: the last element, if any, and the array without it. *)
Definition pop {A : Type} (l : list A) : option A * list A :=
  (last l, removelast l).

Fixpoint normalize_loop (defaultSchema : string) (tables : list string)
    (seen : gset string) : list NormalizedTable :=
  match tables with
  | [] => []
  | raw :: tables' =>
      if negb (Js.truthy raw) then normalize_loop defaultSchema tables' seen
      else
        let trimmed := Js.trim raw in
        if negb (Js.truthy trimmed) then normalize_loop defaultSchema tables' seen
        else
          let parts := Js.split "." trimmed in
          let '(tbl, parts1) := pop parts in
          let table := default EmptyString tbl in
          let '(sch, _) := pop parts1 in
          let schema := default defaultSchema sch in
          if negb (isSafeIdentifier schema) || negb (isSafeIdentifier table)
          then normalize_loop defaultSchema tables' seen
          else
            let key := tableKey schema table in
            if decide (key ∈ seen) then normalize_loop defaultSchema tables' seen
            else {| schema := schema; table := table |}
                 :: normalize_loop defaultSchema tables' ({[ key ]} ∪ seen)
  end.

Definition normalizeTableFilter (tables : option (list string))
    (defaultSchema : string) : list NormalizedTable :=
  match tables with
  | None | Some [] => []
  | Some ts => normalize_loop defaultSchema ts ∅
  end.

Section Adapter.
Context {W : Type}.

Record PostgresAdapterOptions : Type := {
  opt_database : option string;
  opt_defaultSchema : option string;
  opt_kind : option string;
  opt_allowedTables : option (list string)
}.

Record PostgresAdapter : Type := {
  clientFn : PostgresClientFn W;
  databaseName : string;
  defaultSchema : string;
  kind : string;
  allowedTables : option (list NormalizedTable)
}.

(** The constructor. *)
Definition new (clientFn : PostgresClientFn W) (options : PostgresAdapterOptions)
  : PostgresAdapter :=
  let defaultSchema := default "public" (opt_defaultSchema options) in
  {| clientFn := clientFn;
     databaseName := default "postgres" (opt_database options);
     defaultSchema := defaultSchema;
     kind := default "postgres" (opt_kind options);
     allowedTables :=
       match opt_allowedTables options with
       | Some ts => Some (normalizeTableFilter (Some ts) defaultSchema)
       | None => None
       end |}.

(** The class of the double and the single quote. *)
Definition is_quote (c : ascii) : bool :=
  (Js.code c =? 34) || (Js.code c =? 39).

Definition white_space : regex := Plus (Char Js.is_white_space).

(** [/(?:FROM|JOIN)\s+(?:ONLY\s+)?(?:(ID)\.)?(Q?IDQ?)/gi] where [ID] is
    [[a-zA-Z_][a-zA-Z0-9_]*] and [Q] the class of the double and the
    single quote.  Under the [i] flag the classes match the same code
    units as without it. *)
Definition tablePattern : regex :=
  Seq (Alt (lit_ci "FROM") (lit_ci "JOIN"))
 (Seq white_space
 (Seq (Opt (Seq (lit_ci "ONLY") white_space))
 (Seq (Opt (Seq (Group 1 identifier) (char_eq ".")))
      (Group 2 (Seq (Opt (Char is_quote)) (Seq identifier (Opt (Char is_quote)))))))).

Definition not_allowed_error (name : string) : Thrown :=
  ErrorObj ("Query references table " +:+ Js.dquote +:+ name +:+ Js.dquote
            +:+ " which is not in the allowed tables list").

(** The body of [for (const match of matches)]. *)
Fixpoint check_matches (allowedSet : gset string) (defaultSchema : string)
    (matches : list match_result) : Thrown + unit :=
  match matches with
  | [] => inr ()
  | m :: matches' =>
      let schema := default defaultSchema (group 1 m) in
      match Js.remove_chars is_quote <$> group 2 m with
      | Some table =>
          if Js.truthy table then
            if decide (tableKey schema table ∈ allowedSet)
            then check_matches allowedSet defaultSchema matches'
            else inl (not_allowed_error (schema +:+ "." +:+ table))
          else check_matches allowedSet defaultSchema matches'
      | None => check_matches allowedSet defaultSchema matches'
      end
  end.

Definition allowedSet_of (ts : list NormalizedTable) : gset string :=
  list_to_set (map (fun t => tableKey (schema t) (table t)) ts).

Definition validateQueryTables (a : PostgresAdapter) (sql : string) : Thrown + unit :=
  match allowedTables a with
  | None | Some [] => inr ()
  | Some ts =>
      check_matches (allowedSet_of ts) (defaultSchema a) (matchAll tablePattern sql)
  end.

(** [/^\d+$/] *)
Definition numericKeyPattern : regex :=
  Seq LineStart (Seq (Plus (Char Js.is_digit)) LineEnd).

(** [/^<([a-zA-Z0-9_]+)>$/] *)
Definition placeholderPattern : regex :=
  Seq LineStart
 (Seq (char_eq "<")
 (Seq (Group 1 (Plus (Char Js.is_word_char)))
 (Seq (char_eq ">") LineEnd))).

(** [Object.keys(params)] *)
Definition object_keys (params : ParamRecord) : list string := Obj.keys params.

(** The value of the decimal digits a string starts with. *)
Fixpoint parse_digits (acc : N) (s : string) : N :=
  match s with
  | EmptyString => acc
  | String c s' =>
      if Js.is_digit c then parse_digits (10 * acc + (Js.code c - 48)) s' else acc
  end.

(** [Number.parseInt(s, 10)] on a string that starts with a decimal
    digit, as every argument of it in the source does: the number value
    of its digits. *)
Definition parseInt (s : string) : JsNumber.number :=
  JsNumber.of_N (parse_digits 0 s).

(** The body of the loop over [numericKeys]. *)
Definition numeric_value (params : ParamRecord) (key : JsNumber.number) : Property :=
  let val := Obj.get params (JsNumber.to_string key) in
  match val with
  | Value (PString s) =>
      match exec placeholderPattern s ≫= group 1 with
      | Some namedKey =>
          if Js.truthy namedKey && Obj.has params namedKey
          then Obj.get params namedKey
          else val
      | None => val
      end
  | _ => val
  end.

Definition convertNamedToPositionalParams (params : ParamRecord) : list Property :=
  let numericKeys :=
    merge_sort JsNumber.le
      (map parseInt (List.filter (test numericKeyPattern) (object_keys params))) in
  let namedKeys :=
    merge_sort String.le
      (List.filter (fun k => negb (test numericKeyPattern k)) (object_keys params)) in
  map (numeric_value params) numericKeys ++ map (Obj.get params) namedKeys.

Definition execute (a : PostgresAdapter) (sql : string) (params : option ParamRecord)
  : DbM W DatabaseExecutionResult :=
  let* _ :=
    match allowedTables a with
    | Some _ => lift_result (validateQueryTables a sql)
    | None => ret ()
    end in
  let paramArray := convertNamedToPositionalParams <$> params in
  let* result := call_pg (clientFn a) sql paramArray in
  ret {| fields := pg_fields result; rows := pg_rows result |}.

Definition validate (a : PostgresAdapter) (sql : string) (params : option ParamRecord)
  : DbM W unit :=
  let paramArray := convertNamedToPositionalParams <$> params in
  let* _ := call_pg (clientFn a) ("EXPLAIN " +:+ sql) paramArray in
  ret ().

Definition as_adapter (a : PostgresAdapter) : DatabaseAdapter W :=
  Build_DatabaseAdapter W (execute a) (validate a) postgres.

End Adapter.
Arguments PostgresAdapter : clear implicits.
End Postgres.

(* ===================================================================== *)
(** ** [src/adapters/clickhouse.ts] *)
(* ===================================================================== *)

Module ClickHouse.
Import Regex.

Fixpoint normalize_loop (tables : list string) (seen : gset string) : list string :=
  match tables with
  | [] => []
  | table :: tables' =>
      if negb (Js.truthy table) then normalize_loop tables' seen
      else
        let trimmed := Js.trim table in
        if negb (Js.truthy trimmed) then normalize_loop tables' seen
        else
          let parts := Js.split "." trimmed in
          let tableName := default EmptyString (last parts) in
          if negb (Js.truthy tableName) || bool_decide (tableName ∈ seen)
          then normalize_loop tables' seen
          else tableName :: normalize_loop tables' ({[ tableName ]} ∪ seen)
  end.

Definition normalizeTableFilter (tables : option (list string)) : list string :=
  match tables with
  | None | Some [] => []
  | Some ts => normalize_loop ts ∅
  end.

(** [normalizePayload] *)
Definition normalizePayload (payload : ChPayload) : list Row :=
  match payload with
  | PayloadArray rs => rs
  | PayloadObject (Some rs) => rs
  | PayloadObject None => []
  | PayloadOther => []
  end.

Section Adapter.
Context {W : Type}.

Record ClickHouseAdapterOptions : Type := {
  opt_database : option string;
  opt_defaultFormat : option string;
  opt_kind : option string;
  opt_allowedTables : option (list string)
}.

Record ClickHouseAdapter : Type := {
  clientFn : ClickHouseClientFn W;
  databaseName : string;
  defaultFormat : string;
  kind : string;
  allowedTables : option (list string)
}.

(** The constructor. *)
Definition new (clientFn : ClickHouseClientFn W) (options : ClickHouseAdapterOptions)
  : ClickHouseAdapter :=
  {| clientFn := clientFn;
     databaseName := default "default" (opt_database options);
     defaultFormat := default "JSONEachRow" (opt_defaultFormat options);
     kind := default "clickhouse" (opt_kind options);
     allowedTables :=
       match opt_allowedTables options with
       | Some ts => Some (normalizeTableFilter (Some ts))
       | None => None
       end |}.

(** The class of the double quote, the single quote and the backtick. *)
Definition is_quote (c : ascii) : bool :=
  (Js.code c =? 34) || (Js.code c =? 39) || (Js.code c =? 96).

(** [/(?:FROM|JOIN)\s+(?:FINAL\s+)?(?:(?:ID)\.)?(Q?IDQ?)/gi] where [ID] is
    [[a-zA-Z_][a-zA-Z0-9_]*] and [Q] the class of the two quotes and the
    backtick. *)
Definition tablePattern : regex :=
  Seq (Alt (lit_ci "FROM") (lit_ci "JOIN"))
 (Seq Postgres.white_space
 (Seq (Opt (Seq (lit_ci "FINAL") Postgres.white_space))
 (Seq (Opt (Seq Postgres.identifier (char_eq ".")))
      (Group 1 (Seq (Opt (Char is_quote))
                    (Seq Postgres.identifier (Opt (Char is_quote)))))))).

(** The body of [for (const match of matches)]. *)
Fixpoint check_matches (allowedSet : gset string) (matches : list match_result)
  : Thrown + unit :=
  match matches with
  | [] => inr ()
  | m :: matches' =>
      match Js.remove_chars is_quote <$> group 1 m with
      | Some table =>
          if Js.truthy table then
            if decide (table ∈ allowedSet)
            then check_matches allowedSet matches'
            else inl (Postgres.not_allowed_error table)
          else check_matches allowedSet matches'
      | None => check_matches allowedSet matches'
      end
  end.

Definition validateQueryTables (a : ClickHouseAdapter) (sql : string) : Thrown + unit :=
  match allowedTables a with
  | None | Some [] => inr ()
  | Some ts => check_matches (list_to_set ts) (matchAll tablePattern sql)
  end.

(** [QueryOptions], without the settings no caller in the adapter sets. *)
Record QueryOptions : Type := {
  qo_params : option ParamRecord;
  qo_format : option string
}.

(** [extractRows] *)
Definition extractRows (result : ChClientResult) : DbM W (list Row) :=
  match result with
  | ChRows rs => ret rs
  | ChJson payload =>
      let* payload := lift_result payload in
      ret (normalizePayload payload)
  | ChOther => ret []
  end.

(** The private [query] method. *)
Definition query (a : ClickHouseAdapter) (sql : string) (options : QueryOptions)
  : DbM W (list Row) :=
  let format := default (defaultFormat a) (qo_format options) in
  let params :=
    Build_ChQueryParams sql (Some format) (qo_params options) in
  let* result := call_ch (clientFn a) params in
  extractRows result.

Definition execute (a : ClickHouseAdapter) (sql : string) (params : option ParamRecord)
  : DbM W DatabaseExecutionResult :=
  let* _ :=
    match allowedTables a with
    | Some _ => lift_result (validateQueryTables a sql)
    | None => ret ()
    end in
  let queryOptions := {| qo_params := params; qo_format := Some (defaultFormat a) |} in
  let* rows := query a sql queryOptions in
  let fields :=
    match rows with
    | [] => []
    | row :: _ => JsMap.keys row
    end in
  ret {| fields := fields; rows := rows |}.

Definition validate (a : ClickHouseAdapter) (sql : string) (params : option ParamRecord)
  : DbM W unit :=
  let queryOptions := {| qo_params := params; qo_format := Some (defaultFormat a) |} in
  let* _ := query a ("EXPLAIN " +:+ sql) queryOptions in
  ret ().

Definition as_adapter (a : ClickHouseAdapter) : DatabaseAdapter W :=
  Build_DatabaseAdapter W (execute a) (validate a) clickhouse.

End Adapter.
Arguments ClickHouseAdapter : clear implicits.
End ClickHouse.

(* ===================================================================== *)
(** ** [src/core/query-engine.ts] *)
(* ===================================================================== *)

Module Engine.
Import Regex.

(** [DatabaseMetadata] *)
Record DatabaseMetadata : Type := {
  name : string;
  dialect : DatabaseDialect;
  description : option string;
  tags : option (list string);
  tenantFieldName : option string;
  tenantFieldType : option string;
  enforceTenantIsolation : option bool
}.

(** One generated parameter, [Record<string, unknown>]: the [value] is
    taken at its declared type, the other properties are read dynamically. *)
Record ParamDescriptor : Type := {
  pd_value : option ParamValue;
  pd_name : JsValue;
  pd_placeholder : JsValue;
  pd_position : JsValue
}.

(** [/\bwhere\b/i] *)
Definition wherePattern : regex :=
  Seq WordBoundary (Seq (lit_ci "where") WordBoundary).

Definition tenantPredicate (metadata : DatabaseMetadata) (tenantField tenantId : string)
  : string :=
  match dialect metadata with
  | clickhouse =>
      tenantField +:+ " = {" +:+ tenantField +:+ ":"
        +:+ default "String" (tenantFieldType metadata) +:+ "}"
  | _ => tenantField +:+ " = '" +:+ tenantId +:+ "'"
  end.

(** [ensureTenantIsolation].  The method returns the SQL text and mutates
    [params] in place; the model returns both. *)
Definition ensureTenantIsolation (sql : string) (params : ParamRecord)
    (metadata : DatabaseMetadata) (tenantId : string) : string * ParamRecord :=
  match truthy_string (tenantFieldName metadata), enforceTenantIsolation metadata with
  | None, _ | _, Some false => (sql, params)
  | Some tenantField, _ =>
      let paramKey := tenantField in
      let params := Obj.set paramKey (PString tenantId) params in
      let normalizedSql := Js.toLowerCase sql in
      if Js.includes normalizedSql (Js.toLowerCase tenantField) then (sql, params)
      else
        let tenantPredicate := tenantPredicate metadata tenantField tenantId in
        if test wherePattern sql then
          (replace_first wherePattern sql
             (fun m => m +:+ " " +:+ tenantPredicate +:+ " AND "),
           params)
        else (sql +:+ " WHERE " +:+ tenantPredicate, params)
  end.

(** The class [{}:$]. *)
Definition is_param_decoration (c : ascii) : bool :=
  (Js.code c =? 123) || (Js.code c =? 125) || (Js.code c =? 58) || (Js.code c =? 36).

(** [typeof v === "string" && v.trim()], as a candidate name. *)
Definition trimmed_string (v : JsValue) : option string :=
  match v with
  | VString s => truthy_string (Some (Js.trim s))
  | _ => None
  end.

Definition nameCandidate (param : ParamDescriptor) (index : nat) : string :=
  default (pretty (index + 1)%nat)
    (nullish (trimmed_string (pd_name param))
       (nullish (trimmed_string (pd_placeholder param))
          (match pd_position param with
           | VNumber n => Some (JsNumber.string_of_Z n)
           | _ => None
           end))).

Fixpoint mapGeneratedParams_loop (params : list ParamDescriptor) (index : nat)
    (record : ParamRecord) : ParamRecord :=
  match params with
  | [] => record
  | param :: params' =>
      match pd_value param with
      | None => mapGeneratedParams_loop params' (S index) record
      | Some value =>
          let key := Js.trim (Js.remove_chars is_param_decoration (nameCandidate param index)) in
          mapGeneratedParams_loop params' (S index) (Obj.set key value record)
      end
  end.

Definition mapGeneratedParams (params : list ParamDescriptor) : ParamRecord :=
  mapGeneratedParams_loop params 0%nat Obj.empty.

(** [keys.join(", ")] *)
Fixpoint join (sep : string) (l : list string) : string :=
  match l with
  | [] => EmptyString
  | [x] => x
  | x :: l' => x +:+ sep +:+ join sep l'
  end.

Section Engine.
Context {W : Type}.

(** The fields of a [QueryEngine]; both maps are [Map]s. *)
Record QueryEngine : Type := {
  databases : list (string * DatabaseAdapter W);
  databaseMetadata : list (string * DatabaseMetadata);
  defaultDatabase : option string
}.

(** [new QueryEngine()] *)
Definition empty : QueryEngine :=
  {| databases := []; databaseMetadata := []; defaultDatabase := None |}.

Definition attachDatabase (name : string) (adapter : DatabaseAdapter W)
    (metadata : DatabaseMetadata) (this : QueryEngine) : QueryEngine :=
  {| databases := JsMap.set name adapter (databases this);
     databaseMetadata := JsMap.set name metadata (databaseMetadata this);
     defaultDatabase :=
       match truthy_string (defaultDatabase this) with
       | Some d => Some d
       | None => Some name
       end |}.

Definition getDatabase (this : QueryEngine) (name : option string)
  : Thrown + DatabaseAdapter W :=
  match nullish name (defaultDatabase this) with
  | None => inl (ErrorObj "No database attached.")
  | Some dbName =>
      if negb (Js.truthy dbName) then inl (ErrorObj "No database attached.")
      else
        match JsMap.get dbName (databases this) with
        | Some adapter => inr adapter
        | None =>
            inl (ErrorObj ("Database '" +:+ dbName +:+ "' not found. Attached: "
                           +:+ join ", " (JsMap.keys (databases this))))
        end
  end.

Definition getDatabaseMetadata (this : QueryEngine) (name : option string)
  : option DatabaseMetadata :=
  match nullish name (defaultDatabase this) with
  | None => None
  | Some dbName =>
      if negb (Js.truthy dbName) then None
      else JsMap.get dbName (databaseMetadata this)
  end.

Definition getDefaultDatabase (this : QueryEngine) : option string :=
  defaultDatabase this.

(** [validateAndExecute].  Next to the result, the model returns the
    [params] object as the call leaves it, since the caller keeps using
    the object it passed in. *)
Definition validateAndExecute (this : QueryEngine) (sql : string)
    (params : ParamRecord) (databaseName tenantId : string)
  : DbM W (DatabaseExecutionResult * ParamRecord) :=
  let* adapter := lift_result (getDatabase this (Some databaseName)) in
  let metadata := getDatabaseMetadata this (Some databaseName) in
  let '(finalSql, params) :=
    match metadata with
    | Some metadata => ensureTenantIsolation sql params metadata tenantId
    | None => (sql, params)
    end in
  let* _ := validate adapter finalSql (Some params) in
  let* result := execute adapter finalSql (Some params) in
  ret ({| fields := fields result; rows := rows result |}, params).

(** The engine's own [execute]: a failure is logged and swallowed. *)
Definition execute_local (this : QueryEngine) (sql : string)
    (params : option ParamRecord) (databaseName : option string)
  : DbM W (list Row) :=
  try_catch
    (let* adapter := lift_result (getDatabase this databaseName) in
     let* result := execute adapter sql params in
     ret (rows result))
    (fun _ => ret []).

End Engine.
Arguments QueryEngine : clear implicits.
End Engine.

(* ===================================================================== *)
(** ** [src/routes/query.ts] *)
(* ===================================================================== *)

Module Query.

Inductive ChartType : Type := vega_lite | vizspec.

(** [AskOptions] *)
Record AskOptions : Type := {
  tenantId : option string;
  userId : option string;
  scopes : option (list string);
  database : option string;
  lastError : option string;
  previousSql : option string;
  maxRetry : option Z;
  chartMaxRetries : option Z;
  chartType : option ChartType
}.

Record TenantSettings : Type := {
  ts_tenantFieldName : option string;
  ts_tenantFieldType : option string;
  ts_enforceTenantIsolation : option bool
}.

(** The body posted to [/query]; an absent property is [None]. *)
Record QueryRequest : Type := {
  req_question : string;
  last_error : option string;
  previous_sql : option string;
  max_retry : option Z;
  tenant_settings : option TenantSettings;
  req_database : option string;
  req_dialect : option DatabaseDialect
}.

(** [ServerQueryResponse] *)
Record ServerQueryResponse : Type := {
  success : bool;
  sql : string;
  params : option (list Engine.ParamDescriptor);
  dialect : string;
  res_database : option string;
  table : option string;
  rationale : option string;
  queryId : option string;
  context : option JsValue
}.

(** The body posted to [/chart] and to [/vizspec]. *)
Record ChartRequest : Type := {
  cr_question : string;
  cr_sql : string;
  cr_rationale : option string;
  cr_fields : list string;
  cr_rows : list (list (string * string));
  cr_max_retries : Z;
  cr_query_id : option string
}.

(** [ServerChartResponse] *)
Record ServerChartResponse : Type := {
  chart : option Row;
  chart_notes : option string
}.

(** [ServerVizSpecResponse] *)
Record ServerVizSpecResponse : Type := {
  spec : JsValue;
  spec_notes : option string
}.

(** The arguments of [client.post] after the body.  (The abort signal is
    handed through untouched and left out.) *)
Record CallContext : Type := {
  ctx_tenantId : string;
  ctx_userId : option string;
  ctx_scopes : option (list string);
  ctx_sessionId : string
}.

(** A request that left the SDK towards the service. *)
Inductive PostCall : Type :=
| PostQuery (body : QueryRequest) (ctx : CallContext)
| PostVizspec (body : ChartRequest) (ctx : CallContext)
| PostChart (body : ChartRequest) (ctx : CallContext).

(** [ChartEnvelope]; for [vegaLiteSpec], [Some None] is [null]. *)
Record ChartEnvelope : Type := {
  vegaLiteSpec : option (option Row);
  vizSpec : option JsValue;
  specType : ChartType;
  notes : option string
}.

(** [AskResponse] *)
Record AskResponse : Type := {
  ar_sql : string;
  ar_params : ParamRecord;
  ar_paramMetadata : list Engine.ParamDescriptor;
  ar_rationale : option string;
  ar_dialect : string;
  ar_queryId : option string;
  ar_rows : list Row;
  ar_fields : list string;
  ar_chart : ChartEnvelope;
  ar_context : option JsValue;
  ar_attempts : Z;
  ar_target_db : string
}.

(** [typeof value] *)
Definition typeof (value : JsValue) : string :=
  match value with
  | VUndefined => "undefined"
  | VBoolean _ => "boolean"
  | VNumber _ => "number"
  | VBigInt _ => "bigint"
  | VString _ => "string"
  | VSymbol => "symbol"
  | VFunction => "function"
  | VNull | VArray _ | VObject _ => "object"
  end.

(** The tag the body of the [forEach] over [Object.entries(row)] stores. *)
Definition mask_value (value : JsValue) : string :=
  match value with
  | VNull => "null"
  | VArray _ => "array"
  | _ => typeof value
  end.

(** [masked] starts as [{}] and is filled by [masked[key] = tag]. *)
Definition mask_row (row : Row) : list (string * string) :=
  fold_left (fun masked '(key, value) => JsMap.assign key (mask_value value) masked)
    row [].

Definition anonymizeResults (rows : list Row) : list (list (string * string)) :=
  match rows with
  | [] => []
  | _ => map mask_row rows
  end.

Section Ask.
Context {W : Type}.

(** The state [ask] runs in: the database side, and the requests posted to
    the service so far, oldest first. *)
Record State : Type := {
  st_db : DbState W;
  st_posts : list PostCall
}.

Abbreviation M := (SE State).

Definition lift_db {A : Type} (m : DbM W A) : M A :=
  fun s =>
    let '(r, d) := m (st_db s) in
    (r, {| st_db := d; st_posts := st_posts s |}).

(** The [ApiClient] as [ask] uses it: [post] at each of the three paths,
    answered by the world, and the default tenant id. *)
Record ApiClient : Type := {
  post_query : QueryRequest -> CallContext -> W -> (Thrown + ServerQueryResponse) * W;
  post_vizspec : ChartRequest -> CallContext -> W -> (Thrown + ServerVizSpecResponse) * W;
  post_chart : ChartRequest -> CallContext -> W -> (Thrown + ServerChartResponse) * W;
  getDefaultTenantId : option string
}.

(** Posting: the request is recorded, then answered by the world. *)
Definition post {A : Type} (call : PostCall) (answer : W -> (Thrown + A) * W) : M A :=
  fun s =>
    let '(r, w) := answer (db_world (st_db s)) in
    (r, {| st_db := {| db_world := w; db_calls := db_calls (st_db s) |};
           st_posts := st_posts s ++ [call] |}).

(** [crypto.randomUUID()] *)
Variable randomUUID : W -> string * W.

Definition new_session : M string :=
  fun s =>
    let '(id, w) := randomUUID (db_world (st_db s)) in
    (inr id, {| st_db := {| db_world := w; db_calls := db_calls (st_db s) |};
                st_posts := st_posts s |}).

Definition resolveTenantId (client : ApiClient) (tenantId : option string)
  : Thrown + string :=
  match truthy_string (nullish tenantId (getDefaultTenantId client)) with
  | Some resolved => inr resolved
  | None =>
      inl (ErrorObj
             "tenantId is required. Provide it per request or via defaultTenantId option.")
  end.

Variable client : ApiClient.
Variable queryEngine : Engine.QueryEngine W.
Variable question : string.
Variable options : AskOptions.

(** Step 4 of the loop body: the chart for a successful execution. *)
Definition make_chart (ctx : CallContext) (queryResponse : ServerQueryResponse)
    (execution : DatabaseExecutionResult) : M ChartEnvelope :=
  let rows := rows execution in
  let chartType := default vega_lite (chartType options) in
  match rows with
  | [] =>
      ret {| vegaLiteSpec := None; vizSpec := None; specType := chartType;
             notes := Some "Query returned no rows." |}
  | _ :: _ =>
      let body :=
        {| cr_question := question;
           cr_sql := sql queryResponse;
           cr_rationale := rationale queryResponse;
           cr_fields := fields execution;
           cr_rows := anonymizeResults rows;
           cr_max_retries := default 3%Z (chartMaxRetries options);
           cr_query_id := queryId queryResponse |} in
      match chartType with
      | vizspec =>
          let* vizspecResponse :=
            post (PostVizspec body ctx) (post_vizspec client body ctx) in
          ret {| vegaLiteSpec := None;
                 vizSpec := Some (spec vizspecResponse);
                 specType := vizspec;
                 notes := spec_notes vizspecResponse |}
      | vega_lite =>
          let* chartResponse :=
            post (PostChart body ctx) (post_chart client body ctx) in
          ret {| vegaLiteSpec :=
                   Some (match chart chartResponse with
                         | Some c =>
                             Some (JsMap.set "data"
                                     (VObject [("values", VArray (map VObject rows))]) c)
                         | None => None
                         end);
                 vizSpec := None;
                 specType := vega_lite;
                 notes := chart_notes chartResponse |}
      end
  end.

(** The request of step 1. *)
Definition query_request (lastError previousSql : option string) : QueryRequest :=
  let databaseName := nullish (database options) (Engine.getDefaultDatabase queryEngine) in
  let metadata :=
    match truthy_string databaseName with
    | Some databaseName => Engine.getDatabaseMetadata queryEngine (Some databaseName)
    | None => None
    end in
  let tenantSettings :=
    match metadata with
    | Some metadata =>
        match truthy_string (Engine.tenantFieldName metadata) with
        | Some _ =>
            Some {| ts_tenantFieldName := Engine.tenantFieldName metadata;
                    ts_tenantFieldType := Engine.tenantFieldType metadata;
                    ts_enforceTenantIsolation := Engine.enforceTenantIsolation metadata |}
        | None => None
        end
    | None => None
    end in
  {| req_question := question;
     last_error := truthy_string lastError;
     previous_sql := truthy_string previousSql;
     max_retry :=
       match maxRetry options with
       | Some n => if (n =? 0)%Z then None else Some n
       | None => None
       end;
     tenant_settings := tenantSettings;
     req_database := truthy_string databaseName;
     req_dialect := Engine.dialect <$> metadata |}.

(** The [while (attempt <= maxRetry)] loop.  [fuel] bounds the number of
    iterations; the result is [None] only when it runs out, which
    [Z.to_nat (maxRetry + 1)] never does. *)
Fixpoint ask_loop (fuel : nat) (tenantId sessionId : string) (maxRetry attempt : Z)
    (lastError previousSql : option string) : M (option AskResponse) :=
  if (attempt <=? maxRetry)%Z then
    match fuel with
    | O => ret None
    | S fuel' =>
        let ctx :=
          {| ctx_tenantId := tenantId; ctx_userId := userId options;
             ctx_scopes := scopes options; ctx_sessionId := sessionId |} in
        let body := query_request lastError previousSql in
        let* queryResponse := post (PostQuery body ctx) (post_query client body ctx) in
        match
          truthy_string
            (nullish (res_database queryResponse)
               (nullish (database options) (Engine.getDefaultDatabase queryEngine)))
        with
        | None =>
            throw (ErrorObj
                     "No database attached. Call attachPostgres/attachClickhouse first.")
        | Some dbName =>
            let paramMetadata := default [] (params queryResponse) in
            let paramValues := Engine.mapGeneratedParams paramMetadata in
            try_catch
              (let* '(execution, paramValues) :=
                 lift_db (Engine.validateAndExecute queryEngine (sql queryResponse)
                            paramValues dbName tenantId) in
               let* chart := make_chart ctx queryResponse execution in
               ret (Some
                      {| ar_sql := sql queryResponse;
                         ar_params := paramValues;
                         ar_paramMetadata := paramMetadata;
                         ar_rationale := rationale queryResponse;
                         ar_dialect := dialect queryResponse;
                         ar_queryId := queryId queryResponse;
                         ar_rows := rows execution;
                         ar_fields := fields execution;
                         ar_chart := chart;
                         ar_context := context queryResponse;
                         ar_attempts := (attempt + 1)%Z;
                         ar_target_db := dbName |}))
              (fun error =>
                 let attempt := (attempt + 1)%Z in
                 if (attempt >? maxRetry)%Z then throw error
                 else
                   ask_loop fuel' tenantId sessionId maxRetry attempt
                     (Some (error_text error)) (Some (sql queryResponse)))
        end
    end
  else throw (ErrorObj "Unexpected error in ask retry loop").

Definition ask : M (option AskResponse) :=
  let* tenantId := lift_result (resolveTenantId client (tenantId options)) in
  let* sessionId := new_session in
  let maxRetry := default 0%Z (maxRetry options) in
  ask_loop (Z.to_nat (maxRetry + 1)) tenantId sessionId maxRetry 0
    (lastError options) (previousSql options).

End Ask.
Arguments State : clear implicits.
Arguments ApiClient : clear implicits.
End Query.

(* ===================================================================== *)
(** ** Further string methods *)
(* ===================================================================== *)

Module JsString.

(** [s.endsWith(p)] *)
Definition endsWith (s p : string) : bool :=
  Js.startsWith (String.rev s) (String.rev p).

(** [s.slice(1, -1)] *)
Definition slice_inner (s : string) : string :=
  substring 1 (String.length s - 2) s.

(** [LineTerminator] restricted to code units below 256: LF and CR. *)
Definition is_line_terminator (c : ascii) : bool :=
  (Js.code c =? 10) || (Js.code c =? 13).

End JsString.

(* ===================================================================== *)
(** ** [src/utils/clickhouse.ts] *)
(* ===================================================================== *)

Module TypeUtils.
Import Regex.

(** [.] *)
Definition any_char : regex :=
  Char (fun c => negb (JsString.is_line_terminator c)).
(** [\s*] and [\d+] *)
Definition spaces : regex := Star (Char Js.is_white_space).
Definition digits : regex := Plus (Char Js.is_digit).

(** [/^(Nullable|LowCardinality|SimpleAggregateFunction)\((.+)\)$/i] *)
Definition WRAPPER_REGEX : regex :=
  Seq LineStart
 (Seq (Group 1 (Alt (lit_ci "Nullable")
               (Alt (lit_ci "LowCardinality") (lit_ci "SimpleAggregateFunction"))))
 (Seq (char_eq "(")
 (Seq (Group 2 (Plus any_char))
 (Seq (char_eq ")") LineEnd)))).

(** [/Nullable\s*\(/i] *)
Definition nullablePattern : regex :=
  Seq (lit_ci "Nullable") (Seq spaces (char_eq "(")).

Definition isNullableType (type : string) : bool :=
  test nullablePattern type.

(** The [while (match)] loop of [unwrapTypeModifiers]; [fuel] bounds the
    number of rounds. *)
Fixpoint unwrap_loop (fuel : nat) (current : string) : string :=
  match fuel with
  | O => current
  | S fuel' =>
      match exec WRAPPER_REGEX current with
      | None => current
      | Some m =>
          match truthy_string (group 2 m) with
          | None => current
          | Some inner => unwrap_loop fuel' (Js.trim inner)
          end
      end
  end.

(** Every round drops at least the wrapper's name and its parentheses, so
    the length of the trimmed input bounds the number of rounds. *)
Definition unwrapTypeModifiers (type : string) : string :=
  let current := Js.trim type in
  unwrap_loop (String.length current) current.

(** [/Decimal(?:\d+)?\((\d+)\s*,\s*(\d+)\)/i] *)
Definition decimalPattern : regex :=
  Seq (lit_ci "Decimal")
 (Seq (Opt digits)
 (Seq (char_eq "(")
 (Seq (Group 1 digits)
 (Seq spaces
 (Seq (char_eq ",")
 (Seq spaces
 (Seq (Group 2 digits) (char_eq ")")))))))).

(** The result of [extractPrecisionScale]: both properties or neither. *)
Definition extractPrecisionScale (type : string)
  : option (JsNumber.number * JsNumber.number) :=
  let unwrapped := unwrapTypeModifiers type in
  match exec decimalPattern unwrapped with
  | None => None
  | Some decimalMatch =>
      match truthy_string (group 1 decimalMatch), truthy_string (group 2 decimalMatch) with
      | Some precision, Some scale =>
          Some (Postgres.parseInt precision, Postgres.parseInt scale)
      | _, _ => None
      end
  end.

(** [/^(?:FixedString|StringFixed)\((\d+)\)$/i] *)
Definition fixedStringPattern : regex :=
  Seq LineStart
 (Seq (Alt (lit_ci "FixedString") (lit_ci "StringFixed"))
 (Seq (char_eq "(")
 (Seq (Group 1 digits)
 (Seq (char_eq ")") LineEnd)))).

Definition extractFixedStringLength (type : string) : option JsNumber.number :=
  let unwrapped := unwrapTypeModifiers type in
  match exec fixedStringPattern unwrapped with
  | None => None
  | Some m =>
      match truthy_string (group 1 m) with
      | None => None
      | Some length => Some (Postgres.parseInt length)
      end
  end.

Definition stripQuotes (value : string) : string :=
  if (Js.startsWith value Js.dquote && JsString.endsWith value Js.dquote)
     || (Js.startsWith value Js.squote && JsString.endsWith value Js.squote)
  then JsString.slice_inner value
  else value.

Definition is_backtick (c : ascii) : bool := Js.code c =? 96.

Definition stripWrapper (value : string) : string :=
  let noQuotes := stripQuotes value in
  let withoutTicks := Js.trim (Js.remove_chars is_backtick noQuotes) in
  let parts := Js.split "." withoutTicks in
  match last parts with
  | Some part => Js.trim part
  | None => EmptyString
  end.

(** [/^tuple\s*\(/i] and [/\)$/] *)
Definition tuplePrefix : regex :=
  Seq LineStart (Seq (lit_ci "tuple") (Seq spaces (char_eq "("))).
Definition closingParen : regex := Seq (char_eq ")") LineEnd.

(** [token += ch] *)
Definition push_char (token : string) (ch : ascii) : string :=
  token +:+ String ch EmptyString.

(** [if (col) columns.push(stripWrapper(col))] *)
Definition push_column (columns : list string) (col : string) : list string :=
  if Js.truthy col then columns ++ [stripWrapper col] else columns.

(** The loop [for (const ch of value)] and the two statements after it. *)
Fixpoint scan_columns (value : string) (depth : nat) (token : string)
    (columns : list string) : list string :=
  match value with
  | EmptyString => push_column columns (Js.trim token)
  | String ch value' =>
      if ascii_dec ch "(" then
        scan_columns value' (depth + 1) (push_char token ch) columns
      else if ascii_dec ch ")" then
        scan_columns value' (Nat.max 0 (depth - 1)) (push_char token ch) columns
      else if (if ascii_dec ch "," then true else false) && (depth =? 0)%nat then
        scan_columns value' depth EmptyString (push_column columns (Js.trim token))
      else scan_columns value' depth (push_char token ch) columns
  end.

Definition parseKeyExpression (expression : option string) : list string :=
  match truthy_string expression with
  | None => []
  | Some expression =>
      let value := Js.trim expression in
      if negb (Js.truthy value) then []
      else
        let value :=
          if test tuplePrefix value && JsString.endsWith value ")"
          then replace_first closingParen
                 (replace_first tuplePrefix value (fun _ => EmptyString))
                 (fun _ => EmptyString)
          else value in
        List.filter Js.truthy (scan_columns value 0 EmptyString [])
  end.

End TypeUtils.

(* ===================================================================== *)
(** ** [src/adapters/postgres.ts]: the helpers of introspection *)
(* ===================================================================== *)

Module PostgresCatalog.

(** [buildFilterClause] *)
Definition buildFilterClause (tables : list Postgres.NormalizedTable)
    (schemaExpr tableExpr : string) : string :=
  match tables with
  | [] => EmptyString
  | _ =>
      let clauses :=
        map (fun t =>
               "(" +:+ schemaExpr +:+ " = '" +:+ Postgres.schema t +:+ "' AND "
               +:+ tableExpr +:+ " = '" +:+ Postgres.table t +:+ "')")
            tables in
      "AND (" +:+ Engine.join " OR " clauses +:+ ")"
  end.

(** [asTableType] *)
Definition asTableType (value : string) : string :=
  let normalized := Js.toLowerCase value in
  if Js.includes normalized "view" then
    if Js.includes normalized "materialized" then "materialized_view" else "view"
  else "table".

(** [sanitize] on a value that is a string, [null] or [undefined]. *)
Definition sanitize (value : option string) : option string :=
  match value with
  | None => None
  | Some value =>
      let trimmed := Js.trim value in
      if (0 <? String.length trimmed)%nat then Some trimmed else None
  end.

End PostgresCatalog.

(* ===================================================================== *)
(** ** [src/index.ts]: attaching databases to the SDK *)
(* ===================================================================== *)

Module Sdk.
Section Sdk.
Context {W : Type}.





Definition attachDatabase (name : string) (adapter : DatabaseAdapter W)
    (queryEngine : Engine.QueryEngine W) : Engine.QueryEngine W :=
  Engine.attachDatabase name adapter
    {| Engine.name := name; Engine.dialect := getDialect adapter;
       Engine.description := None; Engine.tags := None;
       Engine.tenantFieldName := None; Engine.tenantFieldType := None;
       Engine.enforceTenantIsolation := None |}
    queryEngine.

End Sdk.
End Sdk.

(* ===================================================================== *)
(** * Vocabulary of the statements

    The notions the properties below are stated with, and the concrete
    adapters, engines and services their examples run on. *)
(* ===================================================================== *)

(** ** Regular expressions *)

(** [st1] is [st] moved forward over the text [t] of the same input. *)
Definition forward (st st1 : Regex.mstate) (t : string) : Prop :=
  Regex.consumed st1 = String.rev_app t (Regex.consumed st)
  /\ Regex.remaining st = t +:+ Regex.remaining st1.

(** The iteration of [r*] with a given bound on the number of rounds. *)
Fixpoint star_loop (r : Regex.regex) (k : Regex.mstate -> option Regex.mstate)
    (fuel : nat) (st : Regex.mstate) : option Regex.mstate :=
  match fuel with
  | O => k st
  | S fuel' =>
      match
        Regex.matcher r st
          (fun st1 =>
             if (String.length (Regex.remaining st1)
                 <? String.length (Regex.remaining st))%nat
             then star_loop r k fuel' st1 else None)
      with
      | Some res => Some res
      | None => k st
      end
  end.

(** ** anonymizeResults *)

(** The five tags the specification lists. *)
Definition coarse_tags : list string :=
  ["number"; "string"; "boolean"; "array"; "null"].

(** The tags [typeof] adds for the other values a row can hold. *)
Definition other_tags : list string :=
  ["object"; "undefined"; "bigint"; "symbol"; "function"].

(** The tag of a value, kind by kind. *)
Inductive type_tag : JsValue -> string -> Prop :=
| tag_null : type_tag VNull "null"
| tag_array items : type_tag (VArray items) "array"
| tag_number n : type_tag (VNumber n) "number"
| tag_string s : type_tag (VString s) "string"
| tag_boolean b : type_tag (VBoolean b) "boolean"
| tag_object fields : type_tag (VObject fields) "object"
| tag_undefined : type_tag VUndefined "undefined"
| tag_bigint n : type_tag (VBigInt n) "bigint"
| tag_symbol : type_tag VSymbol "symbol"
| tag_function : type_tag VFunction "function".

(** The entries of a row that reach the masked row: all but one under
    the key [__proto__]. *)
Definition kept_key (key : string) : bool := negb (String.eqb key "__proto__").
Definition kept_entries (row : Row) : Row := List.filter (fun kv => kept_key kv.1) row.

(** The values the five tags describe. *)
Definition plain (value : JsValue) : Prop :=
  match value with
  | VNumber _ | VString _ | VBoolean _ | VArray _ | VNull => True
  | _ => False
  end.

Definition sample_rows : list Row :=
  [[("id", VNumber 123); ("name", VString "Alice"); ("active", VBoolean true);
    ("tags", VArray [VString "admin"]); ("note", VNull)]].

(** ** The registry of attached databases *)

(** One [attachDatabase] call. *)
Definition attachment (W : Type) : Type :=
  string * DatabaseAdapter W * Engine.DatabaseMetadata.

Definition attachment_name {W : Type} (op : attachment W) : string := op.1.1.

(** A sequence of [attachDatabase] calls, in order. *)
Definition attach_all {W : Type} (ops : list (attachment W))
    (this : Engine.QueryEngine W) : Engine.QueryEngine W :=
  fold_left
    (fun this '(name, adapter, metadata) =>
       Engine.attachDatabase name adapter metadata this)
    ops this.

(** An adapter that answers every call with no rows. *)
Definition idle_adapter (d : DatabaseDialect) : DatabaseAdapter unit :=
  {| execute := fun _ _ => ret {| fields := []; rows := [] |};
     validate := fun _ _ => ret ();
     getDialect := d |}.

Definition plain_metadata (n : string) (d : DatabaseDialect) : Engine.DatabaseMetadata :=
  {| Engine.name := n; Engine.dialect := d; Engine.description := None;
     Engine.tags := None; Engine.tenantFieldName := None;
     Engine.tenantFieldType := None; Engine.enforceTenantIsolation := None |}.

(** ** Adapters and statements of the test suites *)

Definition pg_options (allowed : option (list string)) : Postgres.PostgresAdapterOptions :=
  {| Postgres.opt_database := None; Postgres.opt_defaultSchema := None;
     Postgres.opt_kind := None; Postgres.opt_allowedTables := allowed |}.

Definition ch_options (allowed : option (list string))
  : ClickHouse.ClickHouseAdapterOptions :=
  {| ClickHouse.opt_database := None; ClickHouse.opt_defaultFormat := None;
     ClickHouse.opt_kind := None; ClickHouse.opt_allowedTables := allowed |}.

(** The statement of the test "should not confuse EXTRACT with MONTH FROM
    with table FROM clause". *)
Definition extract_month_sql : string :=
  "SELECT EXTRACT(MONTH FROM created_at) AS month, SUM(amount)" +:+ Js.newline
  +:+ "FROM sales" +:+ Js.newline +:+ "GROUP BY month".

(** A database scoped by the column [tenant_id]. *)
Definition tenant_metadata (d : DatabaseDialect) : Engine.DatabaseMetadata :=
  {| Engine.name := "test-db"; Engine.dialect := d; Engine.description := None;
     Engine.tags := None; Engine.tenantFieldName := Some "tenant_id";
     Engine.tenantFieldType := Some "String";
     Engine.enforceTenantIsolation := Some true |}.

(** ** Positional parameters *)

(** A value with a placeholder [<name>] replaced by the property [name]
    of the record, when the record has one. *)
Definition placeholder_resolved (params : ParamRecord) (val : Property) : Property :=
  match val with
  | Value (PString s) =>
      match Regex.exec Postgres.placeholderPattern s ≫= Regex.group 1 with
      | Some namedKey =>
          match Obj.get params namedKey with
          | Undefined => val
          | found => if Js.truthy namedKey then found else val
          end
      | None => val
      end
  | _ => val
  end.

(** The purely-numeric keys of a record, and the others. *)
Definition numeric_keys (params : ParamRecord) : list string :=
  List.filter (Regex.test Postgres.numericKeyPattern) (Postgres.object_keys params).

Definition named_keys (params : ParamRecord) : list string :=
  List.filter (fun k => negb (Regex.test Postgres.numericKeyPattern k))
    (Postgres.object_keys params).

(** Every numeric key is what [String] prints of its number: no leading
    zero, and no digits a double cannot hold. *)
Definition canonical_numeric_keys (params : ParamRecord) : Prop :=
  forall k, In k (numeric_keys params) -> JsNumber.to_string (Postgres.parseInt k) = k.

(** ** Allow-list validation *)


(** The table references the relational [validateQueryTables] extracts, in
    the order of the matches: schema (the default schema when the match
    has none) and table name without its quotes. *)
Definition pg_reference (defaultSchema : string) (m : Regex.match_result)
  : option (string * string) :=
  match Js.remove_chars Postgres.is_quote <$> Regex.group 2 m with
  | Some table =>
      if Js.truthy table
      then Some (default defaultSchema (Regex.group 1 m), table) else None
  | None => None
  end.

Definition pg_references (defaultSchema sql : string) : list (string * string) :=
  omap (pg_reference defaultSchema) (Regex.matchAll Postgres.tablePattern sql).

Definition pg_allowed (ts : list Postgres.NormalizedTable) (ref : string * string)
  : Prop :=
  Postgres.tableKey ref.1 ref.2 ∈ Postgres.allowedSet_of ts.


(** The (bare) table names the columnar [validateQueryTables] extracts. *)
Definition ch_reference (m : Regex.match_result) : option string :=
  match Js.remove_chars ClickHouse.is_quote <$> Regex.group 1 m with
  | Some table => if Js.truthy table then Some table else None
  | None => None
  end.

Definition ch_references (sql : string) : list string :=
  omap ch_reference (Regex.matchAll ClickHouse.tablePattern sql).

Definition ch_allowed (ts : list string) (ref : string) : Prop :=
  ref ∈ (list_to_set ts : gset string).


(** ** The order of the steps of one execution *)

(** The SQL text and the parameter mapping [validateAndExecute] hands to
    the adapter. *)
Definition rewritten {W : Type} (this : Engine.QueryEngine W) (sql : string)
    (params : ParamRecord) (databaseName tenantId : string) : string * ParamRecord :=
  match Engine.getDatabaseMetadata this (Some databaseName) with
  | Some metadata => Engine.ensureTenantIsolation sql params metadata tenantId
  | None => (sql, params)
  end.

(** What [extractRows] makes of a client answer: the rows, or the error
    of a rejected [json()]. *)
Definition ch_extracted (result : ChClientResult) : Thrown + list Row :=
  match result with
  | ChRows rs => inr rs
  | ChJson (inl e) => inl e
  | ChJson (inr payload) => inr (ClickHouse.normalizePayload payload)
  | ChOther => inr []
  end.

(** The calls of one execution on a relational adapter, given the text
    and the parameters handed to it: the dry-run is sent first; when it
    succeeds the allow-list is consulted; when that passes too the
    statement itself is sent. *)
Definition relational_order {W : Type} (a : Postgres.PostgresAdapter W)
    (finalSql : string) (params : ParamRecord) (s : DbState W)
    (out : (Thrown + (DatabaseExecutionResult * ParamRecord)) * DbState W) : Prop :=
  let bound := Some (Postgres.convertNamedToPositionalParams params) in
  let dry_run := PgCall ("EXPLAIN " +:+ finalSql) bound in
  match Postgres.clientFn a ("EXPLAIN " +:+ finalSql) bound (db_world s) with
  | (inl e, w) =>
      out = (inl e, {| db_world := w; db_calls := db_calls s ++ [dry_run] |})
  | (inr _, w) =>
      match Postgres.validateQueryTables a finalSql with
      | inl e =>
          out = (inl e, {| db_world := w; db_calls := db_calls s ++ [dry_run] |})
      | inr _ =>
          db_calls out.2 = db_calls s ++ [dry_run; PgCall finalSql bound]
      end
  end.

(** The same on a columnar adapter, whose dry-run can also fail when its
    answer is read. *)
Definition columnar_order {W : Type} (a : ClickHouse.ClickHouseAdapter W)
    (finalSql : string) (params : ParamRecord) (s : DbState W)
    (out : (Thrown + (DatabaseExecutionResult * ParamRecord)) * DbState W) : Prop :=
  let request (text : string) :=
    Build_ChQueryParams text (Some (ClickHouse.defaultFormat a)) (Some params) in
  let dry_run := ChCall (request ("EXPLAIN " +:+ finalSql)) in
  match ClickHouse.clientFn a (request ("EXPLAIN " +:+ finalSql)) (db_world s) with
  | (inl e, w) =>
      out = (inl e, {| db_world := w; db_calls := db_calls s ++ [dry_run] |})
  | (inr answer, w) =>
      match ch_extracted answer, ClickHouse.validateQueryTables a finalSql with
      | inl e, _ | inr _, inl e =>
          out = (inl e, {| db_world := w; db_calls := db_calls s ++ [dry_run] |})
      | inr _, inr _ =>
          db_calls out.2 = db_calls s ++ [dry_run; ChCall (request finalSql)]
      end
  end.

(** An engine with one relational database restricted to [public.users]
    and scoped by [tenant_id]; its client function answers every call. *)
Definition users_only : Postgres.PostgresAdapter unit :=
  Postgres.new (fun _ _ w => (inr {| pg_rows := []; pg_fields := ["id"] |}, w))
    (pg_options (Some ["public.users"])).

Definition users_engine : Engine.QueryEngine unit :=
  Engine.attachDatabase "test-db" (Postgres.as_adapter users_only)
    (tenant_metadata postgres) Engine.empty.

Definition no_calls : DbState unit := {| db_world := (); db_calls := [] |}.

(** An engine with one columnar database scoped by [tenant_id], whose
    client function answers every call with no rows. *)
Definition columnar_users : ClickHouse.ClickHouseAdapter unit :=
  ClickHouse.new (fun _ w => (inr (ChRows []), w)) (ch_options None).

Definition columnar_engine : Engine.QueryEngine unit :=
  Engine.attachDatabase "test-db" (ClickHouse.as_adapter columnar_users)
    (tenant_metadata clickhouse) Engine.empty.

(** ** Tenant isolation *)

(** An occurrence of the keyword [WHERE], in any letter case, starting at
    the current position of a scan: [rev_before] is the text to its left,
    reversed, [s] the text from the keyword on. *)
Definition keyword_here (rev_before s w after : string) : Prop :=
  s = w +:+ after
  /\ Js.toLowerCase w = "where"
  /\ Regex.head_is_word rev_before = false
  /\ Regex.head_is_word after = false.

(** The text ends in a word character. *)
Definition ends_with_word (s : string) : bool := Regex.head_is_word (String.rev s).

(** [w] is the keyword [WHERE] between [before] and [after]: the letters
    of "where" in any case, with no word character right before or right
    after. *)
Definition keyword_where (before w after : string) : Prop :=
  Js.toLowerCase w = "where"
  /\ ends_with_word before = false
  /\ Regex.head_is_word after = false.

Definition contains_where (sql : string) : Prop :=
  exists before w after, sql = before +:+ w +:+ after /\ keyword_where before w after.

(** The leftmost occurrence of the keyword. *)
Definition first_where (sql before w after : string) : Prop :=
  sql = before +:+ w +:+ after
  /\ keyword_where before w after
  /\ forall before' w' after',
       sql = before' +:+ w' +:+ after' -> keyword_where before' w' after' ->
       (String.length before <= String.length before')%nat.

Definition scoped_users : Engine.DatabaseMetadata :=
  {| Engine.name := "test-db"; Engine.dialect := postgres; Engine.description := None;
     Engine.tags := None; Engine.tenantFieldName := Some "tenant_id";
     Engine.tenantFieldType := None; Engine.enforceTenantIsolation := Some true |}.

(** ** The retry loop of [ask] *)

(** One failed attempt: the request posted to [/query], the answer, and
    what the execution of the answer's SQL threw. *)
Record attempt : Type := {
  att_request : Query.QueryRequest;
  att_response : Query.ServerQueryResponse;
  att_error : Thrown
}.




Section RetryVocabulary.
Context {W : Type}.
Variable client : Query.ApiClient W.
Variable queryEngine : Engine.QueryEngine W.
Variable options : Query.AskOptions.

(** The database an answer is executed on. *)
Definition target_db (response : Query.ServerQueryResponse) : option string :=
  truthy_string
    (nullish (Query.res_database response)
       (nullish (Query.database options) (Engine.getDefaultDatabase queryEngine))).





End RetryVocabulary.

(** A service that keeps answering with the same statement, and an engine
    whose only database refuses every statement at validation. *)
Definition persistent_response : Query.ServerQueryResponse :=
  {| Query.success := true; Query.sql := "INVALID SQL"; Query.params := Some [];
     Query.dialect := "postgres"; Query.res_database := Some "default-db";
     Query.table := None; Query.rationale := None; Query.queryId := None;
     Query.context := None |}.

Definition persistent_client : Query.ApiClient unit :=
  {| Query.post_query := fun _ _ w => (inr persistent_response, w);
     Query.post_vizspec := fun _ _ w => (inl (ErrorObj "unreachable"), w);
     Query.post_chart := fun _ _ w => (inl (ErrorObj "unreachable"), w);
     Query.getDefaultTenantId := Some "default-tenant" |}.

Definition refusing_adapter : DatabaseAdapter unit :=
  {| execute := fun _ _ => ret {| fields := []; rows := [] |};
     validate := fun _ _ => throw (ErrorObj "Persistent error");
     getDialect := postgres |}.

Definition refusing_engine : Engine.QueryEngine unit :=
  Engine.attachDatabase "default-db" refusing_adapter
    (plain_metadata "default-db" postgres) Engine.empty.

Definition two_retries : Query.AskOptions :=
  {| Query.tenantId := Some "tenant-1"; Query.userId := None; Query.scopes := None;
     Query.database := None; Query.lastError := None; Query.previousSql := None;
     Query.maxRetry := Some 2%Z; Query.chartMaxRetries := None;
     Query.chartType := None |}.

Definition fixed_session : unit -> string * unit := fun w => ("session", w).

Definition fresh : Query.State unit :=
  {| Query.st_db := {| db_world := (); db_calls := [] |}; Query.st_posts := [] |}.

(** ** The requests of one run of [ask] *)

Definition post_ctx (call : Query.PostCall) : Query.CallContext :=
  match call with
  | Query.PostQuery _ ctx | Query.PostVizspec _ ctx | Query.PostChart _ ctx => ctx
  end.

Definition is_query_post (call : Query.PostCall) : bool :=
  match call with Query.PostQuery _ _ => true | _ => false end.

(** The number of requests to [/query] in a trace. *)
Definition query_posts (calls : list Query.PostCall) : nat :=
  length (List.filter is_query_post calls).

(** The body of a request to [/chart] or [/vizspec]. *)
Definition chart_body (call : Query.PostCall) : option Query.ChartRequest :=
  match call with
  | Query.PostQuery _ _ => None
  | Query.PostVizspec body _ | Query.PostChart body _ => Some body
  end.

(** Every cell of the rows of a chart request is the name of a type. *)
Definition tags_only (body : Query.ChartRequest) : Prop :=
  Forall (fun row => Forall (fun kv => In kv.2 (coarse_tags ++ other_tags)) row)
    (Query.cr_rows body).

(** The envelope of a result without rows. *)
Definition no_rows_chart (options : Query.AskOptions) : Query.ChartEnvelope :=
  {| Query.vegaLiteSpec := None; Query.vizSpec := None;
     Query.specType := default Query.vega_lite (Query.chartType options);
     Query.notes := Some "Query returned no rows." |}.

(** The envelope [ask] makes of the answer to a chart request. *)
Definition chart_from {W : Type} (client : Query.ApiClient W) (rows : list Row)
    (call : Query.PostCall) (envelope : Query.ChartEnvelope) : Prop :=
  match call with
  | Query.PostQuery _ _ => False
  | Query.PostChart body ctx =>
      exists w w' answer,
        Query.post_chart client body ctx w = (inr answer, w')
        /\ envelope
           = {| Query.vegaLiteSpec :=
                  Some (match Query.chart answer with
                        | Some c =>
                            Some (JsMap.set "data"
                                    (VObject [("values", VArray (map VObject rows))]) c)
                        | None => None
                        end);
                Query.vizSpec := None;
                Query.specType := Query.vega_lite;
                Query.notes := Query.chart_notes answer |}
  | Query.PostVizspec body ctx =>
      exists w w' answer,
        Query.post_vizspec client body ctx w = (inr answer, w')
        /\ envelope
           = {| Query.vegaLiteSpec := None;
                Query.vizSpec := Some (Query.spec answer);
                Query.specType := Query.vizspec;
                Query.notes := Query.spec_notes answer |}
  end.

(** How a response [r] relates to the requests [new] of the run that
    returned it: the last [/query] request was answered by the statement
    the response carries, whose parameters are those the engine left after
    its rewrite; a result without rows ends the run there, any other
    result is followed by one chart request made from it, whose answer
    the response carries. *)
Definition answered {W : Type} (client : Query.ApiClient W)
    (queryEngine : Engine.QueryEngine W) (options : Query.AskOptions)
    (tenantId : string) (new : list Query.PostCall) (r : Query.AskResponse) : Prop :=
  exists earlier body ctx response w w' tail,
    new = earlier ++ Query.PostQuery body ctx :: tail
    /\ Query.post_query client body ctx w = (inr response, w')
    /\ target_db queryEngine options response = Some (Query.ar_target_db r)
    /\ Query.ar_sql r = Query.sql response
    /\ Query.ar_paramMetadata r = default [] (Query.params response)
    /\ Query.ar_params r
       = (rewritten queryEngine (Query.sql response)
            (Engine.mapGeneratedParams (default [] (Query.params response)))
            (Query.ar_target_db r) tenantId).2
    /\ match Query.ar_rows r with
       | [] => tail = [] /\ Query.ar_chart r = no_rows_chart options
       | _ :: _ =>
           exists call chart,
             tail = [call]
             /\ chart_body call = Some chart
             /\ Query.cr_rows chart = Query.anonymizeResults (Query.ar_rows r)
             /\ Query.cr_fields chart = Query.ar_fields r
             /\ Query.cr_sql chart = Query.ar_sql r
             /\ chart_from client (Query.ar_rows r) call (Query.ar_chart r)
       end.

(** The facts about a run of the retry loop that started at [attempt] in
    the state [s]: what it posted and for whom, how often, and what a
    response says about it. *)
Definition run_facts {W : Type} (client : Query.ApiClient W)
    (queryEngine : Engine.QueryEngine W) (options : Query.AskOptions)
    (ctx : Query.CallContext) (maxRetry attempt : Z) (s : Query.State W)
    (out : (Thrown + option Query.AskResponse) * Query.State W) : Prop :=
  exists new,
    Query.st_posts out.2 = Query.st_posts s ++ new
    /\ Forall (fun call => post_ctx call = ctx) new
    /\ Forall (fun call => forall chart, chart_body call = Some chart -> tags_only chart)
         new
    /\ (Z.of_nat (query_posts new) <= Z.max 0 (maxRetry - attempt + 1))%Z
    /\ (length new <= 2 * query_posts new)%nat
    /\ forall r, out.1 = inr (Some r) ->
         Query.ar_attempts r = (attempt + Z.of_nat (query_posts new))%Z
         /\ answered client queryEngine options (Query.ctx_tenantId ctx) new r.

(** A service that answers with a statement on the table [users] of the
    database [test-db], and whose chart endpoints fail. *)
Definition users_response : Query.ServerQueryResponse :=
  {| Query.success := true; Query.sql := "SELECT * FROM users"; Query.params := None;
     Query.dialect := "postgres"; Query.res_database := Some "test-db";
     Query.table := None; Query.rationale := None; Query.queryId := None;
     Query.context := None |}.

Definition users_client : Query.ApiClient unit :=
  {| Query.post_query := fun _ _ w => (inr users_response, w);
     Query.post_vizspec := fun _ _ w => (inl (ErrorObj "chart service down"), w);
     Query.post_chart := fun _ _ w => (inl (ErrorObj "chart service down"), w);
     Query.getDefaultTenantId := None |}.

(** A service that cannot be reached. *)
Definition unreachable_client : Query.ApiClient unit :=
  {| Query.post_query := fun _ _ w => (inl (ErrorObj "fetch failed"), w);
     Query.post_vizspec := fun _ _ w => (inl (ErrorObj "fetch failed"), w);
     Query.post_chart := fun _ _ w => (inl (ErrorObj "fetch failed"), w);
     Query.getDefaultTenantId := Some "default-tenant" |}.

(** Options whose tenant id is the empty string. *)
Definition empty_tenant : Query.AskOptions :=
  {| Query.tenantId := Some EmptyString; Query.userId := None; Query.scopes := None;
     Query.database := None; Query.lastError := None; Query.previousSql := None;
     Query.maxRetry := Some 2%Z; Query.chartMaxRetries := None;
     Query.chartType := None |}.

(** ** Strings and character classes *)

(** Every code unit of [s] is in the class [p]. *)
Fixpoint all_chars (p : ascii -> bool) (s : string) : bool :=
  match s with
  | EmptyString => true
  | String c s' => p c && all_chars p s'
  end.

(** [s] neither starts nor ends with white space. *)
Definition no_outer_space (s : string) : Prop :=
  Js.drop_while Js.is_white_space s = s
  /\ Js.drop_while Js.is_white_space (String.rev s) = String.rev s.

Definition not_space (c : ascii) : bool := negb (Js.is_white_space c).
Definition not_char (x : ascii) (c : ascii) : bool :=
  if ascii_dec c x then false else true.

(** The iteration of [[p]*] for a character class, written by recursion
    on the input: the longest run first, then shorter ones. *)
Fixpoint class_star (p : ascii -> bool) (k : Regex.mstate -> option Regex.mstate)
    (s consumed : string) (caps : list (nat * string)) : option Regex.mstate :=
  match s with
  | EmptyString => k (Regex.MState consumed s caps)
  | String c rest =>
      if p c then
        match class_star p k rest (String c consumed) caps with
        | Some res => Some res
        | None => k (Regex.MState consumed s caps)
        end
      else k (Regex.MState consumed s caps)
  end.

(** An identifier: a letter or an underscore, then letters, digits and
    underscores. *)
Definition is_identifier (s : string) : Prop :=
  exists c rest,
    s = String c rest /\ Js.is_ident_start c = true
    /\ all_chars Js.is_word_char rest = true.

(** The number of occurrences of a code unit. *)
Fixpoint count_char (x : ascii) (s : string) : nat :=
  match s with
  | EmptyString => 0
  | String c s' => (if ascii_dec c x then 1 else 0) + count_char x s'
  end.

(** ** Table filters *)

Definition pg_key (t : Postgres.NormalizedTable) : string :=
  Postgres.tableKey (Postgres.schema t) (Postgres.table t).

(** Both names of an entry are identifiers. *)
Definition pg_safe (t : Postgres.NormalizedTable) : Prop :=
  is_identifier (Postgres.schema t) /\ is_identifier (Postgres.table t).





(** ** Placeholders *)

(** [s] is the placeholder [<name>] of a non-empty name made of letters,
    digits and underscores. *)
Definition is_placeholder (s name : string) : Prop :=
  s = "<" +:+ name +:+ ">" /\ name <> EmptyString
  /\ all_chars Js.is_word_char name = true.

(** ** Type wrappers *)

(** [w] spells [lit] in some letter case. *)
Fixpoint same_ci (w lit : string) : bool :=
  match w, lit with
  | EmptyString, EmptyString => true
  | String c w', String x lit' =>
      (if ascii_dec (Js.canonicalize c) (Js.canonicalize x) then true else false)
      && same_ci w' lit'
  | _, _ => false
  end.

(** The name of one of the three type wrappers, in any letter case. *)
Definition wrapper_name (w : string) : bool :=
  same_ci w "Nullable" || same_ci w "LowCardinality"
  || same_ci w "SimpleAggregateFunction".

Definition not_terminator (c : ascii) : bool := negb (JsString.is_line_terminator c).

(** [w(inner)] for a wrapper name and a non-empty text on one line. *)
Definition is_wrapped (s w inner : string) : Prop :=
  s = w +:+ "(" +:+ inner +:+ ")"
  /\ wrapper_name w = true /\ inner <> EmptyString
  /\ all_chars not_terminator inner = true.

(** [\(([p]+)\)$] with the group numbered [i]: what follows the name in
    [WRAPPER_REGEX] and in the pattern of [extractFixedStringLength]. *)
Definition parenthesized (i : nat) (p : ascii -> bool) : Regex.regex :=
  Regex.Seq (Regex.char_eq "(")
    (Regex.Seq (Regex.Group i (Regex.Plus (Regex.Char p)))
       (Regex.Seq (Regex.char_eq ")") Regex.LineEnd)).

(** ** Key expressions *)

(** A column name as [parseKeyExpression] returns it: not empty, no white
    space at its ends, no dot and no backtick. *)
Definition bare_name (col : string) : Prop :=
  no_outer_space col
  /\ all_chars (not_char ".") col = true
  /\ all_chars (not_char "`") col = true.

(** ** Generated parameters *)

(** The key [mapGeneratedParams] files the value of the descriptor at
    [index] under. *)
Definition param_key (param : Engine.ParamDescriptor) (index : nat) : string :=
  Js.trim (Js.remove_chars Engine.is_param_decoration (Engine.nameCandidate param index)).

Definition no_decoration (c : ascii) : bool := negb (Engine.is_param_decoration c).

(** A descriptor with a name and a value, and nothing else. *)
Definition named_param (name : string) (value : ParamValue) : Engine.ParamDescriptor :=
  {| Engine.pd_value := Some value; Engine.pd_name := VString name;
     Engine.pd_placeholder := VUndefined; Engine.pd_position := VUndefined |}.

(** ** Attaching with a tenant field *)


(** ** Numerals and type names *)

(** A non-empty string of decimal digits. *)
Definition is_numeral (d : string) : Prop :=
  d <> EmptyString /\ all_chars Js.is_digit d = true.

(** ** Statements with one plain FROM clause *)

(** The shape the two table patterns share: the keyword, an optional
    modifier, an optional qualifier with its dot, and the table name,
    optionally quoted, as group [i]. *)
Definition table_pattern (modifier : string) (qualifier : Regex.regex) (i : nat)
    (quote : ascii -> bool) : Regex.regex :=
  Regex.Seq (Regex.Alt (Regex.lit_ci "FROM") (Regex.lit_ci "JOIN"))
 (Regex.Seq Postgres.white_space
 (Regex.Seq (Regex.Opt (Regex.Seq (Regex.lit_ci modifier) Postgres.white_space))
 (Regex.Seq (Regex.Opt (Regex.Seq qualifier (Regex.char_eq ".")))
    (Regex.Group i
       (Regex.Seq (Regex.Opt (Regex.Char quote))
          (Regex.Seq Postgres.identifier (Regex.Opt (Regex.Char quote)))))))).

(** Neither [F] nor [J], in either letter case. *)
Definition not_from_join (c : ascii) : bool :=
  negb ((if ascii_dec (Js.canonicalize c) "F" then true else false)
        || (if ascii_dec (Js.canonicalize c) "J" then true else false)).

(** [sql] is [pre], the keyword [FROM] in some letter case, white space
    and the identifier [t], where [pre] has no letter F or J. *)
Definition simple_from (sql pre w sp t : string) : Prop :=
  sql = pre +:+ w +:+ sp +:+ t
  /\ all_chars not_from_join pre = true
  /\ same_ci w "FROM" = true
  /\ sp <> EmptyString /\ all_chars Js.is_white_space sp = true
  /\ is_identifier t.

(* ===================================================================== *)
(** * Properties *)
(* ===================================================================== *)

(** ** Insertion-ordered maps *)

Section JsMapFacts.
Context {V : Type}.
Implicit Types (m : list (string * V)) (k : string) (v : V).

Lemma JsMap_get_set_eq m k v : JsMap.get k (JsMap.set k v m) = Some v.
Proof.
  induction m as [|[k' v'] m IH]; simpl.
  - by rewrite String.eqb_refl.
  - destruct (String.eqb k' k) eqn:E; simpl.
    + by rewrite String.eqb_refl.
    + by rewrite E.
Qed.

Lemma JsMap_get_set_ne m k k' v :
  k ≠ k' -> JsMap.get k' (JsMap.set k v m) = JsMap.get k' m.
Proof.
  intros Hne. induction m as [|[k0 v0] m IH]; simpl.
  - destruct (String.eqb k k') eqn:E; [|done].
    by apply String.eqb_eq in E.
  - destruct (String.eqb k0 k) eqn:E; simpl.
    + apply String.eqb_eq in E as ->.
      destruct (String.eqb k k') eqn:E'; [|done].
      by apply String.eqb_eq in E'.
    + by rewrite IH.
Qed.

Lemma JsMap_in_set m k v k' v' :
  In (k', v') (JsMap.set k v m) -> (k', v') = (k, v) \/ In (k', v') m.
Proof.
  induction m as [|[k0 v0] m IH]; simpl.
  - intros [H|[]]; auto.
  - destruct (String.eqb k0 k); simpl; intros [H|H]; auto.
    destruct (IH H); auto.
Qed.

Lemma JsMap_set_fresh m k v :
  ~ In k (JsMap.keys m) -> JsMap.set k v m = m ++ [(k, v)].
Proof.
  induction m as [|[k0 v0] m IH]; simpl; [done|].
  intros Hnot. destruct (String.eqb k0 k) eqn:E.
  - apply String.eqb_eq in E. tauto.
  - f_equal. apply IH. tauto.
Qed.

End JsMapFacts.

(** ** Parameter records *)

Section RecordFacts.

(** An assignment to a key other than [__proto__], or to an own property,
    makes or updates an own property. *)
Lemma Obj_set_own k v o :
  k <> "__proto__" \/ is_Some (own o !! k) ->
  Obj.set k v o = {| own := <[ k := v ]> (own o); proto := proto o |}.
Proof.
  intros Hk. unfold Obj.set.
  destruct (String.eqb k "__proto__") eqn:E; [|reflexivity].
  apply String.eqb_eq in E. destruct Hk as [Hk|Hk]; [done|].
  by rewrite bool_decide_true.
Qed.

(** An assignment of a string to [__proto__] is lost, unless the record
    has an own property of that name. *)
Lemma Obj_set_proto_string s o :
  own o !! "__proto__" = None -> Obj.set "__proto__" (PString s) o = o.
Proof.
  intros Hnone. unfold Obj.set. cbn [String.eqb Ascii.eqb Bool.eqb andb].
  rewrite Hnone. by rewrite bool_decide_false by (by intros [? [=]]).
Qed.

Lemma Obj_set_string_cases k s o :
  Obj.set k (PString s) o = o
  \/ Obj.set k (PString s) o
     = {| own := <[ k := PString s ]> (own o); proto := proto o |}.
Proof.
  unfold Obj.set. destruct (_ && _); [by left|by right].
Qed.

(** Assigning the same string again changes nothing. *)
Lemma Obj_set_string_twice k s o :
  Obj.set k (PString s) (Obj.set k (PString s) o) = Obj.set k (PString s) o.
Proof.
  destruct (Obj_set_string_cases k s o) as [H|H]; rewrite !H; [reflexivity|].
  rewrite Obj_set_own by (right; cbn; rewrite lookup_insert_eq; eauto).
  cbn. by rewrite insert_insert_eq.
Qed.

(** An own property after an assignment is the one assigned or was
    there before. *)
Lemma Obj_set_lookup k v o key value :
  own (Obj.set k v o) !! key = Some value ->
  k = key /\ v = value \/ own o !! key = Some value.
Proof.
  unfold Obj.set. destruct (_ && _).
  - right. by destruct v.
  - cbn [own]. destruct (decide (k = key)) as [->|Hne].
    + rewrite lookup_insert_eq. intros [= ->]. by left.
    + rewrite lookup_insert_ne by done. by right.
Qed.

Lemma Obj_get_own o k v : own o !! k = Some v -> Obj.get o k = Value v.
Proof. intros H. unfold Obj.get. by rewrite H. Qed.

End RecordFacts.

(** ** Strings *)

Section StringFacts.
Implicit Types (s t u : string) (c : ascii).

Lemma str_app_cons c s t : String c s +:+ t = String c (s +:+ t).
Proof. reflexivity. Qed.

Lemma str_app_empty_l s : EmptyString +:+ s = s.
Proof. reflexivity. Qed.

Lemma str_app_empty_r s : s +:+ EmptyString = s.
Proof. induction s as [|c s IH]; [done|]. by rewrite str_app_cons, IH. Qed.

Lemma str_app_assoc s t u : (s +:+ t) +:+ u = s +:+ t +:+ u.
Proof. induction s as [|c s IH]; [done|]. by rewrite !str_app_cons, IH. Qed.

Lemma str_rev_app_rev_app s t u :
  String.rev_app (String.rev_app s t) u = String.rev_app t (s +:+ u).
Proof.
  revert t u. induction s as [|c s IH]; intros t u; [done|].
  simpl. rewrite IH. reflexivity.
Qed.

Lemma str_rev_involutive s : String.rev (String.rev s) = s.
Proof.
  unfold String.rev. rewrite str_rev_app_rev_app. simpl. apply str_app_empty_r.
Qed.

Lemma str_app_length s t :
  String.length (s +:+ t) = (String.length s + String.length t)%nat.
Proof.
  induction s as [|c s IH]; [done|]. rewrite str_app_cons. simpl. by rewrite IH.
Qed.

Lemma str_rev_app_length s t :
  String.length (String.rev_app s t) = (String.length s + String.length t)%nat.
Proof.
  revert t. induction s as [|c s IH]; intros t; [done|].
  simpl. rewrite IH. simpl. lia.
Qed.

Lemma str_rev_app_app s t u :
  String.rev_app (s +:+ t) u = String.rev_app t (String.rev_app s u).
Proof.
  revert u. induction s as [|c s IH]; intros u; [done|].
  rewrite str_app_cons. simpl. apply IH.
Qed.

Lemma str_rev_app_rev s t : String.rev_app s t = String.rev s +:+ t.
Proof.
  unfold String.rev. revert t. induction s as [|c s IH]; intros t; [done|].
  simpl. rewrite IH, (IH (String c EmptyString)), str_app_assoc. reflexivity.
Qed.

Lemma substring_prefix s t : substring 0 (String.length s) (s +:+ t) = s.
Proof.
  induction s as [|c s IH]; [by destruct t|].
  rewrite str_app_cons. simpl. by rewrite IH.
Qed.

Lemma toLowerCase_app s t :
  Js.toLowerCase (s +:+ t) = Js.toLowerCase s +:+ Js.toLowerCase t.
Proof.
  unfold Js.toLowerCase. induction s as [|c s IH]; [done|].
  rewrite str_app_cons. simpl. by rewrite IH.
Qed.

Lemma startsWith_app p s : Js.startsWith (p +:+ s) p = true.
Proof.
  induction p as [|c p IH]; [by destruct s|].
  rewrite str_app_cons. simpl. by destruct (ascii_dec c c).
Qed.

Lemma includes_unfold s p :
  Js.includes s p
  = Js.startsWith s p
    || match s with EmptyString => false | String _ s' => Js.includes s' p end.
Proof. by destruct s. Qed.

Lemma includes_app s p t : Js.includes (s +:+ p +:+ t) p = true.
Proof.
  induction s as [|c s IH].
  - rewrite str_app_empty_l, includes_unfold. by rewrite startsWith_app.
  - rewrite str_app_cons. simpl. rewrite IH. apply orb_true_r.
Qed.

Lemma includes_lower s p t :
  Js.includes (Js.toLowerCase (s +:+ p +:+ t)) (Js.toLowerCase p) = true.
Proof. rewrite !toLowerCase_app. apply includes_app. Qed.

End StringFacts.

(** ** Regular expressions *)

Section RegexFacts.
Import Regex.

Lemma forward_refl st : forward st st EmptyString.
Proof. by split. Qed.

Lemma forward_trans st st1 st2 t u :
  forward st st1 t -> forward st1 st2 u -> forward st st2 (t +:+ u).
Proof.
  intros [Hc Hr] [Hc' Hr']. split.
  - by rewrite Hc', Hc, str_rev_app_app.
  - by rewrite Hr, Hr', str_app_assoc.
Qed.

(** The matcher only moves forward over its input: whatever it answers
    is the answer of its continuation at a later position. *)
Lemma matcher_forward r : forall st k res,
  matcher r st k = Some res ->
  exists st1 t, forward st st1 t /\ k st1 = Some res.
Proof.
  induction r as [|p|r1 IH1 r2 IH2|r1 IH1 r2 IH2|r1 IH1|i r1 IH1| | |];
    intros st k res H; simpl in H.
  - exists st, EmptyString. split; [apply forward_refl|done].
  - destruct st as [cons [|c rest] caps]; simpl in H; [done|].
    destruct (p c); [|done].
    eexists _, (String c EmptyString). split; [|exact H]. by split.
  - apply IH1 in H as (st1 & t & Hf & H). apply IH2 in H as (st2 & u & Hf' & H).
    exists st2, (t +:+ u). split; [by eapply forward_trans|done].
  - destruct (matcher r1 st k) as [res'|] eqn:E.
    + injection H as <-. by apply IH1 in E.
    + by apply IH2 in H.
  - revert H. generalize (String.length (remaining st)).
    intros fuel. revert st. induction fuel as [|fuel IHf]; intros st H.
    + exists st, EmptyString. split; [apply forward_refl|done].
    + destruct (matcher r1 st _) as [res'|] eqn:E.
      * injection H as <-. apply IH1 in E as (st1 & t & Hf & E).
        destruct (String.length (remaining st1) <? String.length (remaining st))%nat;
          [|done].
        apply IHf in E as (st2 & u & Hf' & E).
        exists st2, (t +:+ u). split; [by eapply forward_trans|done].
      * exists st, EmptyString. split; [apply forward_refl|done].
  - apply IH1 in H as (st1 & t & Hf & H).
    eexists _, t. split; [|exact H]. exact Hf.
  - destruct (xorb _ _); [|done].
    exists st, EmptyString. split; [apply forward_refl|done].
  - destruct (consumed st); [|done].
    exists st, EmptyString. split; [apply forward_refl|done].
  - destruct (remaining st); [|done].
    exists st, EmptyString. split; [apply forward_refl|done].
Qed.

Lemma match_here_forward r before_rev s st :
  match_here r before_rev s = Some st ->
  exists t, s = t +:+ remaining st
            /\ result_of before_rev st
               = MatchResult (String.rev before_rev) t (remaining st) (captures st).
Proof.
  intros H. apply matcher_forward in H as (st1 & t & [Hc Hr] & [= ->]).
  simpl in Hc, Hr. exists t. split; [exact Hr|].
  unfold result_of, text_between. simpl. f_equal.
  rewrite Hc, str_rev_app_length.
  replace (String.length t + String.length before_rev - String.length before_rev)%nat
    with (String.length (String.rev t)).
  - by rewrite str_rev_app_rev, substring_prefix, str_rev_involutive.
  - unfold String.rev. rewrite str_rev_app_length. simpl. lia.
Qed.

(** A match splits the input: the text before it, the matched text and
    the text after it. *)
Lemma search_split r s : forall before_rev m,
  search r before_rev s = Some m ->
  exists pre,
    m_before m = String.rev before_rev +:+ pre
    /\ s = pre +:+ m_text m +:+ m_after m.
Proof.
  induction s as [|c s IH]; intros before_rev m H; simpl in H.
  - destruct (match_here r before_rev EmptyString) as [st|] eqn:E; [|done].
    injection H as <-. apply match_here_forward in E as (t & Hs & ->). simpl.
    exists EmptyString. by rewrite str_app_empty_r.
  - destruct (match_here r before_rev (String c s)) as [st|] eqn:E.
    + injection H as <-. apply match_here_forward in E as (t & Hs & ->). simpl.
      exists EmptyString. by rewrite str_app_empty_r.
    + apply IH in H as (pre & Hb & Hs). exists (String c pre). split.
      * rewrite Hb. unfold String.rev. simpl.
        rewrite (str_rev_app_rev before_rev), str_app_assoc. reflexivity.
      * rewrite str_app_cons. by f_equal.
Qed.

Lemma exec_split r s m :
  exec r s = Some m -> s = m_before m +:+ m_text m +:+ m_after m.
Proof.
  intros H. apply search_split in H as (pre & -> & Hs). exact Hs.
Qed.

(** [matchAll] is given enough fuel: more of it finds the same matches. *)
Lemma match_all_from_enough r : forall fuel fuel' before_rev s,
  (String.length s < fuel)%nat -> (String.length s < fuel')%nat ->
  match_all_from fuel r before_rev s = match_all_from fuel' r before_rev s.
Proof.
  induction fuel as [|fuel IH]; intros fuel' before_rev s Hf Hf'; [lia|].
  destruct fuel' as [|fuel']; [lia|]. simpl.
  destruct (search r before_rev s) as [m|] eqn:E; [|done].
  apply search_split in E as (pre & _ & Hs).
  apply (f_equal String.length) in Hs. rewrite !str_app_length in Hs.
  f_equal. destruct (m_text m) as [|c t]; destruct (m_after m) as [|c' s'];
    simpl in Hs; try done; apply IH; simpl; lia.
Qed.

(** The answer of the matcher depends on its continuation only at
    positions not before the current one. *)
Lemma matcher_ext r : forall st k1 k2,
  (forall st1,
     (String.length (remaining st1) <= String.length (remaining st))%nat ->
     k1 st1 = k2 st1) ->
  matcher r st k1 = matcher r st k2.
Proof.
  induction r as [|p|r1 IH1 r2 IH2|r1 IH1 r2 IH2|r1 IH1|i r1 IH1| | |];
    intros st k1 k2 Hk; simpl.
  - by apply Hk.
  - destruct st as [cons [|c rest] caps]; simpl; [done|].
    destruct (p c); [|done]. apply Hk. simpl. lia.
  - apply IH1. intros st1 H1. apply IH2. intros st2 H2. apply Hk. lia.
  - rewrite (IH1 st k1 k2 Hk), (IH2 st k1 k2 Hk). reflexivity.
  - match goal with
    | |- ?f1 ?n ?s = ?f2 ?n ?s =>
        assert (Hgen : forall fuel st',
                  (String.length (remaining st') <= String.length (remaining st))%nat ->
                  f1 fuel st' = f2 fuel st')
    end.
    { induction fuel as [|fuel IHf]; intros st' Hle.
      - by apply Hk.
      - match goal with
        | |- match matcher _ _ ?c1 with _ => _ end
             = match matcher _ _ ?c2 with _ => _ end =>
            rewrite (IH1 st' c1 c2)
        end.
        + by rewrite (Hk st' Hle).
        + intros st1 H1. simpl.
          destruct (String.length (remaining st1) <? String.length (remaining st'))%nat;
            [|done].
          apply IHf. lia. }
    apply Hgen. lia.
  - apply IH1. intros st1 H1. apply Hk. exact H1.
  - pose proof (Hk st (le_n _)) as Hst. by destruct (xorb _ _).
  - pose proof (Hk st (le_n _)) as Hst. by destruct (consumed st).
  - pose proof (Hk st (le_n _)) as Hst. by destruct (remaining st).
Qed.

Lemma matcher_none r st : matcher r st (fun _ => None) = None.
Proof.
  destruct (matcher r st (fun _ => None)) as [res|] eqn:E; [|done].
  by apply matcher_forward in E as (st1 & t & _ & E).
Qed.

(** The bound [r*] iterates under is enough: any bound at least the
    length of the remaining input gives the same answer. *)
Lemma star_loop_enough r k : forall fuel fuel' st,
  (String.length (remaining st) <= fuel)%nat ->
  (String.length (remaining st) <= fuel')%nat ->
  star_loop r k fuel st = star_loop r k fuel' st.
Proof.
  assert (Hstuck : forall fuel st,
    String.length (remaining st) = 0%nat -> star_loop r k fuel st = k st).
  { intros [|fuel] st Hlen; [done|]. simpl.
    rewrite (matcher_ext r st _ (fun _ => None)).
    - by rewrite matcher_none.
    - intros st1 H1.
      destruct (String.length (remaining st1) <? String.length (remaining st))%nat
        eqn:E; [|done].
      apply Nat.ltb_lt in E. lia. }
  induction fuel as [|fuel IH]; intros fuel' st Hf Hf'.
  - rewrite (Hstuck fuel' st) by lia. reflexivity.
  - destruct fuel' as [|fuel']; [rewrite (Hstuck (S fuel) st) by lia; reflexivity|].
    simpl. rewrite (matcher_ext r st _
                      (fun st1 =>
                         if (String.length (remaining st1)
                             <? String.length (remaining st))%nat
                         then star_loop r k fuel' st1 else None)); [done|].
    intros st1 H1.
    destruct (String.length (remaining st1) <? String.length (remaining st))%nat
      eqn:E; [|done].
    apply Nat.ltb_lt in E. apply IH; lia.
Qed.

Lemma matcher_star r st k :
  matcher (Star r) st k = star_loop r k (String.length (remaining st)) st.
Proof.
  simpl. generalize (String.length (remaining st)) as fuel. intros fuel.
  revert st. induction fuel as [|fuel IH]; intros st; [done|].
  simpl. rewrite (matcher_ext r st _
                    (fun st1 =>
                       if (String.length (remaining st1)
                           <? String.length (remaining st))%nat
                       then star_loop r k fuel st1 else None)); [done|].
  intros st1 _. destruct (_ <? _)%nat; [|done]. apply IH.
Qed.

End RegexFacts.

(** ** anonymizeResults *)

Section AnonymizeFacts.
Import Query.

Lemma mask_value_tag value : type_tag value (mask_value value).
Proof. destruct value; constructor. Qed.

Lemma type_tag_listed value tag :
  type_tag value tag ->
  (plain value -> In tag coarse_tags) /\ (~ plain value -> In tag other_tags).
Proof. intros []; simpl; tauto. Qed.

Lemma JsMap_get_None {V : Type} (m : list (string * V)) k :
  JsMap.get k m = None <-> ~ In k (JsMap.keys m).
Proof.
  induction m as [|[k0 v0] m IH]; simpl; [tauto|].
  destruct (String.eqb k0 k) eqn:E.
  - apply String.eqb_eq in E. split; [done|]. tauto.
  - apply String.eqb_neq in E. rewrite IH. tauto.
Qed.

Lemma mask_value_tags value : In (mask_value value) (coarse_tags ++ other_tags).
Proof. destruct value; simpl; tauto. Qed.

Lemma JsMap_in_assign {V : Type} (m : list (string * V)) k v k' v' :
  In (k', v') (JsMap.assign k v m) -> (k', v') = (k, v) \/ In (k', v') m.
Proof.
  unfold JsMap.assign. destruct (_ && _); [by right|apply JsMap_in_set].
Qed.

Lemma mask_row_in row : forall acc key tag,
  In (key, tag)
     (fold_left (fun masked '(key, value) => JsMap.assign key (mask_value value) masked)
        row acc) ->
  In (key, tag) acc \/ exists value, In (key, value) row /\ tag = mask_value value.
Proof.
  induction row as [|[k v] row IH]; intros acc key tag; simpl; [auto|].
  intros H. apply IH in H as [H|(value & Hin & ->)].
  - apply JsMap_in_assign in H as [H|H]; [|auto].
    inversion H; subst. right. exists v. auto.
  - right. exists value. auto.
Qed.

(** Filling the masked row: an entry under [__proto__] leaves it as it
    is, every other entry is appended. *)
Lemma mask_row_fold row : forall acc,
  NoDup (JsMap.keys acc ++ JsMap.keys row) ->
  JsMap.get "__proto__" acc = None ->
  fold_left (fun masked '(key, value) => JsMap.assign key (mask_value value) masked)
    row acc
  = acc ++ map (fun kv => (kv.1, mask_value kv.2)) (kept_entries row).
Proof.
  induction row as [|[k v] row IH]; intros acc Hnd Hproto; simpl.
  - by rewrite app_nil_r.
  - simpl in Hnd. unfold JsMap.assign at 2, kept_entries, kept_key. cbn [List.filter fst].
    destruct (String.eqb k "__proto__") eqn:E.
    + apply String.eqb_eq in E. subst k. rewrite Hproto. cbn [negb andb].
      rewrite bool_decide_false by (by intros [? [=]]). cbn [negb].
      apply IH; [|exact Hproto].
      apply NoDup_app in Hnd as (H1 & H2 & H3). apply NoDup_app. split; [exact H1|].
      split; [|by apply NoDup_cons in H3 as [_ H3]].
      intros x Hx Hin. apply (H2 x Hx). by right.
    + cbn [negb andb map fst snd]. apply String.eqb_neq in E.
      assert (Hfresh : ~ In k (JsMap.keys acc)).
      { apply NoDup_app in Hnd as (_ & Hdisj & _).
        intros Hin. apply list_elem_of_In in Hin. apply (Hdisj k Hin). left. }
      rewrite JsMap_set_fresh by exact Hfresh. rewrite IH.
      * by rewrite <- app_assoc.
      * unfold JsMap.keys in *. rewrite map_app. simpl.
        rewrite <- app_assoc. exact Hnd.
      * apply JsMap_get_None. unfold JsMap.keys. rewrite map_app. simpl.
        intros Hin. apply in_app_or in Hin as [Hin|[Hin|[]]].
        -- by apply JsMap_get_None in Hproto.
        -- by subst k.
Qed.

Lemma mask_row_entries row :
  NoDup (JsMap.keys row) ->
  Forall2 (fun kv kt => kt.1 = kv.1 /\ type_tag kv.2 kt.2) (kept_entries row) (mask_row row).
Proof.
  intros Hnd. unfold mask_row. rewrite mask_row_fold by done. simpl.
  induction (kept_entries row) as [|kv l IH]; constructor; [|exact IH].
  split; [reflexivity|apply mask_value_tag].
Qed.

(** C9, as the code has it: every value of every row is replaced by its
    tag: ["null"] for [null], ["array"] for an array and its [typeof]
    otherwise, which is one of the five listed tags when the value is a
    number, a string, a boolean, an array or [null], and is ["object"],
    ["undefined"], ["bigint"], ["symbol"] or ["function"] for a value of
    another kind.  The masked rows are the rows in their order, and the
    entries of a masked row are those of the row in their order, under
    the same keys, without an entry under [__proto__]. *)
Theorem anonymizeResults_type_tags (rows : list Row) :
  Forall (fun row => NoDup (JsMap.keys row)) rows ->
  Forall2
    (fun row masked =>
       Forall2 (fun kv kt => kt.1 = kv.1 /\ type_tag kv.2 kt.2) (kept_entries row) masked)
    rows (anonymizeResults rows)
  /\ forall masked key tag,
       In masked (anonymizeResults rows) -> In (key, tag) masked ->
       exists row value,
         In row rows /\ In (key, value) row /\ key <> "__proto__"
         /\ type_tag value tag
         /\ (plain value -> In tag coarse_tags)
         /\ (~ plain value -> In tag other_tags).
Proof.
  intros Hnd.
  assert (Hmap : anonymizeResults rows = map mask_row rows) by (by destruct rows).
  assert (Hrows : Forall2
    (fun row masked =>
       Forall2 (fun kv kt => kt.1 = kv.1 /\ type_tag kv.2 kt.2) (kept_entries row) masked)
    rows (anonymizeResults rows)).
  { rewrite Hmap. clear Hmap.
    induction Hnd as [|row rows Hrow Hnd IH]; simpl; constructor;
      [by apply mask_row_entries|exact IH]. }
  split; [exact Hrows|].
  intros masked key tag Hin Htag.
  apply list_elem_of_In in Hin.
  destruct (proj1 (list_elem_of_lookup _ _) Hin) as [i Hi].
  destruct (Forall2_lookup_r _ _ _ _ _ Hrows Hi) as (row & Hrow & Hentries).
  apply list_elem_of_In in Htag.
  destruct (proj1 (list_elem_of_lookup _ _) Htag) as [j Hj].
  destruct (Forall2_lookup_r _ _ _ _ _ Hentries Hj) as ([k value] & Hkv & Hk & Hv).
  simpl in Hk, Hv. subst k.
  apply list_elem_of_lookup_2, list_elem_of_In in Hkv.
  apply filter_In in Hkv as [Hkv Hkept]. simpl in Hkept.
  exists row, value. split; [by apply list_elem_of_In; eapply list_elem_of_lookup_2|].
  split; [exact Hkv|]. split.
  { unfold kept_key in Hkept. apply negb_true_iff, String.eqb_neq in Hkept. exact Hkept. }
  split; [exact Hv|]. by apply type_tag_listed.
Qed.

Lemma anonymizeResults_type_tags_witness :
  Forall2
    (fun row masked =>
       Forall2 (fun kv kt => kt.1 = kv.1 /\ type_tag kv.2 kt.2) (kept_entries row) masked)
    sample_rows (anonymizeResults sample_rows).
Proof.
  assert (Hnd : Forall (fun row : Row => NoDup (JsMap.keys row)) sample_rows).
  { constructor; [|constructor].
    apply (bool_decide_unpack _). vm_compute. reflexivity. }
  exact (proj1 (anonymizeResults_type_tags sample_rows Hnd)).
Defined.

(** The rows of the test "should anonymize results", by evaluation. *)
Example anonymizeResults_sample :
  anonymizeResults sample_rows
  = [[("id", "number"); ("name", "string"); ("active", "boolean");
      ("tags", "array"); ("note", "null")]].
Proof. reflexivity. Qed.

(** C9 as stated fails: a row holding an object (a [Date], a JSON column)
    is sent with the tag ["object"], which is none of the five. *)
Lemma anonymizeResults_object_tag :
  anonymizeResults [[("created_at", VObject [])]] = [[("created_at", "object")]]
  /\ ~ In "object" coarse_tags.
Proof.
  split; [reflexivity|]. simpl. intros H.
  repeat (destruct H as [H|H]; [discriminate H|]). exact H.
Qed.

End AnonymizeFacts.

(** ** The registry of attached databases *)

Section RegistryFacts.
Import Engine.
Context {W : Type}.

Lemma default_kept (ops : list (attachment W)) : forall (this : QueryEngine W) d,
  defaultDatabase this = Some d -> d <> EmptyString ->
  getDefaultDatabase (attach_all ops this) = Some d.
Proof.
  induction ops as [|[[n a] m] ops IH]; intros this d Hd Hne; simpl; [done|].
  apply IH; [|done]. simpl. rewrite Hd. simpl. by destruct d.
Qed.

Lemma entry_kept (ops : list (attachment W)) : forall (this : QueryEngine W) name,
  Forall (fun op => attachment_name op <> name) ops ->
  JsMap.get name (databases (attach_all ops this)) = JsMap.get name (databases this)
  /\ JsMap.get name (databaseMetadata (attach_all ops this))
     = JsMap.get name (databaseMetadata this).
Proof.
  induction ops as [|[[n a] m] ops IH]; intros this name Hall; simpl; [done|].
  inversion Hall as [|? ? Hn Hall']; subst. simpl in Hn.
  destruct (IH (attachDatabase n a m this) name Hall') as [-> ->]. simpl.
  by rewrite !JsMap_get_set_ne.
Qed.

Lemma attach_all_app (ops ops' : list (attachment W)) (this : QueryEngine W) :
  attach_all (ops ++ ops') this = attach_all ops' (attach_all ops this).
Proof. apply fold_left_app. Qed.

(** C10, as the code has it.  On a new engine, the first attached name,
    when it is not the empty string, is the default database and stays
    so through any later attachments.  On an engine with any history, the
    entry of a name (adapter and metadata) is the one its last attachment
    made: attachments under other names leave it untouched, and an
    attachment under the same name replaces it. *)
Theorem registry_default_and_entries
    (this : QueryEngine W) (name : string) (adapter : DatabaseAdapter W)
    (metadata : DatabaseMetadata) (ops : list (attachment W)) :
  (name <> EmptyString ->
   getDefaultDatabase (attach_all ops (attachDatabase name adapter metadata empty))
   = Some name)
  /\ (Forall (fun op => attachment_name op <> name) ops ->
      let after := attach_all ops (attachDatabase name adapter metadata this) in
      JsMap.get name (databases after) = Some adapter
      /\ JsMap.get name (databaseMetadata after) = Some metadata)
  /\ (forall earlier adapter' metadata',
      Forall (fun op => attachment_name op <> name) ops ->
      let after :=
        attach_all (earlier ++ (name, adapter', metadata') :: ops)
          (attachDatabase name adapter metadata this) in
      JsMap.get name (databases after) = Some adapter'
      /\ JsMap.get name (databaseMetadata after) = Some metadata').
Proof.
  assert (Hlast : forall (this' : QueryEngine W) a m,
    Forall (fun op => attachment_name op <> name) ops ->
    JsMap.get name (databases (attach_all ops (attachDatabase name a m this'))) = Some a
    /\ JsMap.get name (databaseMetadata (attach_all ops (attachDatabase name a m this')))
       = Some m).
  { intros this' a m Hall.
    destruct (entry_kept ops (attachDatabase name a m this') name Hall) as [-> ->].
    simpl. by rewrite !JsMap_get_set_eq. }
  split; [|split].
  - intros Hne. by apply default_kept.
  - intros Hall. by apply Hlast.
  - intros earlier adapter' metadata' Hall. cbv zeta.
    rewrite attach_all_app. cbn [attach_all fold_left]. by apply Hlast.
Qed.

End RegistryFacts.

Lemma registry_default_and_entries_witness :
  let this :=
    attach_all [("db2", idle_adapter clickhouse, plain_metadata "db2" clickhouse)]
      (Engine.attachDatabase "db1" (idle_adapter postgres)
         (plain_metadata "db1" postgres) Engine.empty) in
  Engine.getDefaultDatabase this = Some "db1"
  /\ JsMap.get "db1" (Engine.databaseMetadata this)
     = Some (plain_metadata "db1" postgres).
Proof.
  intros this.
  pose proof (registry_default_and_entries Engine.empty "db1" (idle_adapter postgres)
                (plain_metadata "db1" postgres)
                [("db2", idle_adapter clickhouse, plain_metadata "db2" clickhouse)])
    as (Hdefault & Hentry & _).
  split.
  - apply Hdefault. discriminate.
  - apply Hentry. repeat constructor. discriminate.
Defined.

(** C10 as stated fails twice: attaching again under a name replaces the
    entry of that name, and an empty first name does not stay the
    default. *)
Lemma registry_entry_replaced :
  (let this :=
     Engine.attachDatabase "db" (idle_adapter clickhouse)
       (plain_metadata "db" clickhouse)
       (Engine.attachDatabase "db" (idle_adapter postgres)
          (plain_metadata "db" postgres) Engine.empty) in
   JsMap.get "db" (Engine.databaseMetadata this) <> Some (plain_metadata "db" postgres)
   /\ (getDialect <$> JsMap.get "db" (Engine.databases this)) <> Some postgres)
  /\ (let this :=
        Engine.attachDatabase "b" (idle_adapter postgres) (plain_metadata "b" postgres)
          (Engine.attachDatabase EmptyString (idle_adapter postgres)
             (plain_metadata EmptyString postgres) Engine.empty) in
      Engine.getDefaultDatabase this <> Some EmptyString).
Proof. repeat split; simpl; discriminate. Qed.

(** ** Concrete runs of the adapters and of the rewriter *)

(** C1 fails on the code: with the allow-list [public.sales] (resp.
    [sales]), both adapters read the argument of [EXTRACT(MONTH FROM
    created_at)] as a table reference and refuse the statement before any
    client call, although its only table is the allowed one. *)
Theorem extract_argument_taken_for_table
    {W : Type} (pgClient : PostgresClientFn W) (chClient : ClickHouseClientFn W)
    (s : DbState W) :
  Postgres.execute (Postgres.new pgClient (pg_options (Some ["public.sales"])))
    extract_month_sql None s
  = (inl (Postgres.not_allowed_error "public.created_at"), s)
  /\ ClickHouse.execute (ClickHouse.new chClient (ch_options (Some ["sales"])))
       extract_month_sql None s
     = (inl (Postgres.not_allowed_error "created_at"), s).
Proof. split; vm_compute; reflexivity. Qed.

(** C5 fails on the code: for the relational dialect, and when the tenant
    field already occurs in the statement, the rewrite still stores the
    tenant id in the caller's parameter mapping. *)
Theorem tenant_parameter_always_stored :
  Engine.ensureTenantIsolation "SELECT * FROM users" Obj.empty
    (tenant_metadata postgres) "tenant-123"
  = ("SELECT * FROM users WHERE tenant_id = 'tenant-123'",
     Obj.literal {[ "tenant_id" := PString "tenant-123" ]})
  /\ Engine.ensureTenantIsolation
       "SELECT * FROM users WHERE tenant_id = 'other-tenant'" Obj.empty
       (tenant_metadata postgres) "tenant-123"
     = ("SELECT * FROM users WHERE tenant_id = 'other-tenant'",
        Obj.literal {[ "tenant_id" := PString "tenant-123" ]}).
Proof. split; vm_compute; reflexivity. Qed.

(** C8 fails on the code: a numeric key is parsed to a number, and the
    value is then looked up under the decimal text of that number, so the
    value under ["01"] is lost and [undefined] is bound in its place.  The
    example of the specification converts as stated. *)
Theorem numeric_key_with_leading_zero :
  Postgres.convertNamedToPositionalParams (Obj.literal {[ "01" := PString "a" ]})
  = [Undefined]
  /\ Postgres.convertNamedToPositionalParams
       (Obj.literal {[ "1" := PString "a"; "01" := PString "b" ]})
     = [Value (PString "a"); Value (PString "a")]
  /\ Postgres.convertNamedToPositionalParams
       (Obj.literal {[ "1" := PString "a"; "2" := PString "b"; "name" := PString "c" ]})
     = [Value (PString "a"); Value (PString "b"); Value (PString "c")].
Proof. repeat split; vm_compute; reflexivity. Qed.

(** The other functions that take [FROM], by evaluation: [TRIM] and
    [POSITION] are refused in the same way; [SUBSTRING(name FROM 1 FOR 10)] passes, a
    digit not being the start of an identifier. *)
Example from_using_functions {W : Type} (pgClient : PostgresClientFn W) :
  Postgres.validateQueryTables
    (Postgres.new pgClient (pg_options (Some ["public.customers"])))
    ("SELECT TRIM(BOTH ' ' FROM name) AS trimmed_name" +:+ Js.newline
     +:+ "FROM customers")
  = inl (Postgres.not_allowed_error "public.name")
  /\ Postgres.validateQueryTables
       (Postgres.new pgClient (pg_options (Some ["public.logs"])))
       ("SELECT POSITION('error' FROM message) AS error_pos" +:+ Js.newline
        +:+ "FROM logs")
     = inl (Postgres.not_allowed_error "public.message")
  /\ Postgres.validateQueryTables
       (Postgres.new pgClient (pg_options (Some ["public.products"])))
       ("SELECT SUBSTRING(name FROM 1 FOR 10) AS short_name" +:+ Js.newline
        +:+ "FROM products")
     = inr ().
Proof. repeat split; vm_compute; reflexivity. Qed.

(** ** Positional parameters *)

Section Positional.
Import Postgres.

Lemma numeric_value_resolved params n :
  numeric_value params n
  = placeholder_resolved params (Obj.get params (JsNumber.to_string n)).
Proof.
  unfold numeric_value, placeholder_resolved, Obj.has.
  destruct (Obj.get params (JsNumber.to_string n)) as [[s| | | |]| |]; try reflexivity.
  destruct (Regex.exec placeholderPattern s ≫= Regex.group 1) as [namedKey|];
    [|reflexivity].
  destruct (Obj.get params namedKey), (Js.truthy namedKey); reflexivity.
Qed.

Lemma Sorted_on_members {A : Type} (R R' : A -> A -> Prop) (l : list A) :
  (forall x y, In x l -> In y l -> R x y -> R' x y) -> Sorted R l -> Sorted R' l.
Proof.
  intros Himp Hs. induction Hs as [|x l Hs IH Hhd]; [constructor|].
  constructor.
  - apply IH. intros y z Hy Hz. apply Himp; by right.
  - destruct Hhd as [|y l Hxy]; constructor.
    apply Himp; [by left|right; by left|exact Hxy].
Qed.

Lemma number_le_total : Total JsNumber.le.
Proof. intros [a|] [b|]; simpl; try tauto. lia. Qed.

(** Where the conversion does what the specification says: for a record
    whose numeric keys are what [String] prints of their numbers, the
    result is the values of the numeric keys in ascending numeric order,
    placeholders resolved, followed by the values of the other keys in
    lexical order. *)
Lemma convert_canonical (params : ParamRecord) :
  canonical_numeric_keys params ->
  exists numericKeys namedKeys,
    numericKeys ≡ₚ numeric_keys params
    /\ Sorted (fun a b => JsNumber.le (parseInt a) (parseInt b)) numericKeys
    /\ namedKeys ≡ₚ named_keys params
    /\ Sorted String.le namedKeys
    /\ convertNamedToPositionalParams params
       = map (fun k => placeholder_resolved params (Obj.get params k)) numericKeys
         ++ map (Obj.get params) namedKeys.
Proof.
  intros Hcanon.
  set (nums := merge_sort JsNumber.le (map parseInt (numeric_keys params))).
  assert (Hperm : nums ≡ₚ map parseInt (numeric_keys params))
    by apply merge_sort_Permutation.
  assert (Hback : forall n, In n nums -> parseInt (JsNumber.to_string n) = n).
  { intros n Hn. apply list_elem_of_In in Hn. rewrite Hperm in Hn.
    apply list_elem_of_In, in_map_iff in Hn as (k & <- & Hk).
    by rewrite (Hcanon k Hk). }
  exists (map JsNumber.to_string nums), (merge_sort String.le (named_keys params)).
  split; [|split; [|split; [|split]]].
  - rewrite Hperm, map_map.
    rewrite (map_ext_in _ id); [by rewrite map_id|]. exact Hcanon.
  - apply (Sorted_fmap JsNumber.to_string
             (fun x y => JsNumber.le (parseInt (JsNumber.to_string x))
                           (parseInt (JsNumber.to_string y)))
             (fun a b : string => JsNumber.le (parseInt a) (parseInt b))); [done|].
    apply (Sorted_on_members JsNumber.le);
      [|apply Sorted_merge_sort; apply number_le_total].
    intros x y Hx Hy Hxy. by rewrite !Hback.
  - apply merge_sort_Permutation.
  - apply Sorted_merge_sort. apply _.
  - unfold convertNamedToPositionalParams. fold (numeric_keys params).
    fold (named_keys params). fold nums. f_equal.
    rewrite map_map. apply map_ext. intros n. apply numeric_value_resolved.
Qed.

End Positional.

Example spec_record_canonical :
  canonical_numeric_keys
    (Obj.literal {[ "1" := PString "a"; "2" := PString "b"; "name" := PString "c" ]}).
Proof.
  intros k Hk. vm_compute in Hk.
  destruct Hk as [<-|[<-|[]]]; vm_compute; reflexivity.
Qed.

(** ** Allow-list validation *)




Section RelationalAllowList.
Import Regex Postgres.
Context {W : Type}.

Lemma pg_check_step allowedSet defaultSchema m (ms : list match_result) :
  check_matches allowedSet defaultSchema (m :: ms)
  = match pg_reference defaultSchema m with
    | Some ref =>
        if decide (tableKey ref.1 ref.2 ∈ allowedSet)
        then check_matches allowedSet defaultSchema ms
        else inl (not_allowed_error (ref.1 +:+ "." +:+ ref.2))
    | None => check_matches allowedSet defaultSchema ms
    end.
Proof.
  unfold pg_reference. simpl.
  destruct (Js.remove_chars is_quote <$> group 2 m) as [table|]; [|done].
  by destruct (Js.truthy table).
Qed.



End RelationalAllowList.

Section ColumnarAllowList.
Import Regex ClickHouse.
Context {W : Type}.

Lemma ch_check_step allowedSet m (ms : list match_result) :
  check_matches allowedSet (m :: ms)
  = match ch_reference m with
    | Some ref =>
        if decide (ref ∈ allowedSet)
        then check_matches allowedSet ms
        else inl (Postgres.not_allowed_error ref)
    | None => check_matches allowedSet ms
    end.
Proof.
  unfold ch_reference. simpl.
  destruct (Js.remove_chars is_quote <$> group 1 m) as [table|]; [|done].
  by destruct (Js.truthy table).
Qed.



End ColumnarAllowList.

(** The allow-list tests of the relational adapter that pass, by
    evaluation. *)
Example allow_list_runs {W : Type} (pgClient : PostgresClientFn W) :
  Postgres.validateQueryTables
    (Postgres.new pgClient (pg_options (Some ["public.users"; "public.orders"])))
    "SELECT * FROM users JOIN orders ON users.id = orders.user_id" = inr ()
  /\ Postgres.validateQueryTables
       (Postgres.new pgClient (pg_options (Some ["public.users"])))
       "SELECT * FROM users JOIN orders ON users.id = orders.user_id"
     = inl (Postgres.not_allowed_error "public.orders")
  /\ Postgres.validateQueryTables
       (Postgres.new pgClient (pg_options (Some ["analytics.events"])))
       "SELECT * FROM analytics.events" = inr ()
  /\ Postgres.validateQueryTables (Postgres.new pgClient (pg_options (Some [])))
       "SELECT * FROM any_table" = inr ().
Proof. repeat split; vm_compute; reflexivity. Qed.

(** ** The order of the steps of one execution *)

Section ExecutionOrder.
Import Engine.
Context {W : Type}.

Lemma validateAndExecute_steps (this : QueryEngine W) (adapter : DatabaseAdapter W)
    (sql : string) (params : ParamRecord) (databaseName tenantId : string)
    (s : DbState W) :
  databaseName <> EmptyString ->
  JsMap.get databaseName (databases this) = Some adapter ->
  validateAndExecute this sql params databaseName tenantId s
  = (let* _ := validate adapter (rewritten this sql params databaseName tenantId).1
                 (Some (rewritten this sql params databaseName tenantId).2) in
     let* result := execute adapter (rewritten this sql params databaseName tenantId).1
                      (Some (rewritten this sql params databaseName tenantId).2) in
     ret ({| fields := fields result; rows := rows result |},
          (rewritten this sql params databaseName tenantId).2)) s.
Proof.
  intros Hname Hget.
  unfold validateAndExecute, getDatabase, rewritten. simpl.
  assert (Js.truthy databaseName = true) as -> by (by destruct databaseName).
  simpl. rewrite Hget. unfold bind at 1, lift_result at 1.
  by destruct (match getDatabaseMetadata this (Some databaseName) with
               | Some metadata => ensureTenantIsolation sql params metadata tenantId
               | None => (sql, params)
               end).
Qed.

Lemma relational_steps (a : Postgres.PostgresAdapter W) (finalSql : string)
    (params : ParamRecord) (s : DbState W) :
  relational_order a finalSql params s
    ((let* _ := Postgres.validate a finalSql (Some params) in
      let* result := Postgres.execute a finalSql (Some params) in
      ret ({| fields := fields result; rows := rows result |}, params)) s).
Proof.
  unfold relational_order, Postgres.validate, Postgres.execute, bind, call_pg, ret.
  simpl.
  destruct (Postgres.clientFn a ("EXPLAIN " +:+ finalSql) _ (db_world s))
    as [[e|r] w]; [reflexivity|].
  assert (Hcheck : forall s0 : DbState W,
    (match Postgres.allowedTables a with
     | Some _ => lift_result (Postgres.validateQueryTables a finalSql)
     | None => (fun s1 => (inr (), s1))
     end) s0 = (Postgres.validateQueryTables a finalSql, s0)).
  { intros s0. unfold Postgres.validateQueryTables.
    destruct (Postgres.allowedTables a) as [[|t ts]|]; reflexivity. }
  rewrite Hcheck.
  destruct (Postgres.validateQueryTables a finalSql) as [e|[]]; [reflexivity|].
  simpl.
  destruct (Postgres.clientFn a finalSql _ w) as [[e|r'] w']; simpl;
    by rewrite <- app_assoc.
Qed.

Lemma columnar_steps (a : ClickHouse.ClickHouseAdapter W) (finalSql : string)
    (params : ParamRecord) (s : DbState W) :
  columnar_order a finalSql params s
    ((let* _ := ClickHouse.validate a finalSql (Some params) in
      let* result := ClickHouse.execute a finalSql (Some params) in
      ret ({| fields := fields result; rows := rows result |}, params)) s).
Proof.
  unfold columnar_order, ClickHouse.validate, ClickHouse.execute, ClickHouse.query,
    bind, call_ch, ret.
  simpl.
  destruct (ClickHouse.clientFn a _ (db_world s)) as [[e|answer] w]; [reflexivity|].
  assert (Hcheck : forall s0 : DbState W,
    (match ClickHouse.allowedTables a with
     | Some _ => lift_result (ClickHouse.validateQueryTables a finalSql)
     | None => (fun s1 => (inr (), s1))
     end) s0 = (ClickHouse.validateQueryTables a finalSql, s0)).
  { intros s0. unfold ClickHouse.validateQueryTables.
    destruct (ClickHouse.allowedTables a) as [[|t ts]|]; reflexivity. }
  destruct answer as [rs|[e|payload]|]; simpl; try reflexivity.
  all: rewrite Hcheck.
  all: destruct (ClickHouse.validateQueryTables a finalSql) as [e|[]]; [reflexivity|].
  all: simpl.
  all: destruct (ClickHouse.clientFn a _ w) as [[e|[rs'|[e|payload']|]] w']; simpl;
    by rewrite <- app_assoc.
Qed.

(** C7, as the code has it: one execution first rewrites the statement for
    tenant isolation (once), then sends [EXPLAIN] of the rewritten text
    (adapter validate), and only then, inside adapter execute, validates
    the rewritten text against the allow-list and sends it to the client
    function.  So the dry-run is the first call in every case; an
    allow-list failure comes after it and before the second call; both
    calls carry the same rewritten text and parameters.  This holds for
    the relational and for the columnar adapter. *)
Theorem execution_order (this : QueryEngine W)
    (sql : string) (params : ParamRecord) (databaseName tenantId : string)
    (s : DbState W) :
  databaseName <> EmptyString ->
  let finalSql := (rewritten this sql params databaseName tenantId).1 in
  let finalParams := (rewritten this sql params databaseName tenantId).2 in
  let out := validateAndExecute this sql params databaseName tenantId s in
  (forall a : Postgres.PostgresAdapter W,
     JsMap.get databaseName (databases this) = Some (Postgres.as_adapter a) ->
     relational_order a finalSql finalParams s out)
  /\ (forall a : ClickHouse.ClickHouseAdapter W,
       JsMap.get databaseName (databases this) = Some (ClickHouse.as_adapter a) ->
       columnar_order a finalSql finalParams s out).
Proof.
  intros Hname finalSql finalParams out. split; intros a Hget; subst out.
  - rewrite (validateAndExecute_steps this _ sql params databaseName tenantId s
               Hname Hget).
    apply relational_steps.
  - rewrite (validateAndExecute_steps this _ sql params databaseName tenantId s
               Hname Hget).
    apply columnar_steps.
Qed.

End ExecutionOrder.

Lemma execution_order_witness :
  db_calls
    (Engine.validateAndExecute users_engine "SELECT * FROM users" Obj.empty "test-db" "t-1"
       no_calls).2
  = [PgCall "EXPLAIN SELECT * FROM users WHERE tenant_id = 't-1'"
       (Some [Value (PString "t-1")]);
     PgCall "SELECT * FROM users WHERE tenant_id = 't-1'"
       (Some [Value (PString "t-1")])].
Proof.
  assert (Hname : "test-db" <> EmptyString) by discriminate.
  assert (Hget : JsMap.get "test-db" (Engine.databases users_engine)
                 = Some (Postgres.as_adapter users_only)) by reflexivity.
  exact (proj1 (execution_order users_engine "SELECT * FROM users" Obj.empty "test-db" "t-1"
                  no_calls Hname) users_only Hget).
Defined.

(** C7 as stated fails: for a statement on a table outside the allow-list
    the dry-run has already been sent to the database when allow-list
    validation refuses the statement. *)
Lemma dry_run_precedes_allow_list :
  Engine.validateAndExecute users_engine "SELECT * FROM orders" Obj.empty "test-db" "t-1"
    no_calls
  = (inl (Postgres.not_allowed_error "public.orders"),
     {| db_world := ();
        db_calls := [PgCall "EXPLAIN SELECT * FROM orders WHERE tenant_id = 't-1'"
                       (Some [Value (PString "t-1")])] |}).
Proof. vm_compute. reflexivity. Qed.

(** ** Tenant isolation *)

Section TenantFacts.
Import Regex Engine.

Lemma tenantPredicate_starts metadata tenantField tenantId :
  exists tail, tenantPredicate metadata tenantField tenantId = tenantField +:+ tail.
Proof. unfold tenantPredicate. destruct (dialect metadata); eauto. Qed.

(** What the rewrite does to the parameter mapping: it stores the tenant
    id under the tenant field whenever a field is configured and isolation
    is not disabled, whatever the dialect and the statement. *)
Lemma ensureTenantIsolation_params sql params metadata tenantId :
  (ensureTenantIsolation sql params metadata tenantId).2
  = match truthy_string (tenantFieldName metadata), enforceTenantIsolation metadata with
    | None, _ | _, Some false => params
    | Some tenantField, _ => Obj.set tenantField (PString tenantId) params
    end.
Proof.
  unfold ensureTenantIsolation.
  destruct (truthy_string (tenantFieldName metadata)) as [tenantField|]; [|done].
  destruct (enforceTenantIsolation metadata) as [[|]|]; try done;
    (destruct (Js.includes (Js.toLowerCase sql) _); [done|]);
    by destruct (test _ _).
Qed.

(** Once rewritten, a statement mentions the tenant field. *)
Lemma rewritten_mentions_field sql params metadata tenantId tenantField :
  truthy_string (tenantFieldName metadata) = Some tenantField ->
  enforceTenantIsolation metadata <> Some false ->
  Js.includes
    (Js.toLowerCase (ensureTenantIsolation sql params metadata tenantId).1)
    (Js.toLowerCase tenantField) = true.
Proof.
  intros Hf Hen. unfold ensureTenantIsolation. rewrite Hf.
  destruct (enforceTenantIsolation metadata) as [[|]|]; try done;
    (destruct (Js.includes (Js.toLowerCase sql) (Js.toLowerCase tenantField)) eqn:Hinc;
     [done|]);
    destruct (tenantPredicate_starts metadata tenantField tenantId) as [tail ->];
    unfold test, replace_first;
    (destruct (exec wherePattern sql) as [m|]; simpl;
     [ replace (m_before m +:+ (m_text m +:+ " " +:+ (tenantField +:+ tail) +:+ " AND ")
                +:+ m_after m)
         with ((m_before m +:+ m_text m +:+ " ") +:+ tenantField
               +:+ (tail +:+ " AND " +:+ m_after m))
         by (by rewrite !str_app_assoc)
     | replace (sql +:+ " WHERE " +:+ tenantField +:+ tail)
         with ((sql +:+ " WHERE ") +:+ tenantField +:+ tail)
         by (by rewrite !str_app_assoc) ]);
    apply includes_lower.
Qed.

(** C4: rewriting the output of the rewrite again, with the same tenant
    id, changes neither the SQL text nor the parameter mapping. *)
Theorem tenant_isolation_idempotent
    (sql : string) (params : ParamRecord) (metadata : DatabaseMetadata)
    (tenantId : string) :
  let once := ensureTenantIsolation sql params metadata tenantId in
  ensureTenantIsolation once.1 once.2 metadata tenantId = once.
Proof.
  intros once.
  destruct (truthy_string (tenantFieldName metadata)) as [tenantField|] eqn:Hf.
  - destruct (decide (enforceTenantIsolation metadata = Some false)) as [Hoff|Hon].
    + subst once. unfold ensureTenantIsolation. by rewrite !Hf, !Hoff.
    + pose proof (rewritten_mentions_field sql params metadata tenantId tenantField
                    Hf Hon) as Hin.
      fold once in Hin.
      assert (Hparams : once.2 = Obj.set tenantField (PString tenantId) params).
      { subst once. rewrite ensureTenantIsolation_params, Hf.
        by destruct (enforceTenantIsolation metadata) as [[|]|]. }
      unfold ensureTenantIsolation at 1. rewrite Hf, Hin, Hparams.
      rewrite Obj_set_string_twice, <- Hparams.
      destruct (enforceTenantIsolation metadata) as [[|]|]; try done;
        by destruct once.
  - subst once. unfold ensureTenantIsolation. by rewrite !Hf.
Qed.

Ltac all_chars c := destruct c as [[] [] [] [] [] [] [] []].

Lemma lower_is (x c : ascii) :
  In x ["w"; "h"; "e"; "r"]%char ->
  Js.to_lower_char c = x ->
  (if ascii_dec (Js.canonicalize c) (Js.canonicalize x) then true else false) = true
  /\ Js.is_word_char c = true.
Proof.
  intros Hx Hc. simpl in Hx.
  destruct Hx as [<-|[<-|[<-|[<-|[]]]]]; revert Hc; all_chars c; vm_compute;
    first [discriminate | auto].
Qed.

Lemma is_lower_of (x c : ascii) :
  In x ["w"; "h"; "e"; "r"]%char ->
  (if ascii_dec (Js.canonicalize c) (Js.canonicalize x) then true else false) = true ->
  Js.to_lower_char c = x.
Proof.
  intros Hx Hc. simpl in Hx.
  destruct Hx as [<-|[<-|[<-|[<-|[]]]]]; revert Hc; all_chars c; vm_compute;
    first [discriminate | auto].
Qed.


Lemma match_here_where_inv rev_before s st :
  match_here wherePattern rev_before s = Some st ->
  exists w after,
    keyword_here rev_before s w after
    /\ st = MState (String.rev_app w rev_before) after [].
Proof.
  unfold match_here, wherePattern. simpl. intros H.
  destruct (xorb (head_is_word rev_before) (head_is_word s)) eqn:Hb;
    [|discriminate].
  destruct s as [|c1 [|c2 [|c3 [|c4 [|c5 after]]]]];
    repeat match type of H with
           | (if ?b then _ else _) = _ => destruct b eqn:?; [|discriminate]
           | None = Some _ => discriminate
           end.
  injection H as <-.
  repeat match goal with
         | Hc : (if ascii_dec (Js.canonicalize ?c) (Js.canonicalize ?x)
                 then true else false) = true |- _ =>
             let Hl := fresh "Hl" in
             assert (Hl : Js.to_lower_char c = x)
               by (apply is_lower_of; [simpl; tauto|exact Hc]);
             clear Hc
         end.
  exists (String c1 (String c2 (String c3 (String c4 (String c5 EmptyString))))), after.
  split; [|reflexivity].
  assert (Hw1 : Js.is_word_char c1 = true)
    by (eapply lower_is; [|eassumption]; simpl; tauto).
  assert (Hw5 : Js.is_word_char c5 = true)
    by (eapply lower_is; [|eassumption]; simpl; tauto).
  simpl in Hb. rewrite Hw1 in Hb. rewrite Hw5 in *.
  repeat split.
  - unfold Js.toLowerCase. simpl. congruence.
  - by destruct (head_is_word rev_before).
  - by destruct (head_is_word after).
Qed.

Lemma match_here_where_intro rev_before s w after :
  keyword_here rev_before s w after ->
  match_here wherePattern rev_before s
  = Some (MState (String.rev_app w rev_before) after []).
Proof.
  intros (-> & Hl & Hb & Ha).
  destruct w as [|c1 [|c2 [|c3 [|c4 [|c5 [|c6 w]]]]]]; try discriminate Hl.
  unfold Js.toLowerCase in Hl. simpl in Hl.
  injection Hl as H1 H2 H3 H4 H5.
  unfold match_here, wherePattern. rewrite !str_app_cons, str_app_empty_l. simpl.
  destruct (lower_is "w" c1 ltac:(simpl; tauto) H1) as [-> ->].
  destruct (lower_is "h" c2 ltac:(simpl; tauto) H2) as [-> _].
  destruct (lower_is "e" c3 ltac:(simpl; tauto) H3) as [-> _].
  destruct (lower_is "r" c4 ltac:(simpl; tauto) H4) as [-> _].
  destruct (lower_is "e" c5 ltac:(simpl; tauto) H5) as [-> ->].
  by rewrite Hb, Ha.
Qed.

Lemma match_here_where_none rev_before s w after :
  match_here wherePattern rev_before s = None ->
  ~ keyword_here rev_before s w after.
Proof.
  intros Hnone Hk. apply match_here_where_intro in Hk. congruence.
Qed.

(** What [search] answers for the pattern: the leftmost occurrence of the
    keyword, if there is one. *)
Lemma search_where s : forall rev_before,
  match search wherePattern rev_before s with
  | Some m =>
      exists pre w after,
        s = pre +:+ w +:+ after
        /\ keyword_here (String.rev_app pre rev_before) (w +:+ after) w after
        /\ m = MatchResult (String.rev (String.rev_app pre rev_before)) w after []
        /\ (forall pre' w' after',
              s = pre' +:+ w' +:+ after' ->
              keyword_here (String.rev_app pre' rev_before) (w' +:+ after') w' after' ->
              (String.length pre <= String.length pre')%nat)
  | None =>
      forall pre' w' after',
        s = pre' +:+ w' +:+ after' ->
        ~ keyword_here (String.rev_app pre' rev_before) (w' +:+ after') w' after'
  end.
Proof.
  induction s as [|c s IH]; intros rev_before; simpl.
  - destruct (match_here wherePattern rev_before EmptyString) as [st|] eqn:Hm.
    + apply match_here_where_inv in Hm as (w & after & Hk & ->).
      destruct Hk as (Hs & Hl & _). destruct w; discriminate.
    + intros pre' w' after' Hs.
      destruct pre'; [|discriminate]. rewrite str_app_empty_l in Hs. rewrite <- Hs.
      by apply match_here_where_none.
  - destruct (match_here wherePattern rev_before (String c s)) as [st|] eqn:Hm.
    + apply match_here_where_inv in Hm as (w & after & Hk & ->).
      exists EmptyString, w, after.
      destruct Hk as (Hs & Hk). rewrite str_app_empty_l, <- Hs. simpl.
      split; [reflexivity|]. split; [by split|].
      split; [|intros; lia].
      unfold result_of, text_between. simpl. f_equal.
      assert (Hw : exists c1 c2 c3 c4 c5,
                 w = String c1 (String c2 (String c3 (String c4 (String c5 EmptyString))))).
      { destruct Hk as (Hl & _).
        destruct w as [|c1 [|c2 [|c3 [|c4 [|c5 [|c6 w]]]]]]; try discriminate Hl.
        eauto 6. }
      destruct Hw as (c1 & c2 & c3 & c4 & c5 & ->). simpl.
      replace (S (S (S (S (S (String.length rev_before))))) - String.length rev_before)%nat
        with 5%nat by lia.
      simpl. by replace (substring 0 0 rev_before) with EmptyString
        by (by destruct rev_before).
    + specialize (IH (String c rev_before)).
      destruct (search wherePattern (String c rev_before) s) as [m|].
      * destruct IH as (pre & w & after & -> & Hk & -> & Hfirst).
        exists (String c pre), w, after. rewrite str_app_cons. simpl.
        split; [reflexivity|]. split; [exact Hk|]. split; [reflexivity|].
        intros pre' w' after' Hs Hk'. destruct pre' as [|c' pre'].
        -- rewrite str_app_empty_l in Hs. simpl in Hk'. rewrite <- Hs in Hk'.
           by apply match_here_where_none in Hk'.
        -- rewrite str_app_cons in Hs. injection Hs as -> Hs. simpl.
           apply le_n_S. by apply (Hfirst pre' w' after').
      * intros pre' w' after' Hs Hk'. destruct pre' as [|c' pre'].
        -- rewrite str_app_empty_l in Hs. simpl in Hk'. rewrite <- Hs in Hk'.
           by apply match_here_where_none in Hk'.
        -- rewrite str_app_cons in Hs. injection Hs as -> Hs.
           by apply (IH pre' w' after').
Qed.

Lemma exec_where sql :
  match exec wherePattern sql with
  | Some m => first_where sql (m_before m) (m_text m) (m_after m)
  | None => ~ contains_where sql
  end.
Proof.
  unfold exec. pose proof (search_where sql EmptyString) as H.
  destruct (search wherePattern EmptyString sql) as [m|].
  - destruct H as (pre & w & after & Hs & (_ & Hk) & -> & Hfirst). simpl.
    change (String.rev_app pre EmptyString) with (String.rev pre).
    rewrite str_rev_involutive. split; [exact Hs|]. split; [exact Hk|].
    intros before' w' after' Hs' Hk'. apply (Hfirst before' w' after' Hs').
    by split.
  - intros (before & w & after & Hs & Hk). apply (H before w after Hs). by split.
Qed.

(** C3: when a tenant field is configured, isolation is not disabled and
    the field name does not occur in the statement (in any letter case),
    the rewrite builds the predicate of the dialect (columnar:
    [field = {field:Type}], [Type] being [String] by default; otherwise
    [field = 'tenantId']) and, when the statement contains the keyword
    [WHERE], inserts [" " predicate " AND "] right after its first
    occurrence; when it does not, it appends [" WHERE " predicate]. *)
Theorem tenant_predicate_spliced
    (sql : string) (params : ParamRecord) (metadata : DatabaseMetadata)
    (tenantId tenantField : string) :
  tenantFieldName metadata = Some tenantField ->
  tenantField <> EmptyString ->
  enforceTenantIsolation metadata <> Some false ->
  Js.includes (Js.toLowerCase sql) (Js.toLowerCase tenantField) = false ->
  let predicate :=
    match dialect metadata with
    | clickhouse =>
        tenantField +:+ " = {" +:+ tenantField +:+ ":"
          +:+ default "String" (tenantFieldType metadata) +:+ "}"
    | _ => tenantField +:+ " = '" +:+ tenantId +:+ "'"
    end in
  let rewritten := (ensureTenantIsolation sql params metadata tenantId).1 in
  (contains_where sql ->
   exists before w after,
     first_where sql before w after
     /\ rewritten = before +:+ w +:+ " " +:+ predicate +:+ " AND " +:+ after)
  /\ (~ contains_where sql -> rewritten = sql +:+ " WHERE " +:+ predicate).
Proof.
  intros Hf Hne Hen Hinc predicate rewritten.
  assert (Hrw : rewritten
    = if test wherePattern sql
      then replace_first wherePattern sql (fun m => m +:+ " " +:+ predicate +:+ " AND ")
      else sql +:+ " WHERE " +:+ predicate).
  { subst rewritten predicate. unfold ensureTenantIsolation, tenantPredicate.
    rewrite Hf. simpl.
    assert (Js.truthy tenantField = true) as -> by (by destruct tenantField).
    rewrite Hinc.
    destruct (enforceTenantIsolation metadata) as [[|]|]; try done;
      by destruct (test wherePattern sql), (dialect metadata). }
  rewrite Hrw. unfold test, replace_first.
  pose proof (exec_where sql) as Hexec.
  destruct (exec wherePattern sql) as [m|]; split.
  - intros _. exists (m_before m), (m_text m), (m_after m). split; [exact Hexec|].
    by rewrite !str_app_assoc.
  - intros Hnot. destruct Hnot. destruct Hexec as (Hs & Hk & _).
    by exists (m_before m), (m_text m), (m_after m).
  - intros Hcontains. by destruct Hexec.
  - done.
Qed.

Lemma tenant_predicate_spliced_witness :
  (ensureTenantIsolation "SELECT * FROM users" Obj.empty scoped_users "t-123").1
  = "SELECT * FROM users WHERE tenant_id = 't-123'".
Proof.
  assert (H1 : tenantFieldName scoped_users = Some "tenant_id") by reflexivity.
  assert (H2 : "tenant_id" <> EmptyString) by discriminate.
  assert (H3 : enforceTenantIsolation scoped_users <> Some false) by discriminate.
  assert (H4 : Js.includes (Js.toLowerCase "SELECT * FROM users")
                 (Js.toLowerCase "tenant_id") = false) by reflexivity.
  destruct (tenant_predicate_spliced "SELECT * FROM users" Obj.empty scoped_users
              "t-123" "tenant_id" H1 H2 H3 H4) as [_ Happend].
  apply Happend.
  exact (exec_where "SELECT * FROM users").
Defined.

(** The other scenarios of the specification, by evaluation. *)
Example tenant_predicate_after_where :
  (ensureTenantIsolation "SELECT * FROM users WHERE active = true" Obj.empty
     scoped_users "tenant-123").1
  = "SELECT * FROM users WHERE tenant_id = 'tenant-123' AND  active = true".
Proof. reflexivity. Qed.

(** The columnar scenario of the specification, by evaluation. *)
Example tenant_predicate_columnar :
  ensureTenantIsolation "SELECT * FROM users" Obj.empty (tenant_metadata clickhouse)
    "t-123"
  = ("SELECT * FROM users WHERE tenant_id = {tenant_id:String}",
     Obj.literal {[ "tenant_id" := PString "t-123" ]}).
Proof. vm_compute. reflexivity. Qed.

End TenantFacts.

(** ** The retry loop of [ask] *)

Section RetryFacts.
Import Query.
Context {W : Type}.
Variable randomUUID : W -> string * W.
Variable client : ApiClient W.
Variable queryEngine : Engine.QueryEngine W.
Variable question : string.
Variable options : AskOptions.





(** The loop never runs out of fuel: with the fuel [ask] gives it, the
    outcome is a response or a throw. *)
Lemma ask_loop_total (tenantId sessionId : string) (maxRetry : Z) (fuel : nat) :
  forall (attempt : Z) (lastError previousSql : option string) (s : State W),
    (maxRetry - attempt < Z.of_nat fuel)%Z ->
    (ask_loop client queryEngine question options fuel tenantId sessionId
       maxRetry attempt lastError previousSql s).1 <> inr None.
Proof.
  induction fuel as [|fuel IH]; intros attempt lastError previousSql s Hfuel.
  - cbn [ask_loop]. destruct (attempt <=? maxRetry)%Z eqn:E; [lia|]. by cbn.
  - destruct fuel as [|fuel'] eqn:Efuel; [|rewrite <- Efuel in *].
    all: cbn [ask_loop].
    all: destruct (attempt <=? maxRetry)%Z eqn:E; [|by cbn].
    all: unfold bind at 1, post at 1.
    all: destruct (post_query client _ _ _) as [[e|response] w']; [by cbn|].
    all: destruct (truthy_string _) as [dbName|]; [|by cbn].
    all: unfold try_catch, bind at 1, lift_db at 1; cbn [st_db st_posts].
    all: destruct (Engine.validateAndExecute _ _ _ _ _ _) as [[e|[execution paramValues]] s'].
    all: try (destruct (attempt + 1 >? maxRetry)%Z eqn:E'; [by cbn|]).
    all: try (apply IH; lia).
    all: try lia.
    all: unfold bind at 1.
    all: destruct (make_chart _ _ _ _ _ _ _) as [[e|chart] s''].
    all: try (by cbn).
    all: destruct (attempt + 1 >? maxRetry)%Z eqn:E'; [by cbn|].
    all: try (apply IH; lia).
    all: lia.
Qed.

Lemma ask_total (s : State W) :
  (ask randomUUID client queryEngine question options s).1 <> inr None.
Proof.
  unfold ask, bind at 1, lift_result at 1.
  destruct (resolveTenantId client (tenantId options)) as [e|resolved]; [by cbn|].
  unfold bind at 1, new_session at 1.
  destruct (randomUUID (db_world (st_db s))) as [sessionId w].
  destruct (decide (0 <= default 0 (maxRetry options))%Z) as [Hpos|Hneg].
  - apply ask_loop_total. lia.
  - replace (Z.to_nat (default 0%Z (maxRetry options) + 1)) with 0%nat by lia.
    cbn [ask_loop]. destruct (0 <=? default 0 (maxRetry options))%Z eqn:E; [lia|].
    by cbn.
Qed.

End RetryFacts.

Section RetryRuns.
Import Query.



(** The run of the test "should throw error after exhausting retries". *)
Example ask_two_retries_run :
  let out := ask fixed_session persistent_client refusing_engine "test"
               two_retries fresh in
  out.1 = inl (ErrorObj "Persistent error")
  /\ map (fun call => match call with
                      | PostQuery body _ => (last_error body, previous_sql body)
                      | _ => (None, None)
                      end) (st_posts out.2)
     = [(None, None);
        (Some "Persistent error", Some "INVALID SQL");
        (Some "Persistent error", Some "INVALID SQL")].
Proof. vm_compute. split; reflexivity. Qed.

End RetryRuns.

(** ** The requests of [ask] *)

Section AskRuns.
Import Query.
Context {W : Type}.
Variable randomUUID : W -> string * W.
Variable client : ApiClient W.
Variable queryEngine : Engine.QueryEngine W.
Variable question : string.
Variable options : AskOptions.

Lemma anonymizeResults_tags (rows : list Row) :
  Forall (fun row => Forall (fun kv => In kv.2 (coarse_tags ++ other_tags)) row)
    (anonymizeResults rows).
Proof.
  assert (anonymizeResults rows = map mask_row rows) as -> by by destruct rows.
  apply List.Forall_forall. intros masked Hin.
  apply in_map_iff in Hin as (row & <- & _).
  apply List.Forall_forall. intros [key tag] Hkv.
  apply mask_row_in in Hkv as [[]|(value & _ & ->)].
  apply mask_value_tags.
Qed.

Lemma validateAndExecute_params (sql : string) (params : ParamRecord)
    (databaseName tenantId : string) (s s' : DbState W)
    (result : DatabaseExecutionResult) (params' : ParamRecord) :
  Engine.validateAndExecute queryEngine sql params databaseName tenantId s
    = (inr (result, params'), s') ->
  params' = (rewritten queryEngine sql params databaseName tenantId).2.
Proof.
  unfold Engine.validateAndExecute, rewritten, bind at 1, lift_result at 1.
  destruct (Engine.getDatabase _ _) as [e|adapter]; [discriminate|].
  destruct (match Engine.getDatabaseMetadata _ _ with
            | Some metadata => _
            | None => _
            end) as [finalSql finalParams].
  unfold bind, ret.
  destruct (validate _ _ _ _) as [[e|[]] s1]; [discriminate|].
  destruct (execute _ _ _ _) as [[e|res] s2]; [discriminate|].
  by intros [= _ <- _].
Qed.

Lemma make_chart_run (ctx : CallContext) (response : ServerQueryResponse)
    (execution : DatabaseExecutionResult) (s : State W) :
  let out := make_chart client question options ctx response execution s in
  match rows execution with
  | [] => out = (inr (no_rows_chart options), s)
  | _ :: _ =>
      exists call chart,
        st_posts out.2 = st_posts s ++ [call]
        /\ is_query_post call = false
        /\ post_ctx call = ctx
        /\ chart_body call = Some chart
        /\ cr_rows chart = anonymizeResults (rows execution)
        /\ cr_fields chart = fields execution
        /\ cr_sql chart = sql response
        /\ forall envelope, out.1 = inr envelope ->
             chart_from client (rows execution) call envelope
  end.
Proof.
  unfold make_chart. destruct (rows execution) as [|row rest]; [reflexivity|].
  destruct (default vega_lite (chartType options)).
  all: unfold bind, post; cbn zeta.
  - destruct (post_chart client _ _ _) as [[e|chartResponse] w'] eqn:Hpost.
    all: eexists _, _; cbn; split; [reflexivity|]; repeat (split; [reflexivity|]).
    all: intros envelope [= <-].
    by eexists _, _, _.
  - destruct (post_vizspec client _ _ _) as [[e|vizspecResponse] w'] eqn:Hpost.
    all: eexists _, _; cbn; split; [reflexivity|]; repeat (split; [reflexivity|]).
    all: intros envelope [= <-].
    by eexists _, _, _.
Qed.

Lemma ask_loop_step (fuel : nat) (tenantId sessionId : string) (maxRetry attempt : Z)
    (lastError previousSql : option string) :
  ask_loop client queryEngine question options (S fuel) tenantId sessionId maxRetry
    attempt lastError previousSql
  = if (attempt <=? maxRetry)%Z then
      let ctx :=
        {| ctx_tenantId := tenantId; ctx_userId := userId options;
           ctx_scopes := scopes options; ctx_sessionId := sessionId |} in
      let body := query_request queryEngine question options lastError previousSql in
      let* queryResponse := post (PostQuery body ctx) (post_query client body ctx) in
      match target_db queryEngine options queryResponse with
      | None =>
          throw (ErrorObj
                   "No database attached. Call attachPostgres/attachClickhouse first.")
      | Some dbName =>
          let paramMetadata := default [] (params queryResponse) in
          try_catch
            (let* '(execution, paramValues) :=
               lift_db (Engine.validateAndExecute queryEngine (sql queryResponse)
                          (Engine.mapGeneratedParams paramMetadata) dbName tenantId) in
             let* chart := make_chart client question options ctx queryResponse execution in
             ret (Some
                    {| ar_sql := sql queryResponse;
                       ar_params := paramValues;
                       ar_paramMetadata := paramMetadata;
                       ar_rationale := rationale queryResponse;
                       ar_dialect := dialect queryResponse;
                       ar_queryId := queryId queryResponse;
                       ar_rows := rows execution;
                       ar_fields := fields execution;
                       ar_chart := chart;
                       ar_context := context queryResponse;
                       ar_attempts := (attempt + 1)%Z;
                       ar_target_db := dbName |}))
            (fun error =>
               if (attempt + 1 >? maxRetry)%Z then throw error
               else
                 ask_loop client queryEngine question options fuel tenantId sessionId
                   maxRetry (attempt + 1) (Some (error_text error))
                   (Some (sql queryResponse)))
      end
    else throw (ErrorObj "Unexpected error in ask retry loop").
Proof. reflexivity. Qed.

Lemma run_facts_throw (ctx : CallContext) (maxRetry attempt : Z) (s s' : State W)
    (e : Thrown) (new : list PostCall) :
  st_posts s' = st_posts s ++ new ->
  Forall (fun call => post_ctx call = ctx) new ->
  Forall (fun call => forall chart, chart_body call = Some chart -> tags_only chart) new ->
  (Z.of_nat (query_posts new) <= Z.max 0 (maxRetry - attempt + 1))%Z ->
  (length new <= 2 * query_posts new)%nat ->
  run_facts client queryEngine options ctx maxRetry attempt s (inl e, s').
Proof. intros. exists new. repeat (split; [assumption|]). intros r [=]. Qed.

Lemma run_facts_retry (ctx : CallContext) (maxRetry attempt : Z) (s s' : State W)
    (out : (Thrown + option AskResponse) * State W) (body : QueryRequest)
    (tail : list PostCall) :
  (attempt <= maxRetry)%Z ->
  st_posts s' = st_posts s ++ PostQuery body ctx :: tail ->
  Forall (fun call => post_ctx call = ctx) tail ->
  Forall (fun call => forall chart, chart_body call = Some chart -> tags_only chart) tail ->
  query_posts tail = 0%nat -> (length tail <= 1)%nat ->
  run_facts client queryEngine options ctx maxRetry (attempt + 1) s' out ->
  run_facts client queryEngine options ctx maxRetry attempt s out.
Proof.
  intros Hle Hposts1 Hctx1 Htags1 Hcount1 Hlen1
    (new & Hposts & Hctx & Htags & Hbound & Hlen & Hret).
  exists (PostQuery body ctx :: tail ++ new).
  assert (query_posts (PostQuery body ctx :: tail ++ new) = S (query_posts new)) as Hcount.
  { unfold query_posts in *. cbn. rewrite List.filter_app, length_app. lia. }
  split; [rewrite Hposts, Hposts1; by rewrite <- app_assoc|].
  split; [constructor; [reflexivity|by apply Forall_app]|].
  split; [constructor; [by intros chart [=]|by apply Forall_app]|].
  rewrite Hcount. cbn [length]. rewrite length_app.
  split; [lia|]. split; [lia|].
  intros r Hr. destruct (Hret r Hr) as [Hattempts Hanswered]. split; [lia|].
  destruct Hanswered as (earlier & body0 & ctx0 & response0 & w0 & w0'
                         & tail0 & -> & Hrest).
  exists (PostQuery body ctx :: tail ++ earlier), body0, ctx0, response0, w0, w0', tail0.
  split; [|exact Hrest]. cbn. by rewrite <- app_assoc.
Qed.

(** What every run of the loop satisfies, whatever the service and the
    database answer. *)
Lemma ask_loop_run (tenantId sessionId : string) (maxRetry : Z) (fuel : nat) :
  forall (attempt : Z) (lastError previousSql : option string) (s : State W),
    run_facts client queryEngine options
      {| ctx_tenantId := tenantId; ctx_userId := userId options;
         ctx_scopes := scopes options; ctx_sessionId := sessionId |}
      maxRetry attempt s
      (ask_loop client queryEngine question options fuel tenantId sessionId
         maxRetry attempt lastError previousSql s).
Proof.
  set (ctx := {| ctx_tenantId := tenantId; ctx_userId := userId options;
                 ctx_scopes := scopes options; ctx_sessionId := sessionId |}).
  assert (forall (attempt : Z) (s : State W) out,
            st_posts out.2 = st_posts s -> (forall r, out.1 <> inr (Some r)) ->
            run_facts client queryEngine options ctx maxRetry attempt s out) as Hidle.
  { intros attempt s out Hposts Hfail. exists []. rewrite app_nil_r.
    split; [exact Hposts|]. split; [constructor|]. split; [constructor|].
    cbn. split; [lia|]. split; [lia|]. intros r Hr. by destruct (Hfail r). }
  induction fuel as [|fuel' IH]; intros attempt lastError previousSql s.
  { cbn [ask_loop]. destruct (attempt <=? maxRetry)%Z; by apply Hidle. }
  rewrite ask_loop_step.
  destruct (attempt <=? maxRetry)%Z eqn:Hbudget; [|by apply Hidle].
  cbn zeta. fold ctx.
  set (body := query_request queryEngine question options lastError previousSql).
  assert (query_posts [PostQuery body ctx] = 1%nat) as Hone by reflexivity.
  unfold bind at 1, post at 1.
  destruct (post_query client body ctx (db_world (st_db s)))
    as [[e|response] w'] eqn:Hpost.
  { apply (run_facts_throw _ _ _ _ _ _ [PostQuery body ctx]);
      [reflexivity|by repeat constructor|by repeat constructor|rewrite Hone; lia|
       rewrite Hone; cbn; lia]. }
  destruct (target_db queryEngine options response) as [dbName|] eqn:Hdb.
  2: { apply (run_facts_throw _ _ _ _ _ _ [PostQuery body ctx]);
         [reflexivity|by repeat constructor|by repeat constructor|rewrite Hone; lia|
          rewrite Hone; cbn; lia]. }
  unfold try_catch, bind at 1, lift_db at 1; cbn [st_db st_posts].
  destruct (Engine.validateAndExecute _ _ _ _ _ _)
    as [[e|[execution paramValues]] d'] eqn:Hexec.
  { destruct (attempt + 1 >? maxRetry)%Z eqn:Hlast.
    - apply (run_facts_throw _ _ _ _ _ _ [PostQuery body ctx]);
        [reflexivity|by repeat constructor|by repeat constructor|rewrite Hone; lia|
         rewrite Hone; cbn; lia].
    - match goal with
      | |- run_facts _ _ _ _ _ _ _ (ask_loop _ _ _ _ _ _ _ _ _ _ _ ?st) =>
          apply (run_facts_retry _ _ _ _ st _ body [])
      end; [lia|reflexivity|constructor|constructor|reflexivity|cbn; lia|apply IH]. }
  apply validateAndExecute_params in Hexec as Hparams.
  unfold bind at 1.
  match goal with
  | |- context [make_chart _ _ _ _ _ _ ?st] =>
      pose proof (make_chart_run ctx response execution st) as Hchart;
      cbn zeta in Hchart;
      destruct (make_chart client question options ctx response execution st)
        as [[e|chart] s''] eqn:Hmake
  end.
  all: destruct (rows execution) as [|row rest] eqn:Hrows.
  - discriminate Hchart.
  - destruct Hchart as (call & chartBody & Hposts1 & Hkind & Hcallctx & Hbody
                        & Hcrows & Hcfields & Hcsql & Hfrom).
    cbn [st_posts snd] in Hposts1.
    assert (Forall (fun call => forall chart, chart_body call = Some chart ->
                                              tags_only chart) [call]) as Hcalltags.
    { constructor; [|constructor]. intros chart' Hc'. rewrite Hbody in Hc'.
      injection Hc' as <-. unfold tags_only. rewrite Hcrows.
      apply anonymizeResults_tags. }
    assert (query_posts [call] = 0%nat) as Hzero
      by (unfold query_posts; cbn; by rewrite Hkind).
    assert (query_posts [PostQuery body ctx; call] = 1%nat) as Htwo
      by (unfold query_posts; cbn; by rewrite Hkind).
    destruct (attempt + 1 >? maxRetry)%Z eqn:Hlast.
    + apply (run_facts_throw _ _ _ _ _ _ [PostQuery body ctx; call]);
        [rewrite Hposts1; by rewrite <- app_assoc|by repeat constructor|
         constructor; [by intros chart' [=]|exact Hcalltags]|rewrite Htwo; lia|
         rewrite Htwo; cbn; lia].
    + apply (run_facts_retry _ _ _ _ s'' _ body [call]);
        [lia|rewrite Hposts1; by rewrite <- app_assoc|by repeat constructor|
         exact Hcalltags|exact Hzero|cbn; lia|apply IH].
  - injection Hchart as -> ->.
    exists [PostQuery body ctx]. rewrite Hone. cbn.
    split; [reflexivity|]. split; [by repeat constructor|].
    split; [constructor; [by intros chart' [=]|constructor]|].
    split; [lia|]. split; [lia|]. intros r [= <-]; cbn. split; [lia|].
    exists [], body, ctx, response, (db_world (st_db s)), w', [].
    cbn. by repeat split.
  - destruct Hchart as (call & chartBody & Hposts1 & Hkind & Hcallctx & Hbody
                        & Hcrows & Hcfields & Hcsql & Hfrom).
    cbn [st_posts snd] in Hposts1.
    assert (query_posts [PostQuery body ctx; call] = 1%nat) as Htwo
      by (unfold query_posts; cbn; by rewrite Hkind).
    unfold ret.
    exists [PostQuery body ctx; call]. rewrite Htwo. cbn [fst snd length].
    split; [rewrite Hposts1; by rewrite <- app_assoc|].
    split; [by repeat constructor|].
    split.
    { constructor; [by intros chart' [=]|]. constructor; [|constructor].
      intros chart' Hc'. rewrite Hbody in Hc'. injection Hc' as <-.
      unfold tags_only. rewrite Hcrows. apply anonymizeResults_tags. }
    split; [lia|]. split; [lia|]. intros r [= <-]; cbn. split; [lia|].
    exists [], body, ctx, response, (db_world (st_db s)), w', [call].
    cbn.
    split; [reflexivity|]. split; [exact Hpost|]. split; [exact Hdb|].
    split; [reflexivity|]. split; [reflexivity|]. split; [exact Hparams|].
    exists call, chartBody. repeat (split; [done|]). by apply Hfrom.
Qed.

(** A whole run of [ask]: without a tenant id nothing happens; with one,
    the loop runs from attempt 0 for the session id drawn at the start. *)
Lemma ask_run (s : State W) :
  match resolveTenantId client (tenantId options) with
  | inl e => ask randomUUID client queryEngine question options s = (inl e, s)
  | inr resolved =>
      run_facts client queryEngine options
        {| ctx_tenantId := resolved; ctx_userId := userId options;
           ctx_scopes := scopes options;
           ctx_sessionId := (randomUUID (db_world (st_db s))).1 |}
        (default 0%Z (maxRetry options)) 0 s
        (ask randomUUID client queryEngine question options s)
  end.
Proof.
  unfold ask, bind, lift_result, new_session.
  destruct (resolveTenantId client (tenantId options)) as [e|resolved]; [reflexivity|].
  destruct (randomUUID (db_world (st_db s))) as [sessionId w].
  cbn zeta. cbn [fst].
  match goal with
  | |- context [ask_loop _ _ _ _ ?fuel _ _ ?maxRetry _ ?lastError ?previousSql ?st] =>
      exact (ask_loop_run resolved sessionId maxRetry fuel 0%Z lastError previousSql st)
  end.
Qed.


(** X2: every request of one call of [ask], to [/query], [/chart] or
    [/vizspec], is made for the resolved tenant id and carries the user
    id and the scopes of the options and the one session id drawn at the
    start of the call. *)
Theorem ask_posts_share_context (s : State W) :
  let out := ask randomUUID client queryEngine question options s in
  exists new,
    st_posts out.2 = st_posts s ++ new
    /\ forall call, In call new ->
         resolveTenantId client (tenantId options)
           = inr (ctx_tenantId (post_ctx call))
         /\ ctx_sessionId (post_ctx call) = (randomUUID (db_world (st_db s))).1
         /\ ctx_userId (post_ctx call) = userId options
         /\ ctx_scopes (post_ctx call) = scopes options.
Proof.
  cbn zeta. pose proof (ask_run s) as Hrun.
  destruct (resolveTenantId client (tenantId options)) as [e|resolved].
  - rewrite Hrun. exists []. rewrite app_nil_r. split; [reflexivity|]. intros call [].
  - destruct Hrun as (new & Hposts & Hctx & _).
    exists new. split; [exact Hposts|]. intros call Hin.
    rewrite List.Forall_forall in Hctx. by rewrite (Hctx call Hin).
Qed.

(** X3: no cell of a result row leaves the process: in every chart
    request of a call of [ask], also those of attempts that failed, each
    cell of the rows is one of the type names [anonymizeResults] writes. *)
Theorem ask_chart_requests_anonymized (s : State W) :
  let out := ask randomUUID client queryEngine question options s in
  exists new,
    st_posts out.2 = st_posts s ++ new
    /\ forall call chart, In call new -> chart_body call = Some chart -> tags_only chart.
Proof.
  cbn zeta. pose proof (ask_run s) as Hrun.
  destruct (resolveTenantId client (tenantId options)) as [e|resolved].
  - rewrite Hrun. exists []. rewrite app_nil_r. split; [reflexivity|]. intros call chart [].
  - destruct Hrun as (new & Hposts & _ & Htags & _).
    exists new. split; [exact Hposts|]. intros call chart Hin.
    rewrite List.Forall_forall in Htags. by apply Htags.
Qed.

(** X4: a response ends the run at the [/query] request it answers: when
    the result has no rows, no chart request follows and the chart is the
    note that the query returned no rows; otherwise exactly one chart
    request follows, made of the response's statement, fields and
    anonymized rows, and the response carries the envelope made of its
    answer. *)
Theorem ask_response_chart (s : State W) (r : AskResponse) :
  let out := ask randomUUID client queryEngine question options s in
  out.1 = inr (Some r) ->
  exists earlier body ctx tail,
    st_posts out.2 = st_posts s ++ earlier ++ PostQuery body ctx :: tail
    /\ match ar_rows r with
       | [] => tail = [] /\ ar_chart r = no_rows_chart options
       | _ :: _ =>
           exists call chart,
             tail = [call]
             /\ chart_body call = Some chart
             /\ cr_rows chart = anonymizeResults (ar_rows r)
             /\ cr_fields chart = ar_fields r
             /\ cr_sql chart = ar_sql r
             /\ chart_from client (ar_rows r) call (ar_chart r)
       end.
Proof.
  cbn zeta. intros Hr. pose proof (ask_run s) as Hrun.
  destruct (resolveTenantId client (tenantId options)) as [e|resolved].
  - rewrite Hrun in Hr. discriminate Hr.
  - destruct Hrun as (new & Hposts & _ & _ & _ & _ & Hret).
    destruct (Hret r Hr) as [_ (earlier & body & ctx & response & w & w' & tail
                                & -> & _ & _ & _ & _ & _ & Hchart)].
    by exists earlier, body, ctx, tail.
Qed.

(** X5: the parameters of a response are those the engine left after its
    rewrite: when the database the statement ran on is columnar, has a
    tenant field other than [__proto__] and isolation is not switched
    off, they bind that field to the resolved tenant id, although the
    statement of the response is the generated one, without the tenant
    predicate the engine added to what it ran. *)
Theorem ask_params_carry_tenant (s : State W) (r : AskResponse) (resolved : string)
    (metadata : Engine.DatabaseMetadata) (tenantField : string) :
  (ask randomUUID client queryEngine question options s).1 = inr (Some r) ->
  resolveTenantId client (tenantId options) = inr resolved ->
  Engine.getDatabaseMetadata queryEngine (Some (ar_target_db r)) = Some metadata ->
  Engine.dialect metadata = clickhouse ->
  truthy_string (Engine.tenantFieldName metadata) = Some tenantField ->
  tenantField <> "__proto__" ->
  Engine.enforceTenantIsolation metadata <> Some false ->
  own (ar_params r) !! tenantField = Some (PString resolved)
  /\ exists body ctx response w w',
       In (PostQuery body ctx)
          (st_posts (ask randomUUID client queryEngine question options s).2)
       /\ post_query client body ctx w = (inr response, w')
       /\ ar_sql r = sql response.
Proof.
  intros Hr Htenant Hmeta _ Hfield Hproto Henforce. pose proof (ask_run s) as Hrun.
  rewrite Htenant in Hrun.
  destruct Hrun as (new & Hposts & _ & _ & _ & _ & Hret).
  destruct (Hret r Hr) as [_ (earlier & body & ctx & response & w & w' & tail
                              & -> & Hanswer & _ & Hsql & _ & Hparams & _)].
  cbn [ctx_tenantId] in Hparams. split.
  - rewrite Hparams. unfold rewritten. rewrite Hmeta.
    rewrite ensureTenantIsolation_params, Hfield.
    destruct (Engine.enforceTenantIsolation metadata) as [[]|]; try done.
    all: rewrite Obj_set_own by (by left); cbn [own].
    all: apply lookup_insert_eq.
  - exists body, ctx, response, w, w'. split; [|by split].
    rewrite Hposts. apply in_or_app. right. apply in_or_app. right. by left.
Qed.

(** X6: without a tenant id, in the options or as the client's default
    (an empty string counts as none, and an empty id in the options does
    not fall back to the default), [ask] throws before it draws a session
    id or sends anything. *)
Theorem ask_requires_tenant (s : State W) :
  truthy_string (nullish (tenantId options) (getDefaultTenantId client)) = None ->
  ask randomUUID client queryEngine question options s
  = (inl (ErrorObj
            "tenantId is required. Provide it per request or via defaultTenantId option."),
     s).
Proof.
  intros Hnone. unfold ask, bind at 1, lift_result at 1, resolveTenantId.
  by rewrite Hnone.
Qed.

(** X7: a failure of the [/query] request itself is not retried: when the
    first request is rejected, [ask] throws that error after this one
    request, whatever [maxRetry] allows. *)
Theorem ask_query_failure_not_retried (s : State W) (resolved : string) (e : Thrown)
    (w' : W) :
  let ctx :=
    {| ctx_tenantId := resolved; ctx_userId := userId options;
       ctx_scopes := scopes options;
       ctx_sessionId := (randomUUID (db_world (st_db s))).1 |} in
  let body :=
    query_request queryEngine question options (lastError options) (previousSql options) in
  resolveTenantId client (tenantId options) = inr resolved ->
  (0 <= default 0 (maxRetry options))%Z ->
  post_query client body ctx (randomUUID (db_world (st_db s))).2 = (inl e, w') ->
  ask randomUUID client queryEngine question options s
  = (inl e,
     {| st_db := {| db_world := w'; db_calls := db_calls (st_db s) |};
        st_posts := st_posts s ++ [PostQuery body ctx] |}).
Proof.
  cbn zeta. intros Htenant Hretry Hpost.
  unfold ask, bind at 1, lift_result at 1. rewrite Htenant.
  unfold bind at 1, new_session at 1.
  destruct (randomUUID (db_world (st_db s))) as [sessionId w].
  replace (Z.to_nat (default 0%Z (maxRetry options) + 1))
    with (S (Z.to_nat (default 0%Z (maxRetry options)))) by lia.
  rewrite ask_loop_step.
  assert ((0 <=? default 0 (maxRetry options))%Z = true) as -> by lia.
  cbn zeta. unfold bind at 1, post at 1. cbn [st_db st_posts db_world db_calls snd fst] in *.
  by rewrite Hpost.
Qed.

(** X8: a chart request that fails is not survived: when both chart
    endpoints reject every request, [ask] can only return a response for
    a result without rows. *)
Theorem ask_needs_chart_service (s : State W) (r : AskResponse) :
  (forall body ctx w, exists e w', post_chart client body ctx w = (inl e, w')) ->
  (forall body ctx w, exists e w', post_vizspec client body ctx w = (inl e, w')) ->
  (ask randomUUID client queryEngine question options s).1 = inr (Some r) ->
  ar_rows r = [].
Proof.
  intros Hchart Hvizspec Hr. pose proof (ask_run s) as Hrun.
  destruct (resolveTenantId client (tenantId options)) as [e|resolved].
  { rewrite Hrun in Hr. discriminate Hr. }
  destruct Hrun as (new & _ & _ & _ & _ & _ & Hret).
  destruct (Hret r Hr) as [_ (earlier & body & ctx & response & w & w' & tail
                              & _ & _ & _ & _ & _ & _ & Hrows)].
  destruct (ar_rows r) as [|row rest]; [reflexivity|].
  destruct Hrows as (call & chart & _ & _ & _ & _ & _ & Hfrom).
  destruct call as [? ?|cbody cctx|cbody cctx]; [destruct Hfrom|..].
  - destruct Hfrom as (w1 & w2 & answer & Hpost & _).
    destruct (Hvizspec cbody cctx w1) as (e & w3 & Hfail). congruence.
  - destruct Hfrom as (w1 & w2 & answer & Hpost & _).
    destruct (Hchart cbody cctx w1) as (e & w3 & Hfail). congruence.
Qed.

End AskRuns.

Section AskWitnesses.
Import Query.

Lemma ask_response_chart_witness :
  exists r earlier body ctx,
    (ask fixed_session users_client users_engine "test" two_retries fresh).1
      = inr (Some r)
    /\ st_posts (ask fixed_session users_client users_engine "test" two_retries fresh).2
       = earlier ++ [PostQuery body ctx]
    /\ ar_chart r = no_rows_chart two_retries.
Proof.
  eexists.
  assert (Hr : (ask fixed_session users_client users_engine "test" two_retries fresh).1
               = inr (Some _)) by (vm_compute; reflexivity).
  destruct (ask_response_chart fixed_session users_client users_engine "test"
              two_retries fresh _ Hr)
    as (earlier & body & ctx & tail & Hposts & Htail & Hchart).
  exists earlier, body, ctx. subst tail. split; [exact Hr|]. split; [exact Hposts|].
  exact Hchart.
Defined.

Lemma ask_params_carry_tenant_witness :
  exists r,
    (ask fixed_session users_client columnar_engine "test" two_retries fresh).1
      = inr (Some r)
    /\ ar_sql r = "SELECT * FROM users"
    /\ own (ar_params r) !! "tenant_id" = Some (PString "tenant-1").
Proof.
  eexists.
  assert (Hr : (ask fixed_session users_client columnar_engine "test" two_retries
                  fresh).1
               = inr (Some _)) by (vm_compute; reflexivity).
  split; [exact Hr|]. split; [reflexivity|].
  apply (ask_params_carry_tenant fixed_session users_client columnar_engine "test"
           two_retries fresh _ "tenant-1" (tenant_metadata clickhouse) "tenant_id" Hr).
  - reflexivity.
  - reflexivity.
  - reflexivity.
  - reflexivity.
  - discriminate.
  - discriminate.
Defined.

Lemma ask_requires_tenant_witness :
  ask fixed_session unreachable_client refusing_engine "test" empty_tenant fresh
  = (inl (ErrorObj
            "tenantId is required. Provide it per request or via defaultTenantId option."),
     fresh).
Proof.
  apply (ask_requires_tenant fixed_session unreachable_client refusing_engine "test"
           empty_tenant fresh).
  reflexivity.
Defined.

Lemma ask_query_failure_not_retried_witness :
  (ask fixed_session unreachable_client refusing_engine "test" two_retries fresh).1
    = inl (ErrorObj "fetch failed")
  /\ query_posts
       (st_posts
          (ask fixed_session unreachable_client refusing_engine "test" two_retries
             fresh).2) = 1%nat.
Proof.
  rewrite (ask_query_failure_not_retried fixed_session unreachable_client refusing_engine
             "test" two_retries fresh "tenant-1" (ErrorObj "fetch failed") ()).
  - split; reflexivity.
  - reflexivity.
  - cbn. lia.
  - reflexivity.
Defined.

Lemma ask_needs_chart_service_witness :
  exists r,
    (ask fixed_session users_client users_engine "test" two_retries fresh).1
      = inr (Some r)
    /\ ar_rows r = [].
Proof.
  eexists.
  assert (Hr : (ask fixed_session users_client users_engine "test" two_retries fresh).1
               = inr (Some _)) by (vm_compute; reflexivity).
  split; [exact Hr|].
  apply (ask_needs_chart_service fixed_session users_client users_engine "test"
           two_retries fresh _).
  - intros body ctx w. by eexists _, _.
  - intros body ctx w. by eexists _, _.
  - exact Hr.
Defined.

End AskWitnesses.

(** ** Character classes, [trim] and [split] *)

Section ClassFacts.

Lemma str_rev_app_distr s t : String.rev (s +:+ t) = String.rev t +:+ String.rev s.
Proof.
  unfold String.rev. rewrite str_rev_app_app, !str_rev_app_rev.
  by rewrite !str_app_empty_r.
Qed.

Lemma str_rev_cons c s : String.rev (String c s) = String.rev s +:+ String c EmptyString.
Proof.
  change (String c s) with (String c EmptyString +:+ s). by rewrite str_rev_app_distr.
Qed.

Lemma str_rev_length s : String.length (String.rev s) = String.length s.
Proof. unfold String.rev. rewrite str_rev_app_length. cbn. lia. Qed.

Lemma str_app_inv_head s t u : s +:+ t = s +:+ u -> t = u.
Proof. induction s as [|c s IH]; [done|]. rewrite !str_app_cons. intros [= H]. auto. Qed.

Lemma str_length_zero s : String.length s = 0%nat -> s = EmptyString.
Proof. by destruct s. Qed.

Lemma all_chars_app p s t : all_chars p (s +:+ t) = all_chars p s && all_chars p t.
Proof.
  induction s as [|c s IH]; [done|]. rewrite str_app_cons. cbn. rewrite IH.
  by rewrite andb_assoc.
Qed.

Lemma all_chars_rev p s : all_chars p (String.rev s) = all_chars p s.
Proof.
  induction s as [|c s IH]; [done|]. rewrite str_rev_cons, all_chars_app, IH. cbn.
  rewrite andb_true_r. apply andb_comm.
Qed.

Lemma all_chars_impl (p q : ascii -> bool) s :
  (forall c, p c = true -> q c = true) -> all_chars p s = true -> all_chars q s = true.
Proof.
  intros Hpq. induction s as [|c s IH]; [done|]. cbn.
  intros [Hc Hs]%andb_true_iff. rewrite (Hpq c Hc). cbn. auto.
Qed.

Lemma drop_while_split p s :
  exists l, s = l +:+ Js.drop_while p s /\ all_chars p l = true.
Proof.
  induction s as [|c s (l & Hs & Hl)]; [by exists EmptyString|]. cbn.
  destruct (p c) eqn:Hc.
  - exists (String c l). rewrite str_app_cons, <- Hs. cbn. by rewrite Hc.
  - by exists EmptyString.
Qed.

Lemma drop_while_idem p s : Js.drop_while p (Js.drop_while p s) = Js.drop_while p s.
Proof.
  induction s as [|c s IH]; [done|]. cbn. destruct (p c) eqn:Hc; [exact IH|].
  cbn. by rewrite Hc.
Qed.

Lemma drop_while_app_fixed p s t :
  s <> EmptyString -> Js.drop_while p (s +:+ t) = s +:+ t -> Js.drop_while p s = s.
Proof.
  destruct s as [|c s]; [done|]. intros _. rewrite str_app_cons. cbn.
  destruct (p c); [|done]. intros H.
  destruct (drop_while_split p (s +:+ t)) as (l & Hsplit & _).
  apply (f_equal String.length) in Hsplit. rewrite H in Hsplit.
  rewrite (str_app_length l) in Hsplit. cbn in Hsplit. lia.
Qed.

Lemma drop_while_none p s :
  all_chars (fun c => negb (p c)) s = true -> Js.drop_while p s = s.
Proof. destruct s as [|c s]; [done|]. cbn. by destruct (p c). Qed.

(** [s.trim()] is [s] without a run of white space at either end, and has
    no white space at its ends. *)
Lemma trim_split s :
  exists l r,
    s = l +:+ Js.trim s +:+ r
    /\ all_chars Js.is_white_space l = true /\ all_chars Js.is_white_space r = true
    /\ no_outer_space (Js.trim s).
Proof.
  unfold Js.trim.
  destruct (drop_while_split Js.is_white_space s) as (l & Hs & Hl).
  set (a := Js.drop_while Js.is_white_space s) in *.
  destruct (drop_while_split Js.is_white_space (String.rev a)) as (r & Ha & Hr).
  set (b := Js.drop_while Js.is_white_space (String.rev a)) in *.
  assert (a = String.rev b +:+ String.rev r) as Hab.
  { rewrite <- (str_rev_involutive a), Ha. apply str_rev_app_distr. }
  exists l, (String.rev r).
  split; [by rewrite <- Hab|]. split; [exact Hl|].
  split; [by rewrite all_chars_rev|]. split.
  - destruct (String.rev b) as [|c rb] eqn:Hrb; [done|].
    apply (drop_while_app_fixed _ _ (String.rev r)); [done|].
    rewrite <- Hab. apply drop_while_idem.
  - rewrite str_rev_involutive. apply drop_while_idem.
Qed.

Lemma trim_fixed s : no_outer_space s -> Js.trim s = s.
Proof. intros [H1 H2]. unfold Js.trim. by rewrite H1, H2, str_rev_involutive. Qed.

Lemma trim_idempotent s : Js.trim (Js.trim s) = Js.trim s.
Proof. destruct (trim_split s) as (l & r & _ & _ & _ & H). by apply trim_fixed. Qed.

Lemma trim_all_chars p s : all_chars p s = true -> all_chars p (Js.trim s) = true.
Proof.
  destruct (trim_split s) as (l & r & Hs & _). intros H. rewrite Hs in H.
  rewrite !all_chars_app in H. by destruct (all_chars p l), (all_chars p (Js.trim s)).
Qed.

Lemma trim_length s : (String.length (Js.trim s) <= String.length s)%nat.
Proof.
  destruct (trim_split s) as (l & r & Hs & _).
  apply (f_equal String.length) in Hs. rewrite !str_app_length in Hs. lia.
Qed.

Lemma trim_no_space s : all_chars not_space s = true -> Js.trim s = s.
Proof.
  intros H. apply trim_fixed. split; apply drop_while_none; [exact H|].
  by rewrite all_chars_rev.
Qed.

Lemma truthy_length s : Js.truthy s = true <-> s <> EmptyString.
Proof. by destruct s. Qed.

Lemma remove_chars_all p s : all_chars (fun c => negb (p c)) (Js.remove_chars p s) = true.
Proof.
  induction s as [|c s IH]; [done|]. cbn. destruct (p c) eqn:Hc; [exact IH|].
  cbn. by rewrite Hc.
Qed.

(** [split]: the first part grows with the text read so far. *)
Lemma split_go_acc sep cur s :
  Js.split_go sep cur s
  = match Js.split sep s with
    | [] => []
    | part :: parts => (String.rev cur +:+ part) :: parts
    end.
Proof.
  unfold Js.split. revert cur. induction s as [|c s IH]; intros cur; cbn.
  - by rewrite str_app_empty_r.
  - destruct (ascii_dec c sep).
    + by rewrite str_app_empty_r.
    + rewrite (IH (String c cur)), (IH (String c EmptyString)).
      destruct (Js.split_go sep EmptyString s) as [|part parts]; [done|].
      by rewrite str_rev_cons, str_app_assoc.
Qed.

Lemma split_cons_other sep c s :
  c <> sep ->
  Js.split sep (String c s)
  = match Js.split sep s with
    | [] => []
    | part :: parts => String c part :: parts
    end.
Proof.
  intros Hc. unfold Js.split at 1. cbn. destruct (ascii_dec c sep); [done|].
  by rewrite split_go_acc.
Qed.

Lemma split_cons_sep sep s :
  Js.split sep (String sep s) = EmptyString :: Js.split sep s.
Proof. unfold Js.split. cbn. by destruct (ascii_dec sep sep). Qed.


(** No part of a split contains the separator. *)
Lemma split_parts sep s :
  Forall (fun part => all_chars (not_char sep) part = true) (Js.split sep s).
Proof.
  induction s as [|c s IH]; [by repeat constructor|].
  destruct (ascii_dec c sep) as [->|Hc].
  - rewrite split_cons_sep. by constructor.
  - rewrite split_cons_other by done.
    destruct (Js.split sep s) as [|part parts]; [constructor|].
    inversion IH as [|? ? Hpart Hparts]; subst. constructor; [|exact Hparts].
    cbn. unfold not_char at 1. by destruct (ascii_dec c sep).
Qed.

(** A text without the separator is its own single part; the parts of
    [s + sep + t] are [s] and the parts of [t]. *)
Lemma split_none sep s :
  all_chars (not_char sep) s = true -> Js.split sep s = [s].
Proof.
  induction s as [|c s IH]; [done|]. intros Hs. cbn in Hs. unfold not_char at 1 in Hs.
  destruct (ascii_dec c sep) as [|Hc]; [done|].
  rewrite split_cons_other by done. by rewrite IH.
Qed.

Lemma split_app sep s t :
  all_chars (not_char sep) s = true ->
  Js.split sep (s +:+ String sep t) = s :: Js.split sep t.
Proof.
  induction s as [|c s IH]; [intros _; apply split_cons_sep|].
  intros Hs. cbn in Hs. unfold not_char at 1 in Hs.
  destruct (ascii_dec c sep) as [|Hc]; [done|].
  rewrite str_app_cons, split_cons_other by done. by rewrite IH.
Qed.

End ClassFacts.

(** ** Patterns made of character classes *)

Section ClassPatterns.
Import Regex.

(** The matcher runs [[p]*] as [class_star] does. *)
Lemma star_loop_class p k : forall fuel left_rev s caps,
  (String.length s <= fuel)%nat ->
  star_loop (Char p) k fuel (MState left_rev s caps) = class_star p k s left_rev caps.
Proof.
  induction fuel as [|fuel IH]; intros left_rev s caps Hfuel.
  - destruct s; [reflexivity|cbn in Hfuel; lia].
  - destruct s as [|c rest]; [reflexivity|]. cbn [star_loop matcher remaining class_star].
    destruct (p c); [|reflexivity]. cbn [remaining consumed captures].
    assert ((String.length rest <? String.length (String c rest))%nat = true) as ->
      by (apply Nat.ltb_lt; cbn; lia).
    rewrite IH by (cbn in Hfuel; lia). reflexivity.
Qed.

Lemma matcher_star_class p st k :
  matcher (Star (Char p)) st k
  = class_star p k (remaining st) (consumed st) (captures st).
Proof. rewrite matcher_star. destruct st. by apply star_loop_class. Qed.

(** A success of [[p]*] is a success of what follows it after some run
    of [p]. *)
Lemma class_star_inv p k : forall s left_rev caps res,
  class_star p k s left_rev caps = Some res ->
  exists t u,
    s = t +:+ u /\ all_chars p t = true
    /\ k (MState (String.rev_app t left_rev) u caps) = Some res.
Proof.
  induction s as [|c rest IH]; intros left_rev caps res; cbn.
  - intros H. by exists EmptyString, EmptyString.
  - destruct (p c) eqn:Hc.
    + destruct (class_star p k rest (String c left_rev) caps) as [res'|] eqn:Hrest.
      * intros [= <-]. destruct (IH _ _ _ Hrest) as (t & u & -> & Ht & Hk).
        exists (String c t), u. cbn. by rewrite Hc.
      * intros H. by exists EmptyString, (String c rest).
    + intros H. by exists EmptyString, (String c rest).
Qed.

(** When what follows only succeeds with [rest] left to read, [[p]*]
    takes all of a run of [p] that ends where [rest] starts. *)
Lemma class_star_exact p k (rest : string) :
  (forall st, remaining st <> rest -> k st = None) ->
  forall t left_rev caps,
    all_chars p t = true ->
    class_star p k (t +:+ rest) left_rev caps
    = k (MState (String.rev_app t left_rev) rest caps).
Proof.
  intros Hk.
  assert (forall s left_rev caps,
            (String.length s < String.length rest)%nat ->
            class_star p k s left_rev caps = None) as Hshort.
  { intros s left_rev caps Hlen.
    destruct (class_star p k s left_rev caps) as [res|] eqn:Hres; [|reflexivity].
    destruct (class_star_inv _ _ _ _ _ _ Hres) as (t & u & -> & _ & Hu).
    rewrite Hk in Hu; [done|]. cbn. intros ->. rewrite str_app_length in Hlen. lia. }
  induction t as [|c t IH]; intros left_rev caps Ht.
  - rewrite str_app_empty_l. cbn [String.rev_app].
    destruct rest as [|c rest']; [reflexivity|]. cbn.
    destruct (p c); [|reflexivity]. rewrite Hshort by (cbn; lia). reflexivity.
  - cbn in Ht. apply andb_true_iff in Ht as [Hc Ht].
    rewrite str_app_cons. cbn. rewrite Hc, IH by exact Ht.
    destruct (k (MState (String.rev_app t (String c left_rev)) rest caps)) as [res|];
      [reflexivity|].
    apply Hk. cbn. intros H. apply (f_equal String.length) in H.
    cbn in H. rewrite str_app_length in H. lia.
Qed.

(** A pattern that starts with [^] matches at the start of the input or
    not at all. *)
Lemma search_anchored r s : forall before_rev,
  before_rev <> EmptyString -> search (Seq LineStart r) before_rev s = None.
Proof.
  induction s as [|c s IH]; intros before_rev Hne.
  all: destruct before_rev as [|b before_rev]; [done|]; cbn; auto.
Qed.

Lemma exec_anchored r s :
  exec (Seq LineStart r) s
  = result_of EmptyString <$> matcher r (MState EmptyString s []) Some.
Proof.
  unfold exec. destruct s as [|c s]; cbn [search match_here matcher consumed].
  - by destruct (matcher r _ _).
  - destruct (matcher r _ _); [reflexivity|]. by apply search_anchored.
Qed.

Lemma line_end_only (k : mstate -> option mstate) st :
  remaining st <> EmptyString -> matcher LineEnd st k = None.
Proof. cbn. by destruct (remaining st). Qed.

(** One step of the matcher at each construct. *)
Lemma matcher_Seq r1 r2 st k :
  matcher (Seq r1 r2) st k = matcher r1 st (fun st1 => matcher r2 st1 k).
Proof. reflexivity. Qed.

Lemma matcher_Empty st k : matcher Empty st k = k st.
Proof. reflexivity. Qed.

Lemma matcher_Char p st k :
  matcher (Char p) st k
  = match remaining st with
    | String c rest =>
        if p c then k (MState (String c (consumed st)) rest (captures st)) else None
    | EmptyString => None
    end.
Proof. reflexivity. Qed.

Lemma matcher_Alt r1 r2 st k :
  matcher (Alt r1 r2) st k
  = match matcher r1 st k with Some res => Some res | None => matcher r2 st k end.
Proof. reflexivity. Qed.

Lemma matcher_Group i r st k :
  matcher (Group i r) st k
  = matcher r st (fun st1 => k (set_capture i (text_between st st1) st1)).
Proof. reflexivity. Qed.

Lemma matcher_LineStart st k :
  matcher LineStart st k
  = match consumed st with EmptyString => k st | String _ _ => None end.
Proof. reflexivity. Qed.

Lemma matcher_LineEnd st k :
  matcher LineEnd st k
  = match remaining st with EmptyString => k st | String _ _ => None end.
Proof. reflexivity. Qed.

(** [isSafeIdentifier] accepts exactly the identifiers. *)
Lemma isSafeIdentifier_true value :
  Postgres.isSafeIdentifier value = true <-> is_identifier value.
Proof.
  unfold Postgres.isSafeIdentifier, test, Postgres.safeIdentifierPattern.
  rewrite exec_anchored. unfold Postgres.identifier.
  rewrite !matcher_Seq, matcher_Char. cbn [remaining consumed captures].
  destruct value as [|c rest].
  { cbn. split; [done|]. by intros (c & rest & [=] & _). }
  destruct (Js.is_ident_start c) eqn:Hc.
  2: { cbn. split; [done|]. intros (c' & rest' & [= <- <-] & Hc' & _). congruence. }
  rewrite matcher_star_class. cbn [remaining consumed captures].
  split.
  - destruct (class_star _ _ _ _ _) as [res|] eqn:Hres; [intros _|done].
    apply class_star_inv in Hres as (t & u & -> & Ht & Hu).
    exists c, (t +:+ u). split; [reflexivity|]. split; [exact Hc|].
    cbn in Hu. destruct u; [|done]. by rewrite str_app_empty_r.
  - intros (c' & rest' & [= <- <-] & _ & Hrest).
    rewrite <- (str_app_empty_r rest).
    rewrite (class_star_exact _ _ EmptyString) by (by apply line_end_only || exact Hrest).
    reflexivity.
Qed.

End ClassPatterns.

(** ** Table filters *)

Section TableFilters.

Lemma word_char_not_space c : Js.is_word_char c = true -> not_space c = true.
Proof. destruct c as [[] [] [] [] [] [] [] []]; vm_compute; congruence. Qed.

Lemma word_char_not_dot c : Js.is_word_char c = true -> not_char "." c = true.
Proof. destruct c as [[] [] [] [] [] [] [] []]; vm_compute; congruence. Qed.

Lemma word_char_not_quote c : Js.is_word_char c = true -> not_char "'" c = true.
Proof. destruct c as [[] [] [] [] [] [] [] []]; vm_compute; congruence. Qed.

Lemma ident_start_word_char c : Js.is_ident_start c = true -> Js.is_word_char c = true.
Proof. destruct c as [[] [] [] [] [] [] [] []]; vm_compute; congruence. Qed.

Lemma identifier_word_chars s : is_identifier s -> all_chars Js.is_word_char s = true.
Proof.
  intros (c & rest & -> & Hc & Hrest). cbn. by rewrite (ident_start_word_char c Hc).
Qed.

Lemma identifier_truthy s : is_identifier s -> Js.truthy s = true.
Proof. by intros (c & rest & -> & _). Qed.

Lemma count_char_app x s t : count_char x (s +:+ t) = (count_char x s + count_char x t)%nat.
Proof.
  induction s as [|c s IH]; [done|]. rewrite str_app_cons. cbn. rewrite IH. lia.
Qed.

Lemma count_char_none x s : all_chars (not_char x) s = true -> count_char x s = 0%nat.
Proof.
  induction s as [|c s IH]; [done|]. cbn. unfold not_char at 1.
  destruct (ascii_dec c x); [done|]. exact IH.
Qed.

(** What the loop of the relational [normalizeTableFilter] keeps. *)
Lemma pg_normalize_loop_facts defaultSchema : forall tables seen,
  let out := Postgres.normalize_loop defaultSchema tables seen in
  Forall pg_safe out /\ NoDup (map pg_key out) /\ Forall (fun t => pg_key t ∉ seen) out.
Proof.
  induction tables as [|raw tables IH]; intros seen; cbn zeta.
  { cbn. split; [constructor|]. split; [constructor|constructor]. }
  cbn [Postgres.normalize_loop].
  destruct (negb (Js.truthy raw)); [apply IH|].
  destruct (negb (Js.truthy (Js.trim raw))); [apply IH|].
  destruct (Postgres.pop (Js.split "." (Js.trim raw))) as [tbl parts1].
  destruct (Postgres.pop parts1) as [sch parts2].
  destruct (Postgres.isSafeIdentifier (default defaultSchema sch)) eqn:Hsch; [|apply IH].
  destruct (Postgres.isSafeIdentifier (default EmptyString tbl)) eqn:Htbl; [|apply IH].
  cbn [negb orb].
  destruct (decide (Postgres.tableKey _ _ ∈ seen)) as [Hin|Hout]; [apply IH|].
  destruct (IH ({[ Postgres.tableKey (default defaultSchema sch) (default EmptyString tbl) ]}
                ∪ seen)) as (Hsafe & Hnodup & Hseen).
  split; [|split].
  - constructor; [|exact Hsafe]. split; by apply isSafeIdentifier_true.
  - cbn. apply NoDup_cons_2; [|exact Hnodup].
    intros Hin%list_elem_of_In. apply in_map_iff in Hin as (t & Hkey & Hin).
    rewrite List.Forall_forall in Hseen. apply (Hseen t Hin).
    rewrite Hkey. unfold pg_key. cbn. apply elem_of_union_l. by apply elem_of_singleton.
  - constructor; [exact Hout|].
    eapply List.Forall_impl; [|exact Hseen]. cbn. intros t Ht Hin.
    by apply Ht, elem_of_union_r.
Qed.

Lemma pg_key_split (t : Postgres.NormalizedTable) :
  pg_safe t ->
  Js.truthy (pg_key t) = true
  /\ Js.trim (pg_key t) = pg_key t
  /\ Js.split "." (pg_key t) = [Postgres.schema t; Postgres.table t].
Proof.
  intros [Hs Ht]. unfold pg_key, Postgres.tableKey.
  pose proof (identifier_word_chars _ Hs) as Hsw.
  pose proof (identifier_word_chars _ Ht) as Htw.
  split; [|split].
  - destruct Hs as (c & rest & -> & _). reflexivity.
  - apply trim_no_space. rewrite !all_chars_app.
    rewrite (all_chars_impl _ _ _ word_char_not_space Hsw).
    by rewrite (all_chars_impl _ _ _ word_char_not_space Htw).
  - change ("." +:+ Postgres.table t) with (String "." (Postgres.table t)).
    rewrite split_app by exact (all_chars_impl _ _ _ word_char_not_dot Hsw).
    by rewrite split_none by exact (all_chars_impl _ _ _ word_char_not_dot Htw).
Qed.

Lemma pg_normalize_loop_keys defaultSchema : forall (l : list Postgres.NormalizedTable) seen,
  Forall pg_safe l -> NoDup (map pg_key l) -> Forall (fun t => pg_key t ∉ seen) l ->
  Postgres.normalize_loop defaultSchema (map pg_key l) seen = l.
Proof.
  induction l as [|t l IH]; intros seen Hsafe Hnodup Hseen; [reflexivity|].
  inversion Hsafe as [|? ? Ht Hl]; subst.
  inversion Hseen as [|? ? Hts Hls]; subst.
  apply NoDup_cons in Hnodup as [Hnotin Hnodup].
  destruct (pg_key_split t Ht) as (Htruthy & Htrim & Hsplit).
  cbn [map Postgres.normalize_loop]. rewrite Htruthy, Htrim, Htruthy, Hsplit.
  cbn [negb Postgres.pop last removelast default]. unfold id.
  destruct Ht as [Hsch Htbl].
  rewrite (proj2 (isSafeIdentifier_true _) Hsch), (proj2 (isSafeIdentifier_true _) Htbl).
  cbn [negb orb]. fold (pg_key t).
  destruct (decide (pg_key t ∈ seen)) as [Hin|_]; [done|].
  rewrite IH; [by destruct t|exact Hl|exact Hnodup|].
  rewrite List.Forall_forall in Hls |- *. intros t' Hin.
  assert (pg_key t' <> pg_key t) as Hne.
  { intros Heq. apply Hnotin. rewrite <- Heq. by apply list_elem_of_In, in_map. }
  specialize (Hls t' Hin). apply not_elem_of_union. split; [|exact Hls].
  by apply not_elem_of_singleton.
Qed.

(** What the loop of the columnar [normalizeTableFilter] keeps. *)
Lemma ch_normalize_loop_facts : forall tables seen,
  let out := ClickHouse.normalize_loop tables seen in
  Forall (fun name => name <> EmptyString /\ all_chars (not_char ".") name = true) out
  /\ NoDup out /\ Forall (fun name => name ∉ seen) out.
Proof.
  induction tables as [|table tables IH]; intros seen; cbn zeta.
  { cbn. split; [constructor|]. split; [constructor|constructor]. }
  cbn [ClickHouse.normalize_loop].
  destruct (negb (Js.truthy table)); [apply IH|].
  destruct (negb (Js.truthy (Js.trim table))); [apply IH|].
  pose proof (split_parts "." (Js.trim table)) as Hparts.
  destruct (last (Js.split "." (Js.trim table))) as [tableName|] eqn:Hlast;
    cbn [default]; unfold id; [|cbn; apply IH].
  destruct (Js.truthy tableName) eqn:Htruthy; cbn [negb orb]; [|apply IH].
  case_bool_decide as Hseen0; [apply IH|].
  destruct (IH ({[ tableName ]} ∪ seen)) as (Hok & Hnodup & Hseen).
  split; [|split].
  - constructor; [|exact Hok]. split; [by destruct tableName|].
    rewrite List.Forall_forall in Hparts. apply Hparts.
    apply list_elem_of_In, last_Some_elem_of, Hlast.
  - apply NoDup_cons_2; [|exact Hnodup]. intros Hin%list_elem_of_In.
    rewrite List.Forall_forall in Hseen. apply (Hseen _ Hin).
    apply elem_of_union_l. by apply elem_of_singleton.
  - constructor; [exact Hseen0|].
    eapply List.Forall_impl; [|exact Hseen]. cbn. intros t Ht Hin.
    by apply Ht, elem_of_union_r.
Qed.

Lemma count_char_join x sep (l : list string) :
  count_char x sep = 0%nat ->
  count_char x (Engine.join sep l) = foldr (fun s n => (count_char x s + n)%nat) 0%nat l.
Proof.
  intros Hsep. induction l as [|s l IH]; [reflexivity|].
  destruct l as [|s' l]; [cbn; lia|].
  change (Engine.join sep (s :: s' :: l)) with (s +:+ sep +:+ Engine.join sep (s' :: l)).
  rewrite !count_char_app, Hsep, IH. reflexivity.
Qed.

(** X9: every entry of a normalized relational table filter names a
    schema and a table that are identifiers (a letter or an underscore,
    then letters, digits and underscores), and no two entries have the
    same key [schema.table]. *)
Theorem pg_normalizeTableFilter_safe (tables : option (list string))
    (defaultSchema : string) :
  let out := Postgres.normalizeTableFilter tables defaultSchema in
  Forall pg_safe out /\ NoDup (map pg_key out).
Proof.
  cbn zeta. unfold Postgres.normalizeTableFilter.
  destruct tables as [[|raw tables]|]; try (split; constructor).
  destruct (pg_normalize_loop_facts defaultSchema (raw :: tables) ∅) as (H1 & H2 & _).
  by split.
Qed.

(** X10: normalizing is a round trip on its own output: the keys
    [schema.table] of a normalized filter normalize to that filter again,
    whatever the default schema. *)
Theorem pg_normalizeTableFilter_round_trip (tables : option (list string))
    (defaultSchema defaultSchema' : string) :
  let out := Postgres.normalizeTableFilter tables defaultSchema in
  Postgres.normalizeTableFilter (Some (map pg_key out)) defaultSchema' = out.
Proof.
  cbn zeta.
  assert (Forall pg_safe (Postgres.normalizeTableFilter tables defaultSchema)
          /\ NoDup (map pg_key (Postgres.normalizeTableFilter tables defaultSchema)))
    as [Hsafe Hnodup].
  { unfold Postgres.normalizeTableFilter.
    destruct tables as [[|raw tables]|]; try (split; constructor).
    destruct (pg_normalize_loop_facts defaultSchema (raw :: tables) ∅) as (H1 & H2 & _).
    by split. }
  destruct (Postgres.normalizeTableFilter tables defaultSchema) as [|t l] eqn:Hout;
    [reflexivity|].
  unfold Postgres.normalizeTableFilter at 1. cbn [map].
  change (pg_key t :: map pg_key l) with (map pg_key (t :: l)).
  apply pg_normalize_loop_keys; [exact Hsafe|exact Hnodup|].
  apply List.Forall_forall. intros t' _. apply not_elem_of_empty.
Qed.

(** X11: every entry of a normalized columnar table filter is a
    non-empty name without a dot, and no name occurs twice. *)
Theorem ch_normalizeTableFilter_names (tables : option (list string)) :
  let out := ClickHouse.normalizeTableFilter tables in
  Forall (fun name => name <> EmptyString /\ all_chars (not_char ".") name = true) out
  /\ NoDup out.
Proof.
  cbn zeta. unfold ClickHouse.normalizeTableFilter.
  destruct tables as [[|raw tables]|]; try (split; constructor).
  destruct (ch_normalize_loop_facts (raw :: tables) ∅) as (H1 & H2 & _).
  by split.
Qed.

(** X12: the catalog filter built from a normalized table filter is
    empty for an empty filter and otherwise contains, next to those of
    the two column expressions, exactly the four single quotes per entry
    that delimit its two literals: no name closes a literal. *)
Theorem buildFilterClause_quotes (tables : option (list string))
    (defaultSchema schemaExpr tableExpr : string) :
  let out := Postgres.normalizeTableFilter tables defaultSchema in
  (out = [] -> PostgresCatalog.buildFilterClause out schemaExpr tableExpr = EmptyString)
  /\ count_char "'" (PostgresCatalog.buildFilterClause out schemaExpr tableExpr)
     = (length out * (4 + count_char "'" schemaExpr + count_char "'" tableExpr))%nat.
Proof.
  cbn zeta.
  assert (Forall pg_safe (Postgres.normalizeTableFilter tables defaultSchema)) as Hsafe.
  { unfold Postgres.normalizeTableFilter.
    destruct tables as [[|raw tables]|]; try constructor.
    by destruct (pg_normalize_loop_facts defaultSchema (raw :: tables) ∅) as (H1 & _). }
  split; [by intros ->|].
  destruct (Postgres.normalizeTableFilter tables defaultSchema) as [|t l]; [reflexivity|].
  unfold PostgresCatalog.buildFilterClause.
  rewrite !count_char_app, count_char_join by reflexivity.
  change (count_char "'" "AND (") with 0%nat. change (count_char "'" ")") with 0%nat.
  rewrite Nat.add_0_l, Nat.add_0_r.
  induction Hsafe as [|t' l' [Hsch Htbl] Hl IH]; [reflexivity|].
  cbn [map foldr length]. rewrite IH, !count_char_app.
  rewrite (count_char_none "'" (Postgres.schema t'))
    by exact (all_chars_impl _ _ _ word_char_not_quote (identifier_word_chars _ Hsch)).
  rewrite (count_char_none "'" (Postgres.table t'))
    by exact (all_chars_impl _ _ _ word_char_not_quote (identifier_word_chars _ Htbl)).
  change (count_char "'" "(") with 0%nat. change (count_char "'" " = '") with 1%nat.
  change (count_char "'" "' AND ") with 1%nat. change (count_char "'" "')") with 1%nat.
  lia.
Qed.

(** X13: [isSafeIdentifier] accepts exactly the identifiers: a first
    code unit that is a letter or an underscore, then letters, digits
    and underscores only. *)
Theorem isSafeIdentifier_spec (value : string) :
  Postgres.isSafeIdentifier value = true
  <-> exists c rest,
        value = String c rest /\ Js.is_ident_start c = true
        /\ all_chars Js.is_word_char rest = true.
Proof. exact (isSafeIdentifier_true value). Qed.

End TableFilters.

(** ** Positional parameters and placeholders *)

Section Placeholders.
Import Postgres Regex.

Lemma text_between_consumed st st1 t :
  consumed st1 = String.rev_app t (consumed st) -> text_between st st1 = t.
Proof.
  intros Hconsumed. unfold text_between. rewrite Hconsumed, str_rev_app_length.
  replace (String.length t + String.length (consumed st) - String.length (consumed st))%nat
    with (String.length (String.rev t)) by (rewrite str_rev_length; lia).
  by rewrite str_rev_app_rev, substring_prefix, str_rev_involutive.
Qed.

Lemma remaining_set_capture i txt st : remaining (set_capture i txt st) = remaining st.
Proof. reflexivity. Qed.

(** What can follow the name of a placeholder: [>] and the end. *)
Lemma closing_only (x : ascii) st :
  remaining st <> String x EmptyString ->
  matcher (Seq (char_eq x) LineEnd) st Some = None.
Proof.
  rewrite matcher_Seq. unfold char_eq. rewrite matcher_Char.
  destruct (remaining st) as [|c [|c' rest]]; [done| |].
  - destruct (ascii_dec c x) as [->|]; [done|done].
  - destruct (ascii_dec c x); [|done]. by rewrite matcher_LineEnd.
Qed.

Lemma closing_match (x : ascii) left_rev caps :
  matcher (Seq (char_eq x) LineEnd) (MState left_rev (String x EmptyString) caps) Some
  = Some (MState (String x left_rev) EmptyString caps).
Proof.
  rewrite matcher_Seq. unfold char_eq. rewrite matcher_Char. cbn.
  by destruct (ascii_dec x x).
Qed.

(** The pattern of placeholders captures exactly the name between the
    angle brackets. *)
Lemma placeholder_match s name :
  exec placeholderPattern s ≫= group 1 = Some name <-> is_placeholder s name.
Proof.
  unfold placeholderPattern. rewrite exec_anchored.
  rewrite matcher_Seq. unfold char_eq at 1. rewrite matcher_Char.
  cbn [remaining consumed captures].
  destruct s as [|c0 s].
  { cbn. split; [done|]. by intros [[=] _]. }
  destruct (ascii_dec c0 "<") as [->|Hc0].
  2: { cbn. split; [done|]. intros [[= ? _] _]. done. }
  rewrite matcher_Seq, matcher_Group. unfold Plus. rewrite matcher_Seq, matcher_Char.
  cbn [remaining consumed captures].
  destruct s as [|c1 s].
  { cbn. split; [done|]. intros ([= H] & Hne & _). by destruct name. }
  destruct (Js.is_word_char c1) eqn:Hc1.
  2: { cbn. split; [done|]. intros ([= H] & Hne & Hall).
       destruct name as [|c name]; [done|]. injection H as <- _.
       cbn in Hall. by rewrite Hc1 in Hall. }
  rewrite matcher_star_class. cbn [remaining consumed captures].
  set (st0 := MState "<" (String c1 s) []).
  match goal with |- context [class_star _ ?k0 _ _ _] => set (k := k0) end.
  assert (forall st, remaining st <> ">" -> k st = None) as Hk.
  { intros st Hst. unfold k. by apply (closing_only ">"). }
  assert (forall t, k (MState (String.rev_app t (String c1 "<")) ">" [])
                    = Some (MState (String ">" (String.rev_app t (String c1 "<")))
                              EmptyString [(1%nat, String c1 t)])) as Hmatch.
  { intros t. unfold k.
    rewrite (text_between_consumed st0 _ (String c1 t)) by reflexivity.
    apply (closing_match ">"). }
  split.
  - destruct (class_star _ _ _ _ _) as [res|] eqn:Hres; [|done].
    apply class_star_inv in Hres as (t & u & -> & Ht & Hu).
    destruct (decide (u = ">")) as [->|Hne]; [|by rewrite Hk in Hu].
    rewrite Hmatch in Hu. injection Hu as <-. cbn. intros [= <-].
    split; [reflexivity|]. split; [done|]. cbn. by rewrite Hc1.
  - intros ([= H] & Hne & Hall). destruct name as [|c name]; [done|].
    rewrite str_app_cons in H. injection H as <- ->.
    cbn in Hall. apply andb_true_iff in Hall as [_ Hall].
    rewrite (class_star_exact _ k ">" Hk name _ _ Hall), Hmatch. reflexivity.
Qed.

Lemma to_string_small (n : N) :
  n < 2 ^ 53 -> JsNumber.to_string (JsNumber.Finite n) = pretty n.
Proof. intros Hn. unfold JsNumber.to_string. by rewrite (proj2 (N.ltb_lt _ _) Hn). Qed.

(** X14: at a numeric key below 2^53, a string value that is the
    placeholder [<name>] is replaced by the property [name] of the record
    when the record has one, its own or an inherited one: the value of
    the key [name], or, for a record that inherits from
    [Object.prototype] and has no such key, something built in when
    [name] is a key of [Object.prototype].  A placeholder whose name is no
    property, and any string that is not a placeholder, is passed on as
    it is. *)
Theorem placeholder_resolution (params : ParamRecord) (n : N) (s : string) :
  n < 2 ^ 53 ->
  own params !! (pretty n : string) = Some (PString s) ->
  (forall name, is_placeholder s name ->
     (forall v, own params !! name = Some v ->
        numeric_value params (JsNumber.Finite n) = Value v)
     /\ (own params !! name = None -> proto params = ObjectPrototype ->
         (In name Obj.object_prototype_keys ->
          exists i, numeric_value params (JsNumber.Finite n) = BuiltIn i)
         /\ (~ In name Obj.object_prototype_keys ->
             numeric_value params (JsNumber.Finite n) = Value (PString s))))
  /\ ((forall name, ~ is_placeholder s name) ->
      numeric_value params (JsNumber.Finite n) = Value (PString s)).
Proof.
  intros Hn Hval. unfold numeric_value.
  rewrite (to_string_small n Hn), (Obj_get_own _ _ _ Hval). split.
  - intros name Hname. pose proof Hname as (_ & Hne & _).
    rewrite (proj2 (placeholder_match s name) Hname).
    destruct name as [|c name]; [done|]. cbn [Js.truthy andb].
    unfold Obj.has, Obj.get. split.
    + intros v Hv. by rewrite Hv.
    + intros Hnone Hproto. rewrite Hnone, Hproto. unfold Obj.inherited.
      destruct (String.eqb (String c name) "__proto__") eqn:E.
      * apply String.eqb_eq in E. rewrite E. split; [eauto|].
        intros Hnot. destruct Hnot. vm_compute. tauto.
      * case_bool_decide as Hin; split.
        -- eauto.
        -- intros Hnot. destruct Hnot. by apply list_elem_of_In.
        -- intros Hyes. destruct Hin. by apply list_elem_of_In.
        -- reflexivity.
  - intros Hnone.
    destruct (exec placeholderPattern s ≫= group 1) as [name|] eqn:Hmatch; [|reflexivity].
    apply placeholder_match in Hmatch. by destruct (Hnone name).
Qed.

Lemma placeholder_resolution_witness :
  numeric_value
    (Obj.literal {[ "1" := PString "<tenant>"; "tenant" := PNumber 7 ]})
    (JsNumber.Finite 1)
  = Value (PNumber 7).
Proof.
  assert (Hn : 1 < 2 ^ 53) by reflexivity.
  assert (Hval : own (Obj.literal {[ "1" := PString "<tenant>"; "tenant" := PNumber 7 ]})
                   !! (pretty 1 : string) = Some (PString "<tenant>"))
    by (vm_compute; reflexivity).
  assert (Hname : is_placeholder "<tenant>" "tenant").
  { split; [reflexivity|]. split; [discriminate|reflexivity]. }
  apply (proj1 (proj1 (placeholder_resolution _ 1 "<tenant>" Hn Hval) "tenant" Hname)).
  vm_compute. reflexivity.
Defined.

(** A placeholder named after a method every object inherits binds that
    method, by evaluation. *)
Example placeholder_inherited :
  convertNamedToPositionalParams (Obj.literal {[ "1" := PString "<toString>" ]})
  = [BuiltIn (OfObjectPrototype "toString")].
Proof. vm_compute. reflexivity. Qed.

(** The pattern of numeric keys accepts exactly the non-empty strings of
    digits. *)
Lemma numeric_key_match key :
  test numericKeyPattern key = true
  <-> key <> EmptyString /\ all_chars Js.is_digit key = true.
Proof.
  unfold test, numericKeyPattern. rewrite exec_anchored.
  unfold Plus. rewrite !matcher_Seq, matcher_Char. cbn [remaining consumed captures].
  destruct key as [|c rest]; [cbn; by intuition|].
  cbn [all_chars]. destruct (Js.is_digit c); [|cbn; by intuition].
  rewrite matcher_star_class. cbn [remaining consumed captures andb]. split.
  - destruct (class_star _ _ _ _ _) as [res|] eqn:Hres; [intros _|done].
    apply class_star_inv in Hres as (t & u & -> & Ht & Hu). split; [done|].
    cbn in Hu. destruct u; [|done]. by rewrite str_app_empty_r.
  - intros [_ Hrest]. rewrite <- (str_app_empty_r rest).
    rewrite (class_star_exact _ _ EmptyString) by (by apply line_end_only || exact Hrest).
    reflexivity.
Qed.

(** X15: the positional array has one element for every key of the
    record, and the value of every key that is not a non-empty string of
    digits is among them. *)
Theorem convert_covers_record (params : ParamRecord) :
  length (convertNamedToPositionalParams params) = size (own params)
  /\ forall key value,
       own params !! key = Some value ->
       key = EmptyString \/ all_chars Js.is_digit key = false ->
       In (Value value) (convertNamedToPositionalParams params).
Proof.
  assert (forall key, key = EmptyString \/ all_chars Js.is_digit key = false ->
                      test numericKeyPattern key = false) as Hnamed_key.
  { intros key Hkey. destruct (test numericKeyPattern key) eqn:Htest; [|reflexivity].
    apply numeric_key_match in Htest as [Hne Hall]. destruct Hkey; congruence. }
  unfold convertNamedToPositionalParams. split.
  - rewrite length_app, !length_map.
    rewrite (Permutation_length (merge_sort_Permutation _ _)).
    rewrite (Permutation_length (merge_sort_Permutation _ _)).
    rewrite length_map, filter_length. unfold object_keys, Obj.keys.
    by rewrite length_fmap, length_map_to_list.
  - intros key value Hval Hnamed%Hnamed_key. apply in_or_app. right.
    apply in_map_iff. exists key. split; [by apply Obj_get_own|].
    apply list_elem_of_In. rewrite merge_sort_Permutation.
    apply list_elem_of_In, filter_In. split; [|by rewrite Hnamed].
    unfold object_keys, Obj.keys. apply list_elem_of_In, list_elem_of_fmap.
    exists (key, value). split; [reflexivity|]. by apply elem_of_map_to_list.
Qed.

End Placeholders.

(** ** The entries of an allow-list *)

Section AllowListEntries.









Lemma identifier_not_empty s : is_identifier s -> s <> EmptyString.
Proof. by intros (c & rest & -> & _). Qed.












End AllowListEntries.




(** ** Type wrappers *)

Section TypeWrappers.
Import Regex TypeUtils.

(** A literal under the [i] flag takes a spelling of it, and nothing
    else. *)
Lemma lit_ci_match lit : lit <> EmptyString ->
  forall w rest left_rev caps k,
    same_ci w lit = true ->
    matcher (lit_ci lit) (MState left_rev (w +:+ rest) caps) k
    = k (MState (String.rev_app w left_rev) rest caps).
Proof.
  induction lit as [|x lit IH]; [done|]. intros _ w rest left_rev caps k Hw.
  destruct w as [|c w]; [done|]. cbn in Hw. apply andb_true_iff in Hw as [Hc Hw].
  destruct lit as [|x' lit].
  - destruct w; [|done]. cbn [lit_ci]. unfold char_ci. rewrite matcher_Char.
    rewrite str_app_cons, str_app_empty_l. cbn [remaining consumed captures].
    by rewrite Hc.
  - change (lit_ci (String x (String x' lit)))
      with (Seq (char_ci x) (lit_ci (String x' lit))).
    rewrite matcher_Seq. unfold char_ci at 1. rewrite matcher_Char.
    rewrite str_app_cons. cbn [remaining consumed captures]. rewrite Hc.
    by rewrite IH.
Qed.

Lemma lit_ci_mismatch x lit c rest left_rev caps k :
  Js.canonicalize c <> Js.canonicalize x ->
  matcher (lit_ci (String x lit)) (MState left_rev (String c rest) caps) k = None.
Proof.
  intros Hc. destruct lit as [|x' lit].
  - cbn [lit_ci]. unfold char_ci. rewrite matcher_Char. cbn.
    by destruct (ascii_dec _ _).
  - change (lit_ci (String x (String x' lit)))
      with (Seq (char_ci x) (lit_ci (String x' lit))).
    rewrite matcher_Seq. unfold char_ci at 1. rewrite matcher_Char. cbn.
    by destruct (ascii_dec _ _).
Qed.

Lemma parenthesized_inv i p st res :
  matcher (parenthesized i p) st Some = Some res ->
  exists inner,
    remaining st = "(" +:+ inner +:+ ")"
    /\ inner <> EmptyString /\ all_chars p inner = true
    /\ capture i (captures res) = Some inner.
Proof.
  unfold parenthesized. rewrite matcher_Seq. unfold char_eq at 1. rewrite matcher_Char.
  destruct (remaining st) as [|c0 rest0]; [done|].
  destruct (ascii_dec c0 "(") as [->|]; [|done].
  rewrite matcher_Seq, matcher_Group. unfold Plus. rewrite matcher_Seq, matcher_Char.
  cbn [remaining consumed captures].
  destruct rest0 as [|c1 rest1]; [done|].
  destruct (p c1) eqn:Hc1; [|done].
  rewrite matcher_star_class. cbn [remaining consumed captures].
  intros Hres. apply class_star_inv in Hres as (t & u & -> & Ht & Hu).
  destruct (decide (u = ")")) as [->|Hne].
  2: { rewrite (closing_only ")") in Hu; [done|]. by rewrite remaining_set_capture. }
  rewrite (text_between_consumed _ _ (String c1 t)) in Hu by reflexivity.
  unfold set_capture in Hu. cbn [remaining consumed captures] in Hu.
  rewrite (closing_match ")") in Hu. injection Hu as <-.
  exists (String c1 t). cbn [captures capture]. rewrite Nat.eqb_refl.
  split; [by rewrite !str_app_cons, str_app_empty_l|]. split; [done|].
  split; [|reflexivity]. cbn. by rewrite Hc1.
Qed.

Lemma parenthesized_intro i p inner left_rev caps :
  inner <> EmptyString -> all_chars p inner = true ->
  exists res,
    matcher (parenthesized i p) (MState left_rev ("(" +:+ inner +:+ ")") caps) Some
      = Some res
    /\ capture i (captures res) = Some inner.
Proof.
  intros Hne Hall. destruct inner as [|c1 t]; [done|]. cbn in Hall.
  apply andb_true_iff in Hall as [Hc1 Ht].
  unfold parenthesized. rewrite matcher_Seq. unfold char_eq at 1. rewrite matcher_Char.
  rewrite !str_app_cons, str_app_empty_l. cbn [remaining consumed captures].
  destruct (ascii_dec "(" "(") as [_|]; [|done].
  rewrite matcher_Seq, matcher_Group. unfold Plus. rewrite matcher_Seq, matcher_Char.
  cbn [remaining consumed captures]. rewrite Hc1.
  rewrite matcher_star_class. cbn [remaining consumed captures].
  match goal with |- context [class_star _ ?k0 _ _ _] => set (k := k0) end.
  assert (forall st, remaining st <> ")" -> k st = None) as Hk.
  { intros st Hst. unfold k. by apply (closing_only ")"). }
  rewrite (class_star_exact _ k ")" Hk t _ _ Ht). unfold k.
  rewrite (text_between_consumed _ _ (String c1 t)) by reflexivity.
  unfold set_capture. cbn [remaining consumed captures].
  rewrite (closing_match ")"). eexists. split; [reflexivity|].
  cbn [captures capture]. by rewrite Nat.eqb_refl.
Qed.

(** The three names as one pattern. *)
Lemma wrapper_regex_unfold s :
  exec WRAPPER_REGEX s
  = result_of EmptyString
      <$> matcher
            (Group 1 (Alt (lit_ci "Nullable")
                       (Alt (lit_ci "LowCardinality") (lit_ci "SimpleAggregateFunction"))))
            (MState EmptyString s [])
            (fun st1 => matcher (parenthesized 2 not_terminator) st1 Some).
Proof. unfold WRAPPER_REGEX. by rewrite exec_anchored. Qed.

(** A match of [WRAPPER_REGEX] is a text [w(inner)] whose second group
    is [inner], a non-empty text on one line. *)
Lemma wrapper_match_inv s m :
  exec WRAPPER_REGEX s = Some m ->
  exists w inner,
    s = w +:+ "(" +:+ inner +:+ ")"
    /\ inner <> EmptyString /\ all_chars not_terminator inner = true
    /\ group 2 m = Some inner.
Proof.
  rewrite wrapper_regex_unfold.
  destruct (matcher _ _ _) as [res|] eqn:Hres; [|done]. intros [= <-].
  apply matcher_forward in Hres as (st1 & w & [_ Hw] & Htail).
  apply parenthesized_inv in Htail as (inner & Hrest & Hne & Hall & Hcap).
  exists w, inner. cbn in Hw. by rewrite Hw, Hrest.
Qed.

Lemma first_of_same_ci w x lit :
  same_ci w (String x lit) = true ->
  exists c w', w = String c w' /\ Js.canonicalize c = Js.canonicalize x.
Proof.
  destruct w as [|c w']; [done|]. cbn. intros [Hc _]%andb_true_iff.
  exists c, w'. split; [reflexivity|]. by destruct (ascii_dec _ _).
Qed.

(** Every text [w(inner)] is matched, with [inner] as the second group. *)
Lemma wrapper_match_intro s w inner :
  is_wrapped s w inner ->
  exists m, exec WRAPPER_REGEX s = Some m /\ group 2 m = Some inner.
Proof.
  intros (-> & Hw & Hne & Hall). rewrite wrapper_regex_unfold, matcher_Group.
  assert (forall caps,
            exists res,
              matcher (parenthesized 2 not_terminator)
                (set_capture 1
                   (text_between (MState EmptyString (w +:+ "(" +:+ inner +:+ ")") [])
                      (MState (String.rev_app w EmptyString) ("(" +:+ inner +:+ ")") caps))
                   (MState (String.rev_app w EmptyString) ("(" +:+ inner +:+ ")") caps))
                Some = Some res
              /\ capture 2 (captures res) = Some inner) as Htail.
  { intros caps. unfold set_capture. cbn [remaining consumed captures].
    by apply parenthesized_intro. }
  destruct (Htail []) as (res & Hres & Hcap).
  exists (result_of EmptyString res). split; [|exact Hcap].
  unfold wrapper_name in Hw. rewrite matcher_Alt.
  destruct (same_ci w "Nullable") eqn:H1.
  { rewrite (lit_ci_match "Nullable") by done. by rewrite Hres. }
  rewrite matcher_Alt.
  destruct (same_ci w "LowCardinality") eqn:H2.
  { destruct (first_of_same_ci _ _ _ H2) as (c & w' & -> & Hc).
    rewrite str_app_cons, lit_ci_mismatch by (rewrite Hc; vm_compute; discriminate).
    rewrite <- str_app_cons, (lit_ci_match "LowCardinality") by done. by rewrite Hres. }
  cbn in Hw.
  destruct (first_of_same_ci _ _ _ Hw) as (c & w' & -> & Hc).
  rewrite str_app_cons, !lit_ci_mismatch by (rewrite Hc; vm_compute; discriminate).
  rewrite <- str_app_cons, (lit_ci_match "SimpleAggregateFunction") by done.
  by rewrite Hres.
Qed.

(** The loop of [unwrapTypeModifiers]: a round shortens the text, so the
    length of the text is fuel enough. *)
Lemma unwrap_round current m inner :
  exec WRAPPER_REGEX current = Some m -> truthy_string (group 2 m) = Some inner ->
  (String.length (Js.trim inner) < String.length current)%nat.
Proof.
  intros Hm Hinner.
  apply wrapper_match_inv in Hm as (w & inner' & -> & _ & _ & Hgroup).
  rewrite Hgroup in Hinner. cbn in Hinner.
  destruct (Js.truthy inner'); [|done]. injection Hinner as ->.
  pose proof (trim_length inner). rewrite !str_app_length. cbn. lia.
Qed.

Lemma unwrap_loop_enough : forall fuel fuel' current,
  (String.length current <= fuel)%nat -> (String.length current <= fuel')%nat ->
  unwrap_loop fuel current = unwrap_loop fuel' current.
Proof.
  assert (forall fuel, unwrap_loop fuel EmptyString = EmptyString) as Hempty
    by (by intros [|fuel]).
  induction fuel as [|fuel IH]; intros fuel' current Hfuel Hfuel'.
  { assert (current = EmptyString) as -> by (apply str_length_zero; lia).
    by rewrite Hempty. }
  destruct fuel' as [|fuel'].
  { assert (current = EmptyString) as -> by (apply str_length_zero; lia).
    by rewrite Hempty. }
  cbn [unwrap_loop].
  destruct (exec WRAPPER_REGEX current) as [m|] eqn:Hm; [|reflexivity].
  destruct (truthy_string (group 2 m)) as [inner|] eqn:Hinner; [|reflexivity].
  pose proof (unwrap_round _ _ _ Hm Hinner). apply IH; lia.
Qed.

(** The loop ends on a trimmed text that is not wrapped. *)
Lemma unwrap_loop_fixed : forall fuel current,
  (String.length current <= fuel)%nat -> Js.trim current = current ->
  exec WRAPPER_REGEX (unwrap_loop fuel current) = None
  /\ Js.trim (unwrap_loop fuel current) = unwrap_loop fuel current.
Proof.
  induction fuel as [|fuel IH]; intros current Hfuel Htrim.
  { assert (current = EmptyString) as -> by (apply str_length_zero; lia). by split. }
  cbn [unwrap_loop].
  destruct (exec WRAPPER_REGEX current) as [m|] eqn:Hm; [|by split].
  destruct (truthy_string (group 2 m)) as [inner|] eqn:Hinner.
  - pose proof (unwrap_round _ _ _ Hm Hinner).
    apply IH; [lia|apply trim_idempotent].
  - apply wrapper_match_inv in Hm as (w & inner' & _ & Hne & _ & Hgroup).
    rewrite Hgroup in Hinner. cbn in Hinner. by destruct inner'.
Qed.

Lemma wrapper_initial c (x : ascii) :
  In x ["N"; "L"; "S"]%char -> Js.canonicalize c = Js.canonicalize x ->
  Js.is_white_space c = false.
Proof.
  intros [<-|[<-|[<-|[]]]].
  all: destruct c as [[] [] [] [] [] [] [] []]; vm_compute; congruence.
Qed.

Lemma wrapped_trimmed s w inner : is_wrapped s w inner -> Js.trim s = s.
Proof.
  intros (-> & Hw & _). apply trim_fixed. split.
  - assert (exists c w', w = String c w' /\ Js.is_white_space c = false)
      as (c & w' & -> & Hc).
    { unfold wrapper_name in Hw.
      destruct (same_ci w "Nullable") eqn:H1;
        [|destruct (same_ci w "LowCardinality") eqn:H2].
      1: destruct (first_of_same_ci _ _ _ H1) as (c & w' & -> & Hc).
      2: destruct (first_of_same_ci _ _ _ H2) as (c & w' & -> & Hc).
      3: destruct (first_of_same_ci _ _ _ Hw) as (c & w' & -> & Hc).
      all: exists c, w'; split; [reflexivity|].
      all: eapply wrapper_initial; [|exact Hc]; cbn; tauto. }
    rewrite str_app_cons. cbn. by rewrite Hc.
  - rewrite <- !str_app_assoc, str_rev_app_distr. reflexivity.
Qed.

(** X16: the result of [unwrapTypeModifiers] is trimmed and is not itself
    a wrapped type [w(inner)], for any of the three wrapper names in any
    letter case; unwrapping it again changes nothing. *)
Theorem unwrapTypeModifiers_fixed (type : string) :
  let unwrapped := unwrapTypeModifiers type in
  unwrapTypeModifiers unwrapped = unwrapped
  /\ Js.trim unwrapped = unwrapped
  /\ forall w inner, ~ is_wrapped unwrapped w inner.
Proof.
  cbn zeta. unfold unwrapTypeModifiers.
  destruct (unwrap_loop_fixed (String.length (Js.trim type)) (Js.trim type)
              (le_n _) (trim_idempotent type)) as [Hnone Htrim].
  set (unwrapped := unwrap_loop (String.length (Js.trim type)) (Js.trim type)) in *.
  split; [|split].
  - rewrite Htrim.
    destruct (String.length unwrapped); [reflexivity|]. cbn [unwrap_loop].
    by rewrite Hnone.
  - exact Htrim.
  - intros w inner Hwrapped.
    apply wrapper_match_intro in Hwrapped as (m & Hm & _).
    rewrite Hnone in Hm. discriminate Hm.
Qed.

(** X17: one wrapper is taken off at a time: for a wrapper name [w] in
    any letter case and a non-empty [inner] without a line break,
    unwrapping [w(inner)] is unwrapping [inner], so that the length of a
    fixed string and the precision and scale of a decimal are read
    through the wrapper. *)
Theorem unwrapTypeModifiers_strips (s w inner : string) :
  is_wrapped s w inner ->
  unwrapTypeModifiers s = unwrapTypeModifiers inner
  /\ extractFixedStringLength s = extractFixedStringLength inner
  /\ extractPrecisionScale s = extractPrecisionScale inner.
Proof.
  intros Hwrapped.
  assert (unwrapTypeModifiers s = unwrapTypeModifiers inner) as Hsame;
    [|unfold extractFixedStringLength, extractPrecisionScale; by rewrite Hsame].
  unfold unwrapTypeModifiers.
  rewrite (wrapped_trimmed _ _ _ Hwrapped).
  destruct (wrapper_match_intro _ _ _ Hwrapped) as (m & Hm & Hgroup).
  destruct Hwrapped as (Hs & _ & Hne & _).
  assert (String.length s = S (S (String.length w + String.length inner))) as Hlen.
  { rewrite Hs, !str_app_length. cbn. lia. }
  destruct (String.length s) as [|fuel]; [lia|]. cbn [unwrap_loop]. rewrite Hm, Hgroup.
  assert (truthy_string (Some inner) = Some inner) as -> by (by destruct inner).
  pose proof (trim_length inner).
  apply unwrap_loop_enough; lia.
Qed.

Lemma unwrapTypeModifiers_strips_witness :
  unwrapTypeModifiers "nullable(LowCardinality(String))"
  = unwrapTypeModifiers "LowCardinality(String)".
Proof.
  apply (unwrapTypeModifiers_strips _ "nullable" "LowCardinality(String)").
  split; [reflexivity|]. split; [reflexivity|]. split; [discriminate|reflexivity].
Defined.

End TypeWrappers.

(** ** Key expressions *)

Section KeyExpressions.
Import Regex TypeUtils.

Lemma split_all_chars p sep s :
  all_chars p s = true -> Forall (fun part => all_chars p part = true) (Js.split sep s).
Proof.
  induction s as [|c s IH]; [by repeat constructor|]. cbn [all_chars].
  intros [Hc Hs]%andb_true_iff. specialize (IH Hs).
  destruct (ascii_dec c sep) as [->|Hne].
  - rewrite split_cons_sep. by constructor.
  - rewrite split_cons_other by done.
    destruct (Js.split sep s) as [|part parts]; [constructor|].
    inversion IH as [|? ? Hpart Hparts]; subst. constructor; [|exact Hparts].
    cbn. by rewrite Hc.
Qed.

Lemma not_backtick c : negb (is_backtick c) = true -> not_char "`" c = true.
Proof. destruct c as [[] [] [] [] [] [] [] []]; vm_compute; congruence. Qed.

Lemma no_outer_space_empty : no_outer_space EmptyString.
Proof. by split. Qed.

Lemma stripWrapper_bare value : bare_name (stripWrapper value).
Proof.
  unfold stripWrapper.
  set (withoutTicks := Js.trim (Js.remove_chars is_backtick (stripQuotes value))).
  assert (all_chars (not_char "`") withoutTicks = true) as Hticks.
  { apply trim_all_chars. eapply all_chars_impl; [apply not_backtick|].
    apply remove_chars_all. }
  pose proof (split_parts "." withoutTicks) as Hdots.
  pose proof (split_all_chars _ "." _ Hticks) as Hparts.
  destruct (last (Js.split "." withoutTicks)) as [part|] eqn:Hlast.
  2: { split; [apply no_outer_space_empty|by split]. }
  apply last_Some_elem_of, list_elem_of_In in Hlast.
  rewrite List.Forall_forall in Hdots, Hparts.
  split; [|split].
  - by destruct (trim_split part) as (l & r & _ & _ & _ & H).
  - apply trim_all_chars. by apply Hdots.
  - apply trim_all_chars. by apply Hparts.
Qed.

Lemma scan_columns_bare : forall value depth token columns,
  Forall bare_name columns -> Forall bare_name (scan_columns value depth token columns).
Proof.
  assert (forall columns col, Forall bare_name columns ->
                              Forall bare_name (push_column columns col)) as Hpush.
  { intros columns col Hcolumns. unfold push_column. destruct (Js.truthy col); [|done].
    apply Forall_app. split; [exact Hcolumns|]. constructor; [|constructor].
    apply stripWrapper_bare. }
  induction value as [|ch value IH]; intros depth token columns Hcolumns; cbn.
  - by apply Hpush.
  - destruct (ascii_dec ch "("); [by apply IH|].
    destruct (ascii_dec ch ")"); [by apply IH|].
    destruct (_ && _); apply IH; [by apply Hpush|done].
Qed.

(** X18: [parseKeyExpression] returns bare column names: none is empty,
    none starts or ends with white space, none contains a dot or a
    backtick; an absent, empty or blank expression has no columns. *)
Theorem parseKeyExpression_names (expression : option string) :
  Forall (fun col => col <> EmptyString /\ bare_name col) (parseKeyExpression expression)
  /\ parseKeyExpression None = []
  /\ forall blank, Js.trim blank = EmptyString -> parseKeyExpression (Some blank) = [].
Proof.
  unfold parseKeyExpression. split; [|split; [reflexivity|]].
  - destruct (truthy_string expression) as [e|]; [|constructor].
    destruct (Js.truthy (Js.trim e)); cbn [negb]; [|constructor].
    match goal with
    | |- context [scan_columns ?v ?d ?t ?c] =>
        pose proof (scan_columns_bare v d t c (List.Forall_nil _)) as Hbare;
        set (columns := scan_columns v d t c) in *
    end.
    clearbody columns. induction Hbare as [|col columns Hcol Hcolumns IH]; [constructor|].
    cbn. destruct col; cbn; [exact IH|]. constructor; [|exact IH]. by split.
  - intros e Hblank. cbn [truthy_string].
    destruct (Js.truthy e); [|reflexivity]. by rewrite Hblank.
Qed.

Lemma word_char_plain c :
  Js.is_word_char c = true ->
  c <> "("%char /\ c <> ")"%char /\ c <> ","%char /\ is_backtick c = false
  /\ c <> "034"%char /\ c <> "039"%char.
Proof. destruct c as [[] [] [] [] [] [] [] []]; vm_compute; intuition congruence. Qed.

Lemma drop_while_app_all p l s :
  all_chars p l = true -> Js.drop_while p (l +:+ s) = Js.drop_while p s.
Proof.
  induction l as [|c l IH]; [done|]. cbn [all_chars]. intros [Hc Hl]%andb_true_iff.
  rewrite str_app_cons. cbn. rewrite Hc. auto.
Qed.

Lemma drop_while_app_head p s t :
  s <> EmptyString -> Js.drop_while p s = s -> Js.drop_while p (s +:+ t) = s +:+ t.
Proof.
  destruct s as [|c s]; [done|]. intros _. rewrite str_app_cons. cbn.
  destruct (p c); [|done]. intros H.
  destruct (drop_while_split p s) as (l & Hsplit & _).
  apply (f_equal String.length) in Hsplit. rewrite H in Hsplit.
  rewrite str_app_length in Hsplit. cbn in Hsplit. lia.
Qed.

Lemma remove_chars_none p s :
  all_chars (fun c => negb (p c)) s = true -> Js.remove_chars p s = s.
Proof.
  induction s as [|c s IH]; [done|]. cbn. destruct (p c); [done|]. intros Hs.
  by rewrite IH.
Qed.

Lemma identifier_no_outer_space s : is_identifier s -> no_outer_space s.
Proof.
  intros Hs%identifier_word_chars.
  pose proof (all_chars_impl _ _ _ word_char_not_space Hs) as Hns.
  split; apply drop_while_none; [exact Hns|]. by rewrite all_chars_rev.
Qed.

(** The text between two commas, with the white space that follows the
    comma before it, is trimmed to the name. *)
Lemma trim_padded token s :
  all_chars Js.is_white_space token = true -> no_outer_space s ->
  Js.trim (token +:+ s) = s.
Proof.
  intros Htoken [Hhead Htail]. unfold Js.trim.
  by rewrite drop_while_app_all, Hhead, Htail, str_rev_involutive.
Qed.

Lemma stripWrapper_identifier s : is_identifier s -> stripWrapper s = s.
Proof.
  intros Hs. pose proof (identifier_word_chars _ Hs) as Hword.
  pose proof (trim_fixed _ (identifier_no_outer_space _ Hs)) as Htrim.
  unfold stripWrapper.
  assert (stripQuotes s = s) as ->.
  { destruct Hs as (c & rest & -> & Hc & _). unfold stripQuotes. cbn [Js.startsWith Js.dquote Js.squote].
    apply ident_start_word_char, word_char_plain in Hc as (_ & _ & _ & _ & Hd & Hq).
    destruct (ascii_dec "034" c); [congruence|].
    destruct (ascii_dec "039" c); [congruence|]. reflexivity. }
  rewrite remove_chars_none.
  2: { eapply all_chars_impl; [|exact Hword]. intros c Hc.
       apply word_char_plain in Hc as (_ & _ & _ & -> & _). reflexivity. }
  rewrite Htrim, split_none by exact (all_chars_impl _ _ _ word_char_not_dot Hword).
  cbn [last]. exact Htrim.
Qed.

(** Scanning a name adds it to the token. *)
Lemma scan_columns_word w : forall rest depth token columns,
  all_chars Js.is_word_char w = true ->
  scan_columns (w +:+ rest) depth token columns
  = scan_columns rest depth (token +:+ w) columns.
Proof.
  induction w as [|c w IH]; intros rest depth token columns Hw.
  { by rewrite str_app_empty_l, str_app_empty_r. }
  cbn [all_chars] in Hw. apply andb_true_iff in Hw as [Hc Hw].
  apply word_char_plain in Hc as (H1 & H2 & H3 & _).
  rewrite str_app_cons. cbn [scan_columns].
  destruct (ascii_dec c "("); [done|]. destruct (ascii_dec c ")"); [done|].
  destruct (ascii_dec c ","); [done|]. cbn [andb].
  rewrite IH by exact Hw. unfold push_char.
  by rewrite str_app_assoc.
Qed.

Lemma scan_columns_names : forall cols token columns,
  Forall is_identifier cols -> cols <> [] ->
  all_chars Js.is_white_space token = true ->
  scan_columns (Engine.join ", " cols) 0 token columns = columns ++ cols.
Proof.
  assert (forall col token columns,
            is_identifier col -> all_chars Js.is_white_space token = true ->
            push_column columns (Js.trim (token +:+ col)) = columns ++ [col]) as Hpush.
  { intros col token columns Hcol Htoken.
    rewrite trim_padded by (done || by apply identifier_no_outer_space).
    unfold push_column. by rewrite (identifier_truthy _ Hcol), stripWrapper_identifier. }
  induction cols as [|col cols IH]; intros token columns Hcols Hne Htoken; [done|].
  inversion Hcols as [|? ? Hcol Hrest]; subst.
  pose proof (identifier_word_chars _ Hcol) as Hword.
  destruct cols as [|col' cols].
  - cbn [Engine.join]. rewrite <- (str_app_empty_r col) at 1.
    rewrite scan_columns_word by exact Hword. cbn [scan_columns]. by apply Hpush.
  - change (Engine.join ", " (col :: col' :: cols))
      with (col +:+ ", " +:+ Engine.join ", " (col' :: cols)).
    rewrite scan_columns_word by exact Hword.
    change (", " +:+ Engine.join ", " (col' :: cols))
      with (String "," (String " " (Engine.join ", " (col' :: cols)))).
    cbn [scan_columns ascii_dec]. cbn.
    rewrite Hpush by done. rewrite IH by done.
    by rewrite <- app_assoc.
Qed.

Lemma all_chars_join p sep (l : list string) :
  all_chars p sep = true -> Forall (fun s => all_chars p s = true) l ->
  all_chars p (Engine.join sep l) = true.
Proof.
  intros Hsep. induction 1 as [|s l Hs Hl IH]; [reflexivity|].
  destruct l as [|s' l]; [exact Hs|].
  change (Engine.join sep (s :: s' :: l)) with (s +:+ sep +:+ Engine.join sep (s' :: l)).
  by rewrite !all_chars_app, Hs, Hsep, IH.
Qed.

Lemma no_outer_space_join sep (l : list string) :
  Forall (fun s => s <> EmptyString /\ no_outer_space s) l -> l <> [] ->
  Engine.join sep l <> EmptyString /\ no_outer_space (Engine.join sep l).
Proof.
  induction 1 as [|s l [Hne [Hhead Htail]] Hl IH]; [done|]. intros _.
  destruct l as [|s' l]; [by split|].
  change (Engine.join sep (s :: s' :: l)) with (s +:+ sep +:+ Engine.join sep (s' :: l)).
  destruct IH as [Hne' [_ Htail']]; [done|].
  split; [by destruct s|]. split.
  - by apply drop_while_app_head.
  - rewrite <- str_app_assoc, str_rev_app_distr. apply drop_while_app_head; [|done].
    intros Hrev. apply Hne'. by rewrite <- (str_rev_involutive (Engine.join _ _)), Hrev.
Qed.

(** The pattern [tuplePrefix] needs an opening parenthesis. *)
Lemma tuplePrefix_paren s :
  all_chars (not_char "(") s = true -> test tuplePrefix s = false.
Proof.
  intros Hs. unfold test, tuplePrefix. rewrite exec_anchored, matcher_Seq.
  destruct (matcher _ _ _) as [res|] eqn:Hres; [|reflexivity]. exfalso.
  apply matcher_forward in Hres as (st1 & w & [_ Hw] & Hk).
  rewrite matcher_Seq in Hk. unfold spaces in Hk. rewrite matcher_star_class in Hk.
  apply class_star_inv in Hk as (t & u & Hu & _ & Hparen).
  unfold char_eq in Hparen. rewrite matcher_Char in Hparen.
  cbn [remaining] in Hparen, Hw. destruct u as [|c u]; [done|].
  destruct (ascii_dec c "(") as [->|]; [|done].
  rewrite Hw, Hu, !all_chars_app in Hs. cbn in Hs.
  by rewrite !andb_false_r in Hs.
Qed.

(** X19: a list of identifiers separated by a comma and a space is read
    back as that list. *)
Theorem parseKeyExpression_identifiers (cols : list string) :
  Forall is_identifier cols ->
  parseKeyExpression (Some (Engine.join ", " cols)) = cols.
Proof.
  intros Hcols. destruct cols as [|col cols]; [reflexivity|].
  set (value := Engine.join ", " (col :: cols)).
  destruct (no_outer_space_join ", " (col :: cols)) as [Hne Hspace]; [|done|].
  { eapply List.Forall_impl; [|exact Hcols]. intros s Hs. split.
    - by destruct Hs as (c & rest & -> & _).
    - by apply identifier_no_outer_space. }
  fold value in Hne, Hspace.
  assert (all_chars (not_char "(") value = true) as Hparen.
  { apply all_chars_join; [reflexivity|].
    eapply List.Forall_impl; [|exact Hcols]. intros s Hs%identifier_word_chars.
    eapply all_chars_impl; [|exact Hs]. intros c Hc.
    apply word_char_plain in Hc as (Hc & _). unfold not_char. by destruct (ascii_dec c "("). }
  unfold parseKeyExpression. cbn [truthy_string].
  destruct value as [|c rest] eqn:Hvalue; [done|]. cbn [Js.truthy].
  rewrite (trim_fixed _ Hspace). cbn [Js.truthy negb].
  rewrite (tuplePrefix_paren _ Hparen). cbn [andb].
  rewrite <- Hvalue. unfold value.
  rewrite scan_columns_names by done. cbn [app].
  clear -Hcols. induction Hcols as [|s l Hs Hl IH]; [reflexivity|].
  cbn. by rewrite (identifier_truthy _ Hs), IH.
Qed.

Lemma parseKeyExpression_identifiers_witness :
  parseKeyExpression (Some "tenant_id, created_at") = ["tenant_id"; "created_at"].
Proof.
  apply (parseKeyExpression_identifiers ["tenant_id"; "created_at"]).
  repeat constructor; by eexists _, _.
Defined.

End KeyExpressions.

(** ** The engine's registry, parameters and local execution *)

Section EngineFacts.
Import Engine.
Context {W : Type}.

Lemma mapGeneratedParams_loop_entries : forall params index record key value,
  own (mapGeneratedParams_loop params index record) !! key = Some value ->
  own record !! key = Some value
  \/ exists i param,
       params !! i = Some param /\ pd_value param = Some value
       /\ key = param_key param (index + i).
Proof.
  induction params as [|param params IH]; intros index record key value; cbn.
  { by left. }
  destruct (pd_value param) as [v|] eqn:Hv.
  - intros [Hrecord|(i & param' & Hi & Hvalue & Hkey)]%IH.
    + fold (param_key param index) in Hrecord.
      apply Obj_set_lookup in Hrecord as [[<- <-]|Hrecord]; [|by left].
      right. exists 0%nat, param. by rewrite Nat.add_0_r.
    + right. exists (S i), param'. by rewrite <- Nat.add_succ_comm.
  - intros [Hrecord|(i & param' & Hi & Hvalue & Hkey)]%IH; [by left|].
    right. exists (S i), param'. by rewrite <- Nat.add_succ_comm.
Qed.

(** X20: every entry of the record [mapGeneratedParams] builds is the
    value of a descriptor that has one, filed under that descriptor's
    name candidate without the characters [{], [}], [:] and [$] and
    without white space at its ends; a descriptor without a value adds
    nothing. *)
Theorem mapGeneratedParams_entries (params : list ParamDescriptor) (key : string)
    (value : ParamValue) :
  own (mapGeneratedParams params) !! key = Some value ->
  no_outer_space key /\ all_chars no_decoration key = true
  /\ exists index param,
       params !! index = Some param /\ pd_value param = Some value
       /\ key = param_key param index.
Proof.
  intros [Hempty|(i & param & Hi & Hvalue & ->)]%mapGeneratedParams_loop_entries.
  { cbn in Hempty. by rewrite lookup_empty in Hempty. }
  split; [|split].
  - unfold param_key. by destruct (trim_split (Js.remove_chars is_param_decoration
                                                (nameCandidate param (0 + i))))
      as (l & r & _ & _ & _ & H).
  - apply trim_all_chars, remove_chars_all.
  - by exists i, param.
Qed.

(** X21: [getDatabase] after [attachDatabase]: the adapter attached under
    a non-empty name is found under that name, and adapters found under
    other names before are still found; a database attached under the
    empty name is never found. *)
Theorem getDatabase_after_attach (this : QueryEngine W) (name : string)
    (adapter : DatabaseAdapter W) (metadata : DatabaseMetadata) :
  let attached := attachDatabase name adapter metadata this in
  (name <> EmptyString ->
   getDatabase attached (Some name) = inr adapter
   /\ getDatabaseMetadata attached (Some name) = Some metadata)
  /\ (forall other found,
        other <> name -> getDatabase this (Some other) = inr found ->
        getDatabase attached (Some other) = inr found)
  /\ (name = EmptyString ->
      getDatabase attached (Some name) = inl (ErrorObj "No database attached.")
      /\ getDatabaseMetadata attached (Some name) = None).
Proof.
  cbn zeta. unfold getDatabase, getDatabaseMetadata, attachDatabase.
  cbn [nullish databases databaseMetadata]. split; [|split].
  - intros Hname. destruct name as [|c name]; [done|]. cbn [Js.truthy negb].
    by rewrite !JsMap_get_set_eq.
  - intros other found Hne. destruct (Js.truthy other); cbn [negb]; [|done].
    rewrite JsMap_get_set_ne by done.
    by destruct (JsMap.get other (databases this)).
  - by intros ->.
Qed.

(** X22: [validateAndExecute] on a name no database is attached under
    throws the error that lists the attached names, before any call to
    an adapter: the state is the one it started in. *)
Theorem validateAndExecute_unknown_database (this : QueryEngine W) (sql : string)
    (params : ParamRecord) (databaseName tenantId : string) (s : DbState W) :
  databaseName <> EmptyString ->
  JsMap.get databaseName (databases this) = None ->
  validateAndExecute this sql params databaseName tenantId s
  = (inl (ErrorObj ("Database '" +:+ databaseName +:+ "' not found. Attached: "
                    +:+ join ", " (JsMap.keys (databases this)))),
     s).
Proof.
  intros Hname Hget. unfold validateAndExecute, getDatabase, bind, lift_result.
  cbn [nullish]. destruct databaseName as [|c name]; [done|]. cbn [Js.truthy negb].
  by rewrite Hget.
Qed.

(** X23: the engine's own [execute] never throws: whatever goes wrong,
    an unknown database or a failing adapter, it returns, and what it
    returns then is the empty list of rows. *)
Theorem execute_local_never_throws (this : QueryEngine W) (sql : string)
    (params : option ParamRecord) (databaseName : option string) (s : DbState W) :
  exists result,
    (execute_local this sql params databaseName s).1 = inr result
    /\ (forall e, getDatabase this databaseName = inl e ->
          execute_local this sql params databaseName s = (inr [], s))
    /\ (forall adapter e s',
          getDatabase this databaseName = inr adapter ->
          execute adapter sql params s = (inl e, s') ->
          execute_local this sql params databaseName s = (inr [], s'))
    /\ (forall adapter answer s',
          getDatabase this databaseName = inr adapter ->
          execute adapter sql params s = (inr answer, s') ->
          execute_local this sql params databaseName s = (inr (rows answer), s')).
Proof.
  unfold execute_local, try_catch, bind, lift_result, ret.
  destruct (getDatabase this databaseName) as [e|adapter].
  { exists []. split; [reflexivity|]. split; [by intros|]. split; by intros. }
  destruct (execute adapter sql params s) as [[e|answer] s'] eqn:Hexec.
  - exists []. split; [reflexivity|]. split; [by intros|].
    split; intros ? ? ? [= <-]; rewrite Hexec; by intros [= <- <-] || by intros [=].
  - exists (rows answer). split; [reflexivity|]. split; [by intros|].
    split; intros ? ? ? [= <-]; rewrite Hexec; by intros [= <- <-] || by intros [=].
Qed.

End EngineFacts.

Section EngineWitnesses.
Import Engine.

Lemma mapGeneratedParams_entries_witness :
  no_outer_space "tenantString" /\ all_chars no_decoration "tenantString" = true.
Proof.
  assert (H : own (mapGeneratedParams [named_param " {tenant:String} " (PNumber 7)])
                !! "tenantString" = Some (PNumber 7)) by (vm_compute; reflexivity).
  destruct (mapGeneratedParams_entries _ _ _ H) as (Hspace & Hplain & _).
  by split.
Defined.

Lemma getDatabase_after_attach_witness :
  getDatabase
    (attachDatabase "db" (idle_adapter postgres) (plain_metadata "db" postgres) empty)
    (Some "db")
  = inr (idle_adapter postgres).
Proof.
  assert (Hname : "db" <> EmptyString) by discriminate.
  exact (proj1 (proj1 (getDatabase_after_attach empty "db" (idle_adapter postgres)
                         (plain_metadata "db" postgres)) Hname)).
Defined.

Lemma validateAndExecute_unknown_database_witness :
  validateAndExecute users_engine "SELECT 1" Obj.empty "other-db" "t-1" no_calls
  = (inl (ErrorObj "Database 'other-db' not found. Attached: test-db"), no_calls).
Proof.
  apply (validateAndExecute_unknown_database users_engine "SELECT 1" Obj.empty "other-db" "t-1"
           no_calls).
  - discriminate.
  - reflexivity.
Defined.

End EngineWitnesses.

(** ** Attaching a database with a tenant field *)

Section AttachFacts.
Context {W : Type}.



End AttachFacts.

Section AttachWitnesses.


End AttachWitnesses.

(** ** Comments of the catalog, and the columnar tenant predicate *)

Section SmallFacts.

(** X25: [sanitize] returns a comment without white space at its ends,
    never an empty one, and sanitizing its result changes nothing. *)
Theorem sanitize_trimmed (value : option string) :
  match PostgresCatalog.sanitize value with
  | Some comment =>
      comment <> EmptyString /\ no_outer_space comment
      /\ PostgresCatalog.sanitize (Some comment) = Some comment
  | None => value = None \/ exists raw, value = Some raw /\ Js.trim raw = EmptyString
  end.
Proof.
  unfold PostgresCatalog.sanitize. destruct value as [raw|]; [|by left].
  destruct (trim_split raw) as (l & r & _ & _ & _ & Hspace).
  destruct (Js.trim raw) as [|c comment] eqn:Htrim.
  - right. by exists raw.
  - change (0 <? String.length (String c comment))%nat with true. cbv iota zeta.
    split; [done|]. split; [exact Hspace|].
    by rewrite (trim_fixed _ Hspace).
Qed.

(** X26: for the columnar dialect the statement the rewrite returns does
    not depend on the tenant id: the id only travels as a parameter. *)
Theorem columnar_rewrite_ignores_tenant_id (sql : string) (params : ParamRecord)
    (metadata : Engine.DatabaseMetadata) (tenantId tenantId' : string) :
  Engine.dialect metadata = clickhouse ->
  (Engine.ensureTenantIsolation sql params metadata tenantId).1
  = (Engine.ensureTenantIsolation sql params metadata tenantId').1.
Proof.
  intros Hdialect. unfold Engine.ensureTenantIsolation, Engine.tenantPredicate.
  rewrite Hdialect.
  destruct (truthy_string (Engine.tenantFieldName metadata)) as [field|]; [|reflexivity].
  destruct (Engine.enforceTenantIsolation metadata) as [[]|].
  all: try reflexivity.
  all: destruct (Js.includes _ _); [reflexivity|].
  all: by destruct (Regex.test _ _).
Qed.

Lemma columnar_rewrite_ignores_tenant_id_witness :
  (Engine.ensureTenantIsolation "SELECT * FROM events" Obj.empty
     (tenant_metadata clickhouse)
     "tenant-1").1
  = (Engine.ensureTenantIsolation "SELECT * FROM events" Obj.empty
     (tenant_metadata clickhouse)
       "x' OR '1'='1").1.
Proof.
  apply (columnar_rewrite_ignores_tenant_id "SELECT * FROM events" Obj.empty
           (tenant_metadata clickhouse) "tenant-1" "x' OR '1'='1").
  reflexivity.
Defined.

End SmallFacts.

(** ** Numerals, lengths and precisions *)

Section TypeArguments.
Import Regex TypeUtils.

Lemma pretty_N_char_digit x :
  x < 10 ->
  Js.is_digit (pretty_N_char x) = true /\ Js.code (pretty_N_char x) - 48 = x.
Proof.
  intros Hx.
  assert (x = 0 \/ x = 1 \/ x = 2 \/ x = 3 \/ x = 4 \/ x = 5 \/ x = 6 \/ x = 7
          \/ x = 8 \/ x = 9) as Hcases by lia.
  repeat destruct Hcases as [->|Hcases]; try (by vm_compute). by subst.
Qed.

(** The digits [pretty] writes are read back by [parse_digits]. *)
Lemma pretty_N_go_digits x : forall s,
  exists d m,
    pretty_N_go x s = d +:+ s /\ all_chars Js.is_digit d = true
    /\ (0 < x -> d <> EmptyString)
    /\ forall acc t, all_chars Js.is_digit d = true ->
         Postgres.parse_digits acc (d +:+ t) = Postgres.parse_digits (acc * m + x) t.
Proof.
  induction (N.lt_wf_0 x) as [x _ IH]. intros s.
  destruct (decide (0 < x)) as [Hpos|Hzero].
  2: { assert (x = 0) as -> by lia. exists EmptyString, 1. rewrite pretty_N_go_0.
       split; [reflexivity|]. split; [reflexivity|]. split; [lia|].
       intros acc t _. rewrite str_app_empty_l. f_equal. lia. }
  rewrite pretty_N_go_step by exact Hpos.
  destruct (IH (x `div` 10) (N.div_lt x 10 Hpos eq_refl)
              (String (pretty_N_char (x `mod` 10)) s)) as (d & m & Hd & Hall & _ & Hparse).
  destruct (pretty_N_char_digit (x `mod` 10)) as [Hdigit Hcode].
  { by apply N.mod_lt. }
  exists (d +:+ String (pretty_N_char (x `mod` 10)) EmptyString), (10 * m).
  split; [by rewrite Hd, str_app_assoc|].
  split; [rewrite all_chars_app, Hall; cbn; by rewrite Hdigit|].
  split; [intros _; by destruct d|].
  intros acc t _. rewrite str_app_assoc, Hparse by exact Hall.
  rewrite str_app_cons, str_app_empty_l. cbn [Postgres.parse_digits].
  rewrite Hdigit, Hcode. f_equal.
  pose proof (N.div_mod x 10 ltac:(lia)). lia.
Qed.

Lemma pretty_numeral (n : N) :
  is_numeral (pretty n) /\ Postgres.parse_digits 0 (pretty n) = n.
Proof.
  unfold pretty, pretty_N. destruct (decide (n = 0)) as [->|Hn].
  { split; [by split|reflexivity]. }
  destruct (pretty_N_go_digits n EmptyString) as (d & m & Hd & Hall & Hne & Hparse).
  rewrite Hd, str_app_empty_r. split; [split; [apply Hne; lia|exact Hall]|].
  rewrite <- (str_app_empty_r d), Hparse by exact Hall.
  cbn. lia.
Qed.

(** When the run of [p] ends where the rest starts, [[p]*] takes all of
    it if what follows succeeds there. *)
Lemma class_star_longest p k (rest : string) :
  match rest with EmptyString => True | String c _ => p c = false end ->
  forall t left_rev caps res,
    all_chars p t = true ->
    k (MState (String.rev_app t left_rev) rest caps) = Some res ->
    class_star p k (t +:+ rest) left_rev caps = Some res.
Proof.
  intros Hrest. induction t as [|c t IH]; intros left_rev caps res Ht Hk.
  - rewrite str_app_empty_l. cbn in Hk. destruct rest as [|c rest']; [exact Hk|].
    cbn. by rewrite Hrest.
  - cbn in Ht. apply andb_true_iff in Ht as [Hc Ht].
    rewrite str_app_cons. cbn. rewrite Hc. by rewrite (IH _ _ res).
Qed.

(** A text whose first letter is none of [N], [L] and [S] is not
    wrapped. *)
Lemma not_wrapped_initial c rest :
  Js.canonicalize c <> "N"%char -> Js.canonicalize c <> "L"%char ->
  Js.canonicalize c <> "S"%char ->
  exec WRAPPER_REGEX (String c rest) = None.
Proof.
  intros HN HL HS. rewrite wrapper_regex_unfold, matcher_Group, !matcher_Alt.
  by rewrite !lit_ci_mismatch.
Qed.

Lemma trim_delimited c rest :
  Js.is_white_space c = false ->
  Js.trim (String c (rest +:+ ")")) = String c (rest +:+ ")").
Proof.
  intros Hc. apply trim_fixed. split.
  - cbn. by rewrite Hc.
  - rewrite <- str_app_cons, str_rev_app_distr. reflexivity.
Qed.

Lemma unwrap_plain c rest :
  Js.is_white_space c = false ->
  Js.canonicalize c <> "N"%char -> Js.canonicalize c <> "L"%char ->
  Js.canonicalize c <> "S"%char ->
  unwrapTypeModifiers (String c (rest +:+ ")")) = String c (rest +:+ ")").
Proof.
  intros Hc HN HL HS. unfold unwrapTypeModifiers. rewrite trim_delimited by exact Hc.
  cbn [String.length unwrap_loop]. by rewrite not_wrapped_initial.
Qed.

Lemma initial_of (x : ascii) c :
  In x ["F"; "D"]%char -> Js.canonicalize c = Js.canonicalize x ->
  Js.is_white_space c = false /\ Js.canonicalize c <> "N"%char
  /\ Js.canonicalize c <> "L"%char /\ Js.canonicalize c <> "S"%char.
Proof.
  intros [<-|[<-|[]]].
  all: destruct c as [[] [] [] [] [] [] [] []]; vm_compute; intuition congruence.
Qed.

(** An integer below 2^53 is its own number value. *)
Lemma of_N_small (n : N) : n < 2 ^ 53 -> JsNumber.of_N n = JsNumber.Finite n.
Proof.
  intros Hn. unfold JsNumber.of_N.
  assert (N.log2 n - 52 = 0) as ->.
  { destruct (decide (n = 0)) as [->|Hpos]; [reflexivity|].
    assert (N.log2 n < 53) by (apply N.log2_lt_pow2; lia). lia. }
  rewrite N.pow_0_r, N.div_1_r, N.mod_1_r, N.mul_1_r.
  change (2 * 0) with 0. change (1 <? 0) with false. change (1 =? 0) with false.
  cbn [orb andb].
  destruct (2 ^ 1024 <=? n) eqn:Hbig; [|reflexivity].
  apply N.leb_le in Hbig. assert (2 ^ 53 < 2 ^ 1024) by (by apply N.pow_lt_mono_r). lia.
Qed.

Lemma parseInt_numeral (n : N) : Postgres.parseInt (pretty n) = JsNumber.of_N n.
Proof. unfold Postgres.parseInt. by rewrite (proj2 (pretty_numeral n)). Qed.

(** X27: [extractFixedStringLength] reads the length back from
    [FixedString(n)], the name in any letter case: it returns the number
    value of the numeral, which below 2^53 is [n] itself. *)
Theorem extractFixedStringLength_round_trip (w : string) (n : N) :
  same_ci w "FixedString" = true ->
  extractFixedStringLength (w +:+ "(" +:+ pretty n +:+ ")") = Some (JsNumber.of_N n)
  /\ (n < 2 ^ 53 ->
      extractFixedStringLength (w +:+ "(" +:+ pretty n +:+ ")")
      = Some (JsNumber.Finite n)).
Proof.
  intros Hw.
  assert (Hread : extractFixedStringLength (w +:+ "(" +:+ pretty n +:+ ")")
                  = Some (JsNumber.of_N n)).
  2: { split; [exact Hread|]. intros Hn. by rewrite Hread, of_N_small. }
  destruct (pretty_numeral n) as [[Hne Hdigits] _].
  destruct (first_of_same_ci _ _ _ Hw) as (c & w' & -> & Hc).
  destruct (initial_of "F" c ltac:(cbn; tauto) Hc) as (Hspace & HN & HL & HS).
  unfold extractFixedStringLength.
  rewrite str_app_cons, <- !str_app_assoc, unwrap_plain by done.
  rewrite !str_app_assoc, <- str_app_cons.
  unfold fixedStringPattern. rewrite exec_anchored, matcher_Seq, matcher_Alt.
  rewrite (lit_ci_match "FixedString") by done.
  destruct (parenthesized_intro 1 Js.is_digit (pretty n)
              (String.rev_app (String c w') EmptyString) [] Hne Hdigits)
    as (res & Hres & Hcap).
  change (matcher (Seq (char_eq "(") (Seq (Group 1 digits) (Seq (char_eq ")") LineEnd))))
    with (matcher (parenthesized 1 Js.is_digit)).
  rewrite Hres. cbn [fmap option_fmap option_map]. unfold group, result_of.
  cbn [m_groups]. rewrite Hcap.
  assert (truthy_string (Some (pretty n)) = Some (pretty n : string)) as ->.
  { cbn. by destruct (pretty n : string). }
  by rewrite parseInt_numeral.
Qed.

Lemma search_here r before_rev s st :
  match_here r before_rev s = Some st ->
  search r before_rev s = Some (result_of before_rev st).
Proof. intros H. destruct s; cbn [search]; by rewrite H. Qed.

Lemma digit_not_space c : Js.is_digit c = true -> Js.is_white_space c = false.
Proof. destruct c as [[] [] [] [] [] [] [] []]; vm_compute; congruence. Qed.

Lemma space_not_digit c : Js.is_white_space c = true -> Js.is_digit c = false.
Proof. destruct c as [[] [] [] [] [] [] [] []]; vm_compute; congruence. Qed.

(** [[p]+] followed by a text that does not start in [p]. *)
Lemma class_plus_longest p k (rest : string) :
  match rest with EmptyString => True | String c _ => p c = false end ->
  forall t left_rev caps res,
    t <> EmptyString -> all_chars p t = true ->
    k (MState (String.rev_app t left_rev) rest caps) = Some res ->
    matcher (Plus (Char p)) (MState left_rev (t +:+ rest) caps) k = Some res.
Proof.
  intros Hrest t left_rev caps res Hne Ht Hk. destruct t as [|c t]; [done|].
  cbn in Ht. apply andb_true_iff in Ht as [Hc Ht].
  unfold Plus. rewrite matcher_Seq, matcher_Char, str_app_cons.
  cbn [remaining consumed captures]. rewrite Hc, matcher_star_class.
  cbn [remaining consumed captures]. by apply class_star_longest.
Qed.

Lemma spaces_longest k (rest : string) :
  match rest with EmptyString => True | String c _ => Js.is_white_space c = false end ->
  forall t left_rev caps res,
    all_chars Js.is_white_space t = true ->
    k (MState (String.rev_app t left_rev) rest caps) = Some res ->
    matcher spaces (MState left_rev (t +:+ rest) caps) k = Some res.
Proof.
  intros Hrest t left_rev caps res Ht Hk. unfold spaces. rewrite matcher_star_class.
  cbn [remaining consumed captures]. by apply class_star_longest.
Qed.

(** The two numbers of [(p, s)], with any white space around the comma. *)
Lemma decimal_arguments (d1 sp1 sp2 d2 left_rev : string) caps :
  is_numeral d1 -> is_numeral d2 ->
  all_chars Js.is_white_space sp1 = true -> all_chars Js.is_white_space sp2 = true ->
  exists res,
    matcher
      (Seq (char_eq "(")
         (Seq (Group 1 digits)
            (Seq spaces (Seq (char_eq ",") (Seq spaces (Seq (Group 2 digits) (char_eq ")")))))))
      (MState left_rev ("(" +:+ d1 +:+ sp1 +:+ "," +:+ sp2 +:+ d2 +:+ ")") caps) Some
    = Some res
    /\ capture 1 (captures res) = Some d1 /\ capture 2 (captures res) = Some d2.
Proof.
  intros [Hne1 Hd1] [Hne2 Hd2] Hsp1 Hsp2.
  rewrite matcher_Seq. unfold char_eq at 1. rewrite matcher_Char, str_app_cons.
  rewrite str_app_empty_l. cbn [remaining consumed captures].
  destruct (ascii_dec "(" "(") as [_|]; [|done].
  rewrite matcher_Seq, matcher_Group. unfold digits.
  eexists. split.
  - apply class_plus_longest; [|exact Hne1|exact Hd1|].
    { destruct sp1 as [|c sp1]; [reflexivity|]. cbn in Hsp1.
      apply andb_true_iff in Hsp1 as [Hc _]. rewrite str_app_cons.
      by apply space_not_digit. }
    rewrite (text_between_consumed _ _ d1) by reflexivity.
    unfold set_capture. cbn [remaining consumed captures].
    rewrite matcher_Seq. apply spaces_longest; [reflexivity|exact Hsp1|].
    rewrite matcher_Seq. unfold char_eq at 1. rewrite matcher_Char, str_app_cons.
    rewrite str_app_empty_l. cbn [remaining consumed captures].
    destruct (ascii_dec "," ",") as [_|]; [|done].
    rewrite matcher_Seq. apply spaces_longest; [|exact Hsp2|].
    { destruct d2 as [|c d2]; [done|]. cbn in Hd2.
      apply andb_true_iff in Hd2 as [Hc _]. rewrite str_app_cons.
      by apply digit_not_space. }
    rewrite matcher_Seq, matcher_Group.
    apply class_plus_longest; [reflexivity|exact Hne2|exact Hd2|].
    rewrite (text_between_consumed _ _ d2) by reflexivity.
    unfold set_capture, char_eq. rewrite matcher_Char.
    cbn [remaining consumed captures].
    destruct (ascii_dec ")" ")") as [_|]; [|done]. reflexivity.
  - cbn [captures capture drop_capture Nat.eqb]. by split.
Qed.

(** X28: [extractPrecisionScale] reads precision and scale back from
    [Decimal(p, s)], the name in any letter case, with or without a bit
    width after it and with any white space around the comma: it returns
    the number values of the two numerals, which below 2^53 are [p] and
    [s] themselves. *)
Theorem extractPrecisionScale_round_trip (w bits sp1 sp2 : string) (p s : N) :
  same_ci w "Decimal" = true ->
  bits = EmptyString \/ is_numeral bits ->
  all_chars Js.is_white_space sp1 = true -> all_chars Js.is_white_space sp2 = true ->
  let type :=
    w +:+ bits +:+ "(" +:+ pretty p +:+ sp1 +:+ "," +:+ sp2 +:+ pretty s +:+ ")" in
  extractPrecisionScale type = Some (JsNumber.of_N p, JsNumber.of_N s)
  /\ (p < 2 ^ 53 -> s < 2 ^ 53 ->
      extractPrecisionScale type = Some (JsNumber.Finite p, JsNumber.Finite s)).
Proof.
  intros Hw Hbits Hsp1 Hsp2 type.
  assert (Hread : extractPrecisionScale type = Some (JsNumber.of_N p, JsNumber.of_N s)).
  2: { split; [exact Hread|]. intros Hp Hs. by rewrite Hread, !of_N_small. }
  subst type.
  destruct (pretty_numeral p) as [Hp _].
  destruct (pretty_numeral s) as [Hs _].
  destruct (first_of_same_ci _ _ _ Hw) as (c & w' & -> & Hc).
  destruct (initial_of "D" c ltac:(cbn; tauto) Hc) as (Hspace & HN & HL & HS).
  unfold extractPrecisionScale.
  rewrite str_app_cons, <- !str_app_assoc, unwrap_plain by done.
  rewrite !str_app_assoc, <- str_app_cons. unfold exec.
  destruct (decimal_arguments (pretty p) sp1 sp2 (pretty s)
              (String.rev_app bits (String.rev_app (String c w') EmptyString)) []
              Hp Hs Hsp1 Hsp2) as (res & Hres & Hcap1 & Hcap2).
  rewrite (search_here _ _ _ res).
  - unfold group, result_of. cbn [m_groups]. rewrite Hcap1, Hcap2.
    assert (forall n : N, truthy_string (Some (pretty n)) = Some (pretty n : string))
      as Htruthy.
    { intros n. destruct (pretty_numeral n) as [[Hne _] _]. cbn.
      by destruct (pretty n : string). }
    by rewrite !Htruthy, !parseInt_numeral.
  - unfold match_here, decimalPattern. rewrite matcher_Seq.
    rewrite (lit_ci_match "Decimal") by done.
    rewrite matcher_Seq. unfold Opt. rewrite matcher_Alt.
    destruct Hbits as [->|[Hne Hdigits]].
    + rewrite str_app_empty_l. unfold digits at 1, Plus at 1.
      rewrite matcher_Seq, matcher_Char, str_app_cons. cbn [remaining].
      change (Js.is_digit "(") with false. cbv iota.
      cbn [matcher]. rewrite <- str_app_cons. exact Hres.
    + unfold digits at 1. erewrite class_plus_longest; [reflexivity| |exact Hne|exact Hdigits|].
      { by rewrite str_app_cons. }
      exact Hres.
Qed.

Lemma extractPrecisionScale_round_trip_witness :
  extractPrecisionScale "decimal64(18 ,4)"
  = Some (JsNumber.Finite 18, JsNumber.Finite 4).
Proof.
  assert (H64 : is_numeral "64") by (split; [discriminate|reflexivity]).
  exact (proj2 (extractPrecisionScale_round_trip "decimal" "64" " " EmptyString 18 4
                  eq_refl (or_intror H64) eq_refl eq_refl) eq_refl eq_refl).
Defined.

Lemma extractFixedStringLength_round_trip_witness :
  extractFixedStringLength "fixedstring(16)" = Some (JsNumber.Finite 16).
Proof.
  exact (proj2 (extractFixedStringLength_round_trip "fixedstring" 16 eq_refl) eq_refl).
Defined.

(** From 2^53 on a length is rounded to the nearest double, by
    evaluation. *)
Example fixed_string_length_rounded :
  extractFixedStringLength "FixedString(9007199254740993)"
  = Some (JsNumber.Finite 9007199254740992).
Proof. vm_compute. reflexivity. Qed.

(** A match of a literal under the [i] flag is a spelling of it. *)
Lemma lit_ci_inv lit : lit <> EmptyString ->
  forall st k res,
    matcher (lit_ci lit) st k = Some res ->
    exists w rest,
      remaining st = w +:+ rest /\ same_ci w lit = true
      /\ k (MState (String.rev_app w (consumed st)) rest (captures st)) = Some res.
Proof.
  induction lit as [|x lit IH]; [done|]. intros _ st k res.
  assert (forall k',
            matcher (char_ci x) st k' = Some res ->
            exists c rest,
              remaining st = String c rest
              /\ (if ascii_dec (Js.canonicalize c) (Js.canonicalize x) then true else false)
                 = true
              /\ k' (MState (String c (consumed st)) rest (captures st)) = Some res)
    as Hchar.
  { intros k'. unfold char_ci. rewrite matcher_Char.
    destruct (remaining st) as [|c rest]; [done|].
    destruct (ascii_dec _ _) eqn:Hc; [|done]. intros Hk. exists c, rest.
    by rewrite Hc. }
  destruct lit as [|x' lit].
  - cbn [lit_ci]. intros (c & rest & Hst & Hc & Hk)%Hchar.
    exists (String c EmptyString), rest. rewrite str_app_cons, str_app_empty_l.
    split; [exact Hst|]. split; [|exact Hk]. cbn. by rewrite Hc.
  - change (lit_ci (String x (String x' lit)))
      with (Seq (char_ci x) (lit_ci (String x' lit))).
    rewrite matcher_Seq. intros (c & rest & Hst & Hc & Hk)%Hchar.
    apply IH in Hk as (w & rest' & Hrest & Hw & Hk); [|done].
    cbn [remaining consumed captures] in Hrest, Hk.
    exists (String c w), rest'. rewrite str_app_cons, <- Hrest.
    split; [exact Hst|]. split; [|exact Hk].
    cbn [same_ci]. by rewrite Hc, Hw.
Qed.

(** A search succeeds exactly when the pattern matches somewhere. *)
Lemma search_inv r s : forall before_rev m,
  search r before_rev s = Some m ->
  exists pre post st,
    s = pre +:+ post /\ match_here r (String.rev_app pre before_rev) post = Some st.
Proof.
  induction s as [|c s IH]; intros before_rev m; cbn [search].
  - destruct (match_here r before_rev EmptyString) as [st|] eqn:Hst; [|done].
    intros _. by exists EmptyString, EmptyString, st.
  - destruct (match_here r before_rev (String c s)) as [st|] eqn:Hst.
    + intros _. by exists EmptyString, (String c s), st.
    + intros (pre & post & st & -> & Hst')%IH. by exists (String c pre), post, st.
Qed.

Lemma search_intro r post st : forall pre before_rev,
  match_here r (String.rev_app pre before_rev) post = Some st ->
  exists m, search r before_rev (pre +:+ post) = Some m.
Proof.
  induction pre as [|c pre IH]; intros before_rev Hst.
  - rewrite str_app_empty_l. eexists. by apply search_here.
  - rewrite str_app_cons. cbn [search].
    destruct (match_here r before_rev _); [by eexists|]. by apply IH.
Qed.

(** X29: [isNullableType] holds exactly of the texts that contain the
    word [Nullable], in any letter case, followed by an opening
    parenthesis, with nothing but white space in between. *)
Theorem isNullableType_spec (type : string) :
  isNullableType type = true
  <-> exists pre w sp post,
        type = pre +:+ w +:+ sp +:+ "(" +:+ post
        /\ same_ci w "Nullable" = true /\ all_chars Js.is_white_space sp = true.
Proof.
  unfold isNullableType, test, exec. split.
  - destruct (search nullablePattern EmptyString type) as [m|] eqn:Hm; [intros _|done].
    apply search_inv in Hm as (pre & post & st & -> & Hst).
    unfold match_here, nullablePattern in Hst. rewrite matcher_Seq in Hst.
    apply lit_ci_inv in Hst as (w & rest & Hrest & Hw & Hk); [|done].
    rewrite matcher_Seq in Hk. unfold spaces in Hk. rewrite matcher_star_class in Hk.
    apply class_star_inv in Hk as (sp & u & Hu & Hsp & Hparen).
    unfold char_eq in Hparen. rewrite matcher_Char in Hparen.
    cbn [remaining consumed captures] in *. destruct u as [|c u]; [done|].
    destruct (ascii_dec c "(") as [->|]; [|done].
    exists pre, w, sp, u. by rewrite Hrest, Hu.
  - intros (pre & w & sp & post & -> & Hw & Hsp).
    destruct (search_intro nullablePattern (w +:+ sp +:+ "(" +:+ post)
                (MState (String "(" (String.rev_app sp (String.rev_app w
                           (String.rev_app pre EmptyString)))) post [])
                pre EmptyString) as (m & ->); [|reflexivity].
    unfold match_here, nullablePattern. rewrite matcher_Seq.
    rewrite (lit_ci_match "Nullable") by done. rewrite matcher_Seq.
    apply spaces_longest; [reflexivity|exact Hsp|].
    unfold char_eq. rewrite matcher_Char, str_app_cons, str_app_empty_l.
    cbn [remaining consumed captures]. by destruct (ascii_dec "(" "(").
Qed.

End TypeArguments.

(** ** The table of a plain FROM clause *)

Section SimpleFrom.
Import Regex.

Variable modifier : string.
Variable qualifier : regex.
Variable i : nat.
Variable quote : ascii -> bool.
Hypothesis modifier_not_empty : modifier <> EmptyString.
Hypothesis quote_not_word : forall c, Js.is_word_char c = true -> quote c = false.

Lemma table_pattern_skip c rest before_rev :
  not_from_join c = true ->
  match_here (table_pattern modifier qualifier i quote) before_rev (String c rest) = None.
Proof.
  unfold not_from_join. intros Hc. apply negb_true_iff, orb_false_iff in Hc as [HF HJ].
  unfold match_here, table_pattern. rewrite matcher_Seq, matcher_Alt.
  rewrite !lit_ci_mismatch; [reflexivity|..].
  - change (Js.canonicalize "J") with "J"%char. by destruct (ascii_dec _ "J").
  - change (Js.canonicalize "F") with "F"%char. by destruct (ascii_dec _ "F").
Qed.

Lemma table_pattern_search_skip pre : forall s before_rev,
  all_chars not_from_join pre = true ->
  search (table_pattern modifier qualifier i quote) before_rev (pre +:+ s)
  = search (table_pattern modifier qualifier i quote) (String.rev_app pre before_rev) s.
Proof.
  induction pre as [|c pre IH]; intros s before_rev Hpre; [by rewrite str_app_empty_l|].
  cbn in Hpre. apply andb_true_iff in Hpre as [Hc Hpre].
  rewrite str_app_cons. cbn [search]. rewrite table_pattern_skip by exact Hc.
  by rewrite IH.
Qed.

(** Inside an identifier there is no modifier and no qualifier. *)
Lemma no_modifier t left_rev caps k :
  all_chars Js.is_word_char t = true ->
  matcher (Seq (lit_ci modifier) Postgres.white_space) (MState left_rev t caps) k = None.
Proof.
  intros Ht. destruct (matcher _ _ _) as [res|] eqn:Hres; [exfalso|reflexivity].
  rewrite matcher_Seq in Hres.
  apply lit_ci_inv in Hres as (w & rest & Hrest & _ & Hk); [|exact modifier_not_empty].
  unfold Postgres.white_space, Plus in Hk. rewrite matcher_Seq, matcher_Char in Hk.
  cbn [remaining] in Hrest, Hk. destruct rest as [|c rest]; [done|].
  destruct (Js.is_white_space c) eqn:Hc; [|done].
  rewrite Hrest, all_chars_app in Ht. cbn in Ht.
  apply andb_true_iff in Ht as [_ [Hword _]%andb_true_iff].
  apply word_char_not_space in Hword. unfold not_space in Hword. by rewrite Hc in Hword.
Qed.

Lemma no_qualifier t left_rev caps k :
  all_chars Js.is_word_char t = true ->
  matcher (Seq qualifier (char_eq ".")) (MState left_rev t caps) k = None.
Proof.
  intros Ht. destruct (matcher _ _ _) as [res|] eqn:Hres; [exfalso|reflexivity].
  rewrite matcher_Seq in Hres.
  apply matcher_forward in Hres as (st1 & x & [_ Hx] & Hk).
  unfold char_eq in Hk. rewrite matcher_Char in Hk. cbn [remaining] in Hx.
  destruct (remaining st1) as [|c rest]; [done|].
  destruct (ascii_dec c ".") as [->|]; [|done].
  rewrite Hx, all_chars_app in Ht. cbn in Ht. by rewrite andb_false_r in Ht.
Qed.

(** The name itself, taken whole. *)
Lemma table_name_match t left_rev caps :
  is_identifier t ->
  matcher (Group i (Seq (Opt (Char quote)) (Seq Postgres.identifier (Opt (Char quote)))))
    (MState left_rev t caps) Some
  = Some (MState (String.rev_app t left_rev) EmptyString ((i, t) :: drop_capture i caps)).
Proof.
  intros (c & rest & -> & Hc & Hrest).
  rewrite matcher_Group, matcher_Seq. unfold Opt at 1. rewrite matcher_Alt, matcher_Char.
  cbn [remaining consumed captures].
  rewrite (quote_not_word c (ident_start_word_char c Hc)).
  cbn [matcher]. unfold Postgres.identifier. rewrite !matcher_Seq, matcher_Char.
  cbn [remaining consumed captures]. rewrite Hc. rewrite matcher_star_class.
  cbn [remaining consumed captures]. rewrite <- (str_app_empty_r rest) at 1.
  apply class_star_longest; [done|exact Hrest|].
  unfold Opt. rewrite matcher_Alt, matcher_Char. cbn [remaining matcher].
  rewrite (text_between_consumed _ _ (String c rest)) by reflexivity.
  reflexivity.
Qed.

Lemma table_pattern_here w sp t before_rev :
  same_ci w "FROM" = true -> sp <> EmptyString ->
  all_chars Js.is_white_space sp = true -> is_identifier t ->
  match_here (table_pattern modifier qualifier i quote) before_rev (w +:+ sp +:+ t)
  = Some (MState (String.rev_app (w +:+ sp +:+ t) before_rev) EmptyString [(i, t)]).
Proof.
  intros Hw Hne Hsp Ht. pose proof (identifier_word_chars _ Ht) as Hword.
  unfold match_here, table_pattern. rewrite matcher_Seq, matcher_Alt.
  rewrite (lit_ci_match "FROM") by done.
  assert (matcher
            (Seq Postgres.white_space
               (Seq (Opt (Seq (lit_ci modifier) Postgres.white_space))
                  (Seq (Opt (Seq qualifier (char_eq ".")))
                     (Group i
                        (Seq (Opt (Char quote))
                           (Seq Postgres.identifier (Opt (Char quote))))))))
            (MState (String.rev_app w before_rev) (sp +:+ t) []) Some
          = Some (MState (String.rev_app (w +:+ sp +:+ t) before_rev) EmptyString
                    [(i, t)])) as ->; [|reflexivity].
  rewrite matcher_Seq. unfold Postgres.white_space.
  apply class_plus_longest; [|exact Hne|exact Hsp|].
  { destruct Ht as (c & rest & -> & Hc & _).
    apply ident_start_word_char, word_char_not_space in Hc.
    unfold not_space in Hc. by destruct (Js.is_white_space c). }
  rewrite matcher_Seq. unfold Opt at 1. rewrite matcher_Alt.
  rewrite no_modifier by exact Hword. cbv beta iota. rewrite matcher_Empty, matcher_Seq.
  unfold Opt at 1. rewrite matcher_Alt. rewrite no_qualifier by exact Hword.
  cbv beta iota. rewrite matcher_Empty, table_name_match by exact Ht.
  by rewrite !str_rev_app_app.
Qed.

(** A statement with one plain FROM clause has one match, whose only
    group is the table name. *)
Lemma simple_from_matches sql pre w sp t :
  simple_from sql pre w sp t ->
  exists m,
    matchAll (table_pattern modifier qualifier i quote) sql = [m]
    /\ m_groups m = [(i, t)].
Proof.
  intros (-> & Hpre & Hw & Hne & Hsp & Ht). unfold matchAll.
  cbn [match_all_from]. rewrite table_pattern_search_skip by exact Hpre.
  pose proof (table_pattern_here w sp t (String.rev_app pre EmptyString) Hw Hne Hsp Ht)
    as Hhere.
  rewrite (search_here _ _ _ _ Hhere).
  destruct (match_here_forward _ _ _ _ Hhere) as (text & Htext & ->).
  cbn [remaining] in Htext. rewrite str_app_empty_r in Htext. subst text.
  cbn [m_text m_after m_before captures].
  destruct (first_of_same_ci _ _ _ Hw) as (c & w' & -> & _).
  rewrite str_app_cons.
  match goal with
  | |- exists m, ?first :: ?others = [m] /\ _ => assert (others = []) as ->
  end.
  { destruct (String.length _) as [|fuel]; reflexivity. }
  eexists. split; reflexivity.
Qed.

End SimpleFrom.

Section SimpleFromReferences.
Import Regex.
Context {W : Type}.

Lemma pg_quote_not_word c : Js.is_word_char c = true -> Postgres.is_quote c = false.
Proof. destruct c as [[] [] [] [] [] [] [] []]; vm_compute; congruence. Qed.

Lemma ch_quote_not_word c : Js.is_word_char c = true -> ClickHouse.is_quote c = false.
Proof. destruct c as [[] [] [] [] [] [] [] []]; vm_compute; congruence. Qed.

Lemma remove_quotes_identifier (quote : ascii -> bool) t :
  (forall c, Js.is_word_char c = true -> quote c = false) ->
  is_identifier t -> Js.remove_chars quote t = t.
Proof.
  intros Hquote Ht%identifier_word_chars. apply remove_chars_none.
  eapply all_chars_impl; [|exact Ht]. intros c Hc. by rewrite (Hquote c Hc).
Qed.

(** X30: in a statement that is some text without the letters F and J,
    the keyword FROM in any letter case, white space and an identifier,
    both adapters find exactly one table reference, that identifier (in
    the default schema for the relational adapter); so with a non-empty
    allow-list the statement passes validation exactly when the
    identifier is allowed. *)
Theorem simple_from_reference (pg : Postgres.PostgresAdapter W)
    (ch : ClickHouse.ClickHouseAdapter W) (sql pre w sp t : string) :
  simple_from sql pre w sp t ->
  pg_references (Postgres.defaultSchema pg) sql = [(Postgres.defaultSchema pg, t)]
  /\ ch_references sql = [t]
  /\ match Postgres.allowedTables pg with
     | Some (x :: ts) =>
         Postgres.validateQueryTables pg sql = inr ()
         <-> pg_allowed (x :: ts) (Postgres.defaultSchema pg, t)
     | _ => Postgres.validateQueryTables pg sql = inr ()
     end
  /\ match ClickHouse.allowedTables ch with
     | Some (x :: ts) =>
         ClickHouse.validateQueryTables ch sql = inr () <-> ch_allowed (x :: ts) t
     | _ => ClickHouse.validateQueryTables ch sql = inr ()
     end.
Proof.
  intros Hsimple. pose proof Hsimple as (_ & _ & _ & _ & _ & Ht).
  destruct (simple_from_matches "ONLY" (Group 1 Postgres.identifier) 2 Postgres.is_quote
              ltac:(discriminate) pg_quote_not_word sql pre w sp t Hsimple)
    as (m & Hm & Hgroups).
  destruct (simple_from_matches "FINAL" Postgres.identifier 1 ClickHouse.is_quote
              ltac:(discriminate) ch_quote_not_word sql pre w sp t Hsimple)
    as (m' & Hm' & Hgroups').
  change (table_pattern "ONLY" (Group 1 Postgres.identifier) 2 Postgres.is_quote)
    with Postgres.tablePattern in Hm.
  change (table_pattern "FINAL" Postgres.identifier 1 ClickHouse.is_quote)
    with ClickHouse.tablePattern in Hm'.
  pose proof (identifier_truthy _ Ht) as Htruthy.
  assert (pg_reference (Postgres.defaultSchema pg) m = Some (Postgres.defaultSchema pg, t))
    as Href.
  { unfold pg_reference, group. rewrite Hgroups. cbn.
    by rewrite (remove_quotes_identifier _ _ pg_quote_not_word Ht), Htruthy. }
  assert (ch_reference m' = Some t) as Href'.
  { unfold ch_reference, group. rewrite Hgroups'. cbn.
    by rewrite (remove_quotes_identifier _ _ ch_quote_not_word Ht), Htruthy. }
  split; [unfold pg_references; rewrite Hm; cbn [omap list_omap]; by rewrite Href|].
  split; [unfold ch_references; rewrite Hm'; cbn [omap list_omap]; by rewrite Href'|].
  split.
  - unfold Postgres.validateQueryTables.
    destruct (Postgres.allowedTables pg) as [[|x ts]|]; [reflexivity| |reflexivity].
    rewrite Hm, pg_check_step, Href. cbn [fst snd Postgres.check_matches].
    unfold pg_allowed. cbn [fst snd]. by destruct (decide _).
  - unfold ClickHouse.validateQueryTables.
    destruct (ClickHouse.allowedTables ch) as [[|x ts]|]; [reflexivity| |reflexivity].
    rewrite Hm', ch_check_step, Href'. cbn [ClickHouse.check_matches].
    unfold ch_allowed. by destruct (decide _).
Qed.

End SimpleFromReferences.

Section SimpleFromWitness.

Lemma simple_from_reference_witness :
  Postgres.validateQueryTables users_only "SELECT * FROM users" = inr ().
Proof.
  assert (Hsimple : simple_from "SELECT * FROM users" "SELECT * " "FROM" " " "users").
  { split; [reflexivity|]. split; [reflexivity|]. split; [reflexivity|].
    split; [discriminate|]. split; [reflexivity|]. by eexists _, _. }
  destruct (simple_from_reference users_only
              (ClickHouse.new (fun _ w => (inr ChOther, w)) (ch_options None))
              _ _ _ _ _ Hsimple) as (_ & _ & Hpg & _).
  apply Hpg. vm_compute. reflexivity.
Defined.

End SimpleFromWitness.
